(** * ebay-catalog: the store of the auction tracker

    A shallow embedding of [ebay_auction_tracker/db.py] (class
    [DatabaseHandler]) and of the sleep computation of [run_daemon] in
    [ebay_auction_tracker/main.py].

    The four tables of [initialize_schema] are lists of rows in insertion
    order.  A psycopg2 connection with [autocommit = False] is a pair of
    table sets: the committed one, and the one the statements of the open
    transaction read and write.  [commit] copies the second onto the first,
    [rollback] the first onto the second.  The four [SERIAL] sequences live
    beside the tables and are not restored by [rollback].

    Python dictionaries of the input ([Dict[str, Any]]) are records of
    optional fields: [None] is a key that is missing.  For the keys read by
    subscript ([item['title']]) a key bound to Python's [None] behaves like
    a missing one here: the subscript succeeds but the statement breaks the
    column's [NOT NULL], so the same call raises.  Values are taken to fit
    their column ([VARCHAR] lengths, [NUMERIC(10, 2)] range); primary keys
    come from the table's sequence only.  [NOW()] is a parameter [now] of
    each call: the start time of the transaction the call runs in. *)

From Stdlib Require Import ZArith List String Bool Lia QArith Qminmax.
Import ListNotations.
Local Open Scope string_scope.
Local Open Scope list_scope.
Local Open Scope Z_scope.

(** ** Rows of the schema ([initialize_schema]) *)

(** [sellers]: [ebay_user_id] is [UNIQUE NOT NULL]; [rating] is a [FLOAT]
    that is stored and never computed with, a rational stands for it. *)
Record Seller := mkSeller {
  s_id : Z;
  s_ebay_user_id : string;
  s_rating : option Q;
  s_feedback_score : option Z;
  s_created_at : Z;
  s_updated_at : Z
}.

(** [auctions]: [item_id] is [UNIQUE NOT NULL]; prices are [NUMERIC(10, 2)],
    counted in hundredths. *)
Record Auction := mkAuction {
  a_id : Z;
  a_item_id : string;
  a_title : string;
  a_url : string;
  a_seller_id : Z;
  a_search_pattern : string;
  a_description : option string;
  a_condition : option string;
  a_current_price : option Z;
  a_buy_it_now_price : option Z;
  a_shipping_cost : option Z;
  a_num_bids : Z;
  a_auction_end_time : Z;
  a_auction_start_time : option Z;
  a_auction_status : string;
  a_created_at : Z;
  a_updated_at : Z
}.

(** [item_specifics]: [UNIQUE (auction_id, spec_key)]. *)
Record ItemSpecific := mkItemSpecific {
  is_id : Z;
  is_auction_id : Z;
  is_spec_key : string;
  is_spec_value : string;
  is_created_at : Z
}.

(** [bids]: no constraint but the primary key. *)
Record Bid := mkBid {
  b_id : Z;
  b_auction_id : Z;
  b_bid_amount : Z;
  b_bid_time : Z;
  b_bidder_id : option string;
  b_winning_bid : bool;
  b_created_at : Z
}.

Record Tables := mkTables {
  sellers : list Seller;
  auctions : list Auction;
  item_specifics : list ItemSpecific;
  bids : list Bid
}.

Record Sequences := mkSequences {
  sellers_id_seq : Z;
  auctions_id_seq : Z;
  item_specifics_id_seq : Z;
  bids_id_seq : Z
}.

(** [self.conn]: what is committed, what the open transaction sees, and the
    sequences. *)
Record Connection := mkConnection {
  committed : Tables;
  working : Tables;
  sequences : Sequences
}.

Definition empty_tables : Tables := mkTables [] [] [] [].

(** The store right after [initialize_schema] on an empty database. *)
Definition fresh : Connection :=
  mkConnection empty_tables empty_tables (mkSequences 1 1 1 1).

(** ** The dictionaries the listing source hands over *)

Record SellerData := mkSellerData {
  sd_ebay_user_id : option string;
  sd_rating : option Q;
  sd_feedback_score : option Z
}.

Record BidData := mkBidData {
  bd_amount : option Z;
  bd_time : option Z;
  bd_bidder_id : option string;
  bd_winning_bid : option bool
}.

(** One record for the items of both batches: [save_items] and
    [update_completed_items] each read the keys they need. *)
Record Item := mkItem {
  i_seller : option SellerData;
  i_item_id : option string;
  i_title : option string;
  i_url : option string;
  i_search_pattern : option string;
  i_description : option string;
  i_condition : option string;
  i_current_price : option Z;
  i_buy_it_now_price : option Z;
  i_shipping_cost : option Z;
  i_num_bids : option Z;
  i_auction_end_time : option Z;
  i_auction_start_time : option Z;
  i_auction_status : option string;
  i_item_specifics : option (list (string * string));
  i_bids : option (list BidData);
  i_final_price : option Z
}.

(** ** Exceptions and the monad of the methods

    A method takes the connection and returns it with a value or an
    exception; what was written before a [raise] stays written, as in
    Python, until somebody calls [rollback]. *)

Inductive exn :=
| KeyError (key : string)
| UniqueViolation (constraint : string).

Inductive outcome (A : Type) :=
| Ok (a : A)
| Raise (e : exn).
Arguments Ok {A} a.
Arguments Raise {A} e.

Definition M (A : Type) : Type := Connection -> outcome A * Connection.

Definition ret {A} (a : A) : M A := fun c => (Ok a, c).

Definition raise {A} (e : exn) : M A := fun c => (Raise e, c).

Definition bind {A B} (m : M A) (k : A -> M B) : M B :=
  fun c =>
    match m c with
    | (Ok a, c') => k a c'
    | (Raise e, c') => (Raise e, c')
    end.

(** [try: m  except Exception as e: h e] *)
Definition try_except {A} (m : M A) (h : exn -> M A) : M A :=
  fun c =>
    match m c with
    | (Ok a, c') => (Ok a, c')
    | (Raise e, c') => h e c'
    end.

Declare Scope db_scope.
Delimit Scope db_scope with db.
Notation "x <- m ;; k" := (bind m (fun x => k))
  (at level 61, m at next level, right associativity) : db_scope.
Notation "m ;; k" := (bind m (fun _ => k))
  (at level 61, right associativity) : db_scope.
Local Open Scope db_scope.

(** [for x in xs: body x] *)
Fixpoint for_each {X} (xs : list X) (body : X -> M unit) : M unit :=
  match xs with
  | [] => ret tt
  | x :: rest => body x ;; for_each rest body
  end.

(** [d[key]] *)
Definition subscript {A} (key : string) (v : option A) : M A :=
  match v with
  | Some a => ret a
  | None => raise (KeyError key)
  end.

(** [d.get(key, default)] *)
Definition get {A} (v : option A) (default : A) : A :=
  match v with
  | Some a => a
  | None => default
  end.

(** ** Transaction control *)

Definition commit : M unit :=
  fun c => (Ok tt, mkConnection (working c) (working c) (sequences c)).

Definition rollback : M unit :=
  fun c => (Ok tt, mkConnection (committed c) (committed c) (sequences c)).

(** ** The statements, one definition per [cursor.execute] *)

Definition set_sellers (l : list Seller) (t : Tables) : Tables :=
  mkTables l (auctions t) (item_specifics t) (bids t).
Definition set_auctions (l : list Auction) (t : Tables) : Tables :=
  mkTables (sellers t) l (item_specifics t) (bids t).
Definition set_item_specifics (l : list ItemSpecific) (t : Tables) : Tables :=
  mkTables (sellers t) (auctions t) l (bids t).
Definition set_bids (l : list Bid) (t : Tables) : Tables :=
  mkTables (sellers t) (auctions t) (item_specifics t) l.

Definition set_working (t : Tables) (c : Connection) : Connection :=
  mkConnection (committed c) t (sequences c).

Definition find_seller (uid : string) (l : list Seller) : option Seller :=
  find (fun r => String.eqb (s_ebay_user_id r) uid) l.

Definition find_auction (iid : string) (l : list Auction) : option Auction :=
  find (fun r => String.eqb (a_item_id r) iid) l.

Definition same_specific (auction_id : Z) (key : string) (r : ItemSpecific) : bool :=
  Z.eqb (is_auction_id r) auction_id && String.eqb (is_spec_key r) key.

Definition find_specific (auction_id : Z) (key : string) (l : list ItemSpecific)
  : option ItemSpecific :=
  find (same_specific auction_id key) l.

(** [SELECT id FROM sellers WHERE ebay_user_id = %s], then [fetchone()]. *)
Definition select_seller_id (uid : string) : M (option Z) :=
  fun c => (Ok (option_map s_id (find_seller uid (sellers (working c)))), c).

Definition refresh_seller (now : Z) (rating : option Q) (feedback : option Z)
    (r : Seller) : Seller :=
  mkSeller (s_id r) (s_ebay_user_id r) rating feedback (s_created_at r) now.

(** [UPDATE sellers SET rating = %s, feedback_score = %s, updated_at = NOW()
    WHERE id = %s] *)
Definition update_seller (now : Z) (rating : option Q) (feedback : option Z)
    (id : Z) : M unit :=
  fun c =>
    let t := working c in
    (Ok tt,
     set_working
       (set_sellers
          (map (fun r => if Z.eqb (s_id r) id then refresh_seller now rating feedback r
                         else r) (sellers t)) t) c).

(** [INSERT INTO sellers (ebay_user_id, rating, feedback_score) VALUES
    (%s, %s, %s) RETURNING id]; the two timestamps default to [NOW()], the
    id to the next value of the sequence, which is consumed before the
    [UNIQUE] constraint is checked. *)
Definition insert_seller (now : Z) (uid : string) (rating : option Q)
    (feedback : option Z) : M Z :=
  fun c =>
    let t := working c in
    let q := sequences c in
    let id := sellers_id_seq q in
    let q' := mkSequences (id + 1) (auctions_id_seq q) (item_specifics_id_seq q)
                (bids_id_seq q) in
    match find_seller uid (sellers t) with
    | Some _ =>
        (Raise (UniqueViolation "sellers_ebay_user_id_key"),
         mkConnection (committed c) t q')
    | None =>
        (Ok id,
         mkConnection (committed c)
           (set_sellers (sellers t ++ [mkSeller id uid rating feedback now now]) t) q')
    end.

(** [SELECT id FROM auctions WHERE item_id = %s], then [fetchone()]. *)
Definition select_auction_id (iid : string) : M (option Z) :=
  fun c => (Ok (option_map a_id (find_auction iid (auctions (working c)))), c).

(** The columns the [UPDATE] of [save_item] sets, in the order of the
    statement. *)
Record AuctionFacts := mkAuctionFacts {
  f_title : string;
  f_url : string;
  f_seller_id : Z;
  f_description : option string;
  f_condition : option string;
  f_current_price : option Z;
  f_buy_it_now_price : option Z;
  f_shipping_cost : option Z;
  f_num_bids : Z;
  f_auction_status : string
}.

Definition overwrite_auction (now : Z) (f : AuctionFacts) (r : Auction) : Auction :=
  mkAuction (a_id r) (a_item_id r) (f_title f) (f_url f) (f_seller_id f)
    (a_search_pattern r) (f_description f) (f_condition f) (f_current_price f)
    (f_buy_it_now_price f) (f_shipping_cost f) (f_num_bids f)
    (a_auction_end_time r) (a_auction_start_time r) (f_auction_status f)
    (a_created_at r) now.

(** [UPDATE auctions SET title = %s, url = %s, seller_id = %s,
    description = %s, condition = %s, current_price = %s,
    buy_it_now_price = %s, shipping_cost = %s, num_bids = %s,
    auction_status = %s, updated_at = NOW() WHERE id = %s] *)
Definition update_auction (now : Z) (f : AuctionFacts) (id : Z) : M unit :=
  fun c =>
    let t := working c in
    (Ok tt,
     set_working
       (set_auctions
          (map (fun r => if Z.eqb (a_id r) id then overwrite_auction now f r else r)
             (auctions t)) t) c).

Definition new_auction (now id : Z) (iid pattern : string) (end_time : Z)
    (start_time : option Z) (f : AuctionFacts) : Auction :=
  mkAuction id iid (f_title f) (f_url f) (f_seller_id f) pattern
    (f_description f) (f_condition f) (f_current_price f)
    (f_buy_it_now_price f) (f_shipping_cost f) (f_num_bids f)
    end_time start_time (f_auction_status f) now now.

(** [INSERT INTO auctions (item_id, title, url, seller_id, search_pattern,
    description, condition, current_price, buy_it_now_price, shipping_cost,
    num_bids, auction_end_time, auction_start_time, auction_status)
    VALUES (...) RETURNING id] *)
Definition insert_auction (now : Z) (iid pattern : string) (end_time : Z)
    (start_time : option Z) (f : AuctionFacts) : M Z :=
  fun c =>
    let t := working c in
    let q := sequences c in
    let id := auctions_id_seq q in
    let q' := mkSequences (sellers_id_seq q) (id + 1) (item_specifics_id_seq q)
                (bids_id_seq q) in
    match find_auction iid (auctions t) with
    | Some _ =>
        (Raise (UniqueViolation "auctions_item_id_key"),
         mkConnection (committed c) t q')
    | None =>
        (Ok id,
         mkConnection (committed c)
           (set_auctions
              (auctions t ++ [new_auction now id iid pattern end_time start_time f]) t)
           q')
    end.

Definition set_spec_value (value : string) (r : ItemSpecific) : ItemSpecific :=
  mkItemSpecific (is_id r) (is_auction_id r) (is_spec_key r) value (is_created_at r).

(** [INSERT INTO item_specifics (auction_id, spec_key, spec_value)
    VALUES (%s, %s, %s) ON CONFLICT (auction_id, spec_key)
    DO UPDATE SET spec_value = EXCLUDED.spec_value]; the sequence advances
    whether the row is inserted or the conflicting one updated. *)
Definition upsert_item_specific (now auction_id : Z) (key value : string) : M unit :=
  fun c =>
    let t := working c in
    let q := sequences c in
    let id := item_specifics_id_seq q in
    let q' := mkSequences (sellers_id_seq q) (auctions_id_seq q) (id + 1)
                (bids_id_seq q) in
    let rows :=
      if existsb (same_specific auction_id key) (item_specifics t)
      then map (fun r => if same_specific auction_id key r
                         then set_spec_value value r else r) (item_specifics t)
      else item_specifics t ++ [mkItemSpecific id auction_id key value now] in
    (Ok tt, mkConnection (committed c) (set_item_specifics rows t) q').

(** [INSERT INTO bids (auction_id, bid_amount, bid_time, bidder_id,
    winning_bid) VALUES (%s, %s, %s, %s, %s) ON CONFLICT DO NOTHING].
    Without a conflict target the clause looks at every unique index of the
    table; [bids] has one, its primary key. *)
Definition insert_bid (now auction_id amount time : Z) (bidder : option string)
    (winning : bool) : M unit :=
  fun c =>
    let t := working c in
    let q := sequences c in
    let id := bids_id_seq q in
    let q' := mkSequences (sellers_id_seq q) (auctions_id_seq q)
                (item_specifics_id_seq q) (id + 1) in
    let rows :=
      if existsb (fun r => Z.eqb (b_id r) id) (bids t)
      then bids t
      else bids t ++ [mkBid id auction_id amount time bidder winning now] in
    (Ok tt, mkConnection (committed c) (set_bids rows t) q').

Definition complete_auction (now : Z) (final_price : option Z) (num_bids : Z)
    (r : Auction) : Auction :=
  mkAuction (a_id r) (a_item_id r) (a_title r) (a_url r) (a_seller_id r)
    (a_search_pattern r) (a_description r) (a_condition r) final_price
    (a_buy_it_now_price r) (a_shipping_cost r) num_bids
    (a_auction_end_time r) (a_auction_start_time r) "completed"
    (a_created_at r) now.

(** [UPDATE auctions SET auction_status = 'completed', current_price = %s,
    num_bids = %s, updated_at = NOW() WHERE item_id = %s RETURNING id],
    then [fetchone()]. *)
Definition update_auction_completed (now : Z) (final_price : option Z)
    (num_bids : Z) (iid : string) : M (option Z) :=
  fun c =>
    let t := working c in
    (Ok (option_map a_id (find_auction iid (auctions t))),
     set_working
       (set_auctions
          (map (fun r => if String.eqb (a_item_id r) iid
                         then complete_auction now final_price num_bids r else r)
             (auctions t)) t) c).

(** ** The methods of [DatabaseHandler] *)

(** [get_seller_id(seller_data)]: look the seller up by [ebay_user_id],
    refresh the row found or insert a new one; no commit. *)
Definition get_seller_id (now : Z) (seller_data : SellerData) : M Z :=
  uid <- subscript "ebay_user_id" (sd_ebay_user_id seller_data) ;;
  result <- select_seller_id uid ;;
  match result with
  | Some id =>
      update_seller now (sd_rating seller_data) (sd_feedback_score seller_data) id ;;
      ret id
  | None =>
      insert_seller now uid (sd_rating seller_data) (sd_feedback_score seller_data)
  end.

(** The parameters shared by the [UPDATE] and the [INSERT] of [save_item];
    the subscripts raise in the order of the parameter tuple. *)
Definition auction_facts (item : Item) (seller_id : Z) : M AuctionFacts :=
  title <- subscript "title" (i_title item) ;;
  url <- subscript "url" (i_url item) ;;
  status <- subscript "auction_status" (i_auction_status item) ;;
  ret (mkAuctionFacts title url seller_id (i_description item) (i_condition item)
         (i_current_price item) (i_buy_it_now_price item) (i_shipping_cost item)
         (get (i_num_bids item) 0) status).

(** Lines 164-234 of [save_item]: the auction is looked up by [item_id] and
    updated, or inserted. *)
Definition save_auction (now : Z) (item : Item) (seller_id : Z) : M Z :=
  iid <- subscript "item_id" (i_item_id item) ;;
  result <- select_auction_id iid ;;
  match result with
  | Some auction_id =>
      f <- auction_facts item seller_id ;;
      update_auction now f auction_id ;;
      ret auction_id
  | None =>
      title <- subscript "title" (i_title item) ;;
      url <- subscript "url" (i_url item) ;;
      pattern <- subscript "search_pattern" (i_search_pattern item) ;;
      end_time <- subscript "auction_end_time" (i_auction_end_time item) ;;
      f <- auction_facts item seller_id ;;
      insert_auction now iid pattern end_time (i_auction_start_time item) f
  end.

(** Lines 236-247: [if 'item_specifics' in item and item['item_specifics']],
    one upsert per pair of the mapping, in its order. *)
Definition save_item_specifics (now auction_id : Z)
    (mapping : option (list (string * string))) : M unit :=
  match mapping with
  | Some ((_ :: _) as pairs) =>
      for_each pairs (fun kv => upsert_item_specific now auction_id (fst kv) (snd kv))
  | _ => ret tt
  end.

(** Lines 249-268: [if 'bids' in item and item['bids']], one insert per bid. *)
Definition save_bids (now auction_id : Z) (history : option (list BidData)) : M unit :=
  match history with
  | Some ((_ :: _) as l) =>
      for_each l (fun bid =>
        amount <- subscript "amount" (bd_amount bid) ;;
        time <- subscript "time" (bd_time bid) ;;
        insert_bid now auction_id amount time (bd_bidder_id bid)
          (get (bd_winning_bid bid) false))
  | _ => ret tt
  end.

(** [save_item(item, conn)]: [conn_given] says whether the caller passed
    its connection, in which case [save_item] neither commits nor rolls
    back. *)
Definition save_item (now : Z) (item : Item) (conn_given : bool) : M Z :=
  let should_commit := negb conn_given in
  try_except
    (seller <- subscript "seller" (i_seller item) ;;
     seller_id <- get_seller_id now seller ;;
     auction_id <- save_auction now item seller_id ;;
     save_item_specifics now auction_id (i_item_specifics item) ;;
     save_bids now auction_id (i_bids item) ;;
     (if should_commit then commit else ret tt) ;;
     ret auction_id)
    (fun e =>
       (if should_commit then rollback else ret tt) ;;
       raise e).

(** [save_items(items)] *)
Definition save_items (now : Z) (items : list Item) : M unit :=
  match items with
  | [] => ret tt
  | _ =>
      try_except
        (for_each items (fun item => save_item now item true ;; ret tt) ;;
         commit)
        (fun e => rollback ;; raise e)
  end.

(** A Python dictionary is false when it is empty; of a bid the model keeps
    four keys. *)
Definition bid_truthy (bid : BidData) : bool :=
  match bd_amount bid, bd_time bid, bd_bidder_id bid, bd_winning_bid bid with
  | None, None, None, None => false
  | _, _, _, _ => true
  end.

Definition empty_bid : BidData := mkBidData None None None None.

(** The body of the loop of [update_completed_items]. *)
Definition update_completed_item (now : Z) (item : Item) : M unit :=
  iid <- subscript "item_id" (i_item_id item) ;;
  result <- update_auction_completed now (i_final_price item)
              (get (i_num_bids item) 0) iid ;;
  match result, i_bids item with
  | Some auction_id, Some ((_ :: _) as history) =>
      let winning_bid := last history empty_bid in
      if bid_truthy winning_bid then
        amount <- subscript "amount" (bd_amount winning_bid) ;;
        time <- subscript "time" (bd_time winning_bid) ;;
        insert_bid now auction_id amount time (bd_bidder_id winning_bid) true
      else ret tt
  | _, _ => ret tt
  end.

(** [update_completed_items(items)] *)
Definition update_completed_items (now : Z) (items : list Item) : M unit :=
  match items with
  | [] => ret tt
  | _ =>
      try_except
        (for_each items (update_completed_item now) ;;
         commit)
        (fun e => rollback ;; raise e)
  end.

(** ** [run_daemon]: the sleep between two cycles ([main.py], 95 and 127-129) *)

(** [polling_interval = config['daemon']['polling_interval'] * 60] *)
Definition polling_interval (minutes : Z) : Q := inject_Z (minutes * 60).

(** Python's [max(0, x)]: [x] when [x > 0], else the first argument. *)
Definition max0 (x : Q) : Q := if Qlt_le_dec 0 x then x else 0%Q.

(** [elapsed = time.time() - start_time;
     sleep_time = max(0, polling_interval - elapsed)] *)
Definition sleep_time (interval start_time end_time : Q) : Q :=
  let elapsed := (end_time - start_time)%Q in
  max0 (interval - elapsed)%Q.

Arguments find_seller : simpl never.
Arguments find_auction : simpl never.
Arguments find_specific : simpl never.

(** ** Vocabulary of the properties *)

(** The connection a call leaves behind, and what it hands to its caller. *)
Definition run {A} (m : M A) (c : Connection) : Connection := snd (m c).
Definition result {A} (m : M A) (c : Connection) : outcome A := fst (m c).

(** The loop of [save_items]. *)
Definition save_each (now : Z) (items : list Item) : M unit :=
  for_each items (fun item => save_item now item true ;; ret tt).

(** The calls a client of [DatabaseHandler] can make; [SaveItem] is
    [save_item(item)] without a connection, which commits by itself. *)
Inductive call :=
| GetSellerId (now : Z) (seller_data : SellerData)
| SaveItem (now : Z) (item : Item)
| SaveItems (now : Z) (items : list Item)
| UpdateCompletedItems (now : Z) (items : list Item).

(** A caller that goes on after an exception, as the loop of [run_daemon]
    does. *)
Definition run_call (k : call) : Connection -> Connection :=
  match k with
  | GetSellerId now seller_data => run (get_seller_id now seller_data)
  | SaveItem now item => run (save_item now item false)
  | SaveItems now items => run (save_items now items)
  | UpdateCompletedItems now items => run (update_completed_items now items)
  end.

Definition run_calls (ks : list call) (c : Connection) : Connection :=
  fold_left (fun c k => run_call k c) ks c.

(** A property of the connection that a method keeps, whether it returns
    or raises. *)
Definition preserves {A} (P : Connection -> Prop) (m : M A) : Prop :=
  forall c, P c -> P (snd (m c)).

(** Business keys: one seller per [ebay_user_id], one auction per
    [item_id]. *)
Definition unique_keys (t : Tables) : Prop :=
  NoDup (map s_ebay_user_id (sellers t)) /\ NoDup (map a_item_id (auctions t)).

(** Primary keys of [sellers] and [auctions], and their sequences ahead of
    them. *)
Definition primary_keys (t : Tables) : Prop :=
  NoDup (map s_id (sellers t)) /\ NoDup (map a_id (auctions t)).

Definition ids_below (q : Sequences) (t : Tables) : Prop :=
  Forall (fun id => id < sellers_id_seq q) (map s_id (sellers t)) /\
  Forall (fun id => id < auctions_id_seq q) (map a_id (auctions t)).

Definition consistent (q : Sequences) (t : Tables) : Prop :=
  unique_keys t /\ primary_keys t /\ ids_below q t.

(** What the constraints of the schema and the sequences guarantee of any
    database the program finds. *)
Definition wf (c : Connection) : Prop :=
  consistent (sequences c) (committed c) /\ consistent (sequences c) (working c).

(** No transaction is open with writes of its own. *)
Definition clean (c : Connection) : Prop := working c = committed c.

Definition status_of (iid : string) (t : Tables) : option string :=
  option_map a_auction_status (find_auction iid (auctions t)).

(** The facts [save_item] writes for an item whose subscripted keys are
    there. *)
Definition facts_of (item : Item) (seller_id : Z) : AuctionFacts :=
  mkAuctionFacts (get (i_title item) "") (get (i_url item) "") seller_id
    (i_description item) (i_condition item) (i_current_price item)
    (i_buy_it_now_price item) (i_shipping_cost item) (get (i_num_bids item) 0)
    (get (i_auction_status item) "").

Definition has_update_keys (item : Item) : bool :=
  match i_title item, i_url item, i_auction_status item with
  | Some _, Some _, Some _ => true
  | _, _, _ => false
  end.

Definition has_insert_keys (item : Item) : bool :=
  match i_search_pattern item, i_auction_end_time item with
  | Some _, Some _ => has_update_keys item
  | _, _ => false
  end.

(** The auction stored under [iid] is completed, for the committed tables
    and for the open transaction, in a consistent store. *)
Definition completed_in (iid : string) (c : Connection) : Prop :=
  wf c /\
  status_of iid (committed c) = Some "completed" /\
  status_of iid (working c) = Some "completed".

(** An observed item that would take the auction stored under [iid] out
    of [completed]: it has that item id and another status. *)
Definition reopens (iid : string) (item : Item) : bool :=
  match i_item_id item, i_auction_status item with
  | Some iid', Some status =>
      String.eqb iid' iid && negb (String.eqb status "completed")
  | _, _ => false
  end.

Definition call_reopens (iid : string) (k : call) : bool :=
  match k with
  | SaveItem _ item => reopens iid item
  | SaveItems _ items => existsb (reopens iid) items
  | _ => false
  end.

(** ** Upserts on a table

    What a lookup-then-update-or-insert does to the rows of a table, told
    without the sequences: [matches x r] says that row [r] has the key of
    the write [x], [upd] is its [UPDATE], [ins] the row of its [INSERT]
    under a primary key. *)
Section UpsertVocabulary.
Variables (R X : Type).
Variable matches : X -> R -> bool.
Variable upd : Z -> X -> R -> R.
Variable ins : Z -> X -> Z -> R.

Definition cupd (now : Z) (x : X) (r : R) : R :=
  if matches x r then upd now x r else r.

Definition ustep (now : Z) (x : X) (rows rows' : list R) : Prop :=
  (existsb (matches x) rows = true /\ rows' = map (cupd now x) rows) \/
  (existsb (matches x) rows = false /\ exists id, rows' = rows ++ [ins now x id]).

Fixpoint upath (now : Z) (xs : list X) (rows rows' : list R) : Prop :=
  match xs with
  | [] => rows' = rows
  | x :: rest => exists rows1, ustep now x rows rows1 /\ upath now rest rows1 rows'
  end.

(** The updates of a second pass, row by row. *)
Definition replay (now : Z) (xs : list X) (r : R) : R :=
  fold_left (fun r x => cupd now x r) xs r.
End UpsertVocabulary.
Arguments cupd {R X} matches upd now x r.
Arguments ustep {R X} matches upd ins now x rows rows'.
Arguments upath {R X} matches upd ins now xs rows rows'.
Arguments replay {R X} matches upd now xs r.

(** Rows found in [rows] are found in [rows'] with the same columns [imm]. *)
Definition extends {R I} (imm : R -> I) (rows rows' : list R) : Prop :=
  forall p : R -> bool,
    (forall r r', imm r = imm r' -> p r = p r') ->
    forall r, find p rows = Some r ->
    exists r', find p rows' = Some r' /\ imm r' = imm r.

(** *** The three upserts of [save_item] *)

Record SellerWrite := mkSellerWrite {
  sw_ebay_user_id : string;
  sw_rating : option Q;
  sw_feedback_score : option Z
}.

Definition seller_matches (x : SellerWrite) (r : Seller) : bool :=
  String.eqb (s_ebay_user_id r) (sw_ebay_user_id x).

Definition seller_upd (now : Z) (x : SellerWrite) (r : Seller) : Seller :=
  refresh_seller now (sw_rating x) (sw_feedback_score x) r.

Definition seller_ins (now : Z) (x : SellerWrite) (id : Z) : Seller :=
  mkSeller id (sw_ebay_user_id x) (sw_rating x) (sw_feedback_score x) now now.

(** The columns of a seller no statement changes. *)
Definition seller_imm (r : Seller) : Z * string * Z :=
  (s_id r, s_ebay_user_id r, s_created_at r).

(** A seller without its [updated_at]. *)
Definition seller_but_updated_at (r : Seller) : Seller :=
  mkSeller (s_id r) (s_ebay_user_id r) (s_rating r) (s_feedback_score r)
    (s_created_at r) 0.

Record AuctionWrite := mkAuctionWrite {
  aw_item_id : string;
  aw_search_pattern : string;
  aw_auction_end_time : Z;
  aw_auction_start_time : option Z;
  aw_facts : AuctionFacts
}.

Definition auction_matches (x : AuctionWrite) (r : Auction) : bool :=
  String.eqb (a_item_id r) (aw_item_id x).

Definition auction_upd (now : Z) (x : AuctionWrite) (r : Auction) : Auction :=
  overwrite_auction now (aw_facts x) r.

Definition auction_ins (now : Z) (x : AuctionWrite) (id : Z) : Auction :=
  new_auction now id (aw_item_id x) (aw_search_pattern x) (aw_auction_end_time x)
    (aw_auction_start_time x) (aw_facts x).

(** The columns of an auction the [UPDATE] of [save_item] leaves alone. *)
Definition auction_imm (r : Auction) : Z * string * string * Z * option Z * Z :=
  (a_id r, a_item_id r, a_search_pattern r, a_auction_end_time r,
   a_auction_start_time r, a_created_at r).

(** An auction without its [updated_at]. *)
Definition auction_but_updated_at (r : Auction) : Auction :=
  mkAuction (a_id r) (a_item_id r) (a_title r) (a_url r) (a_seller_id r)
    (a_search_pattern r) (a_description r) (a_condition r) (a_current_price r)
    (a_buy_it_now_price r) (a_shipping_cost r) (a_num_bids r)
    (a_auction_end_time r) (a_auction_start_time r) (a_auction_status r)
    (a_created_at r) 0.

Record SpecificWrite := mkSpecificWrite {
  pw_auction_id : Z;
  pw_spec_key : string;
  pw_spec_value : string
}.

Definition specific_matches (x : SpecificWrite) (r : ItemSpecific) : bool :=
  same_specific (pw_auction_id x) (pw_spec_key x) r.

Definition specific_upd (now : Z) (x : SpecificWrite) (r : ItemSpecific) : ItemSpecific :=
  set_spec_value (pw_spec_value x) r.

Definition specific_ins (now : Z) (x : SpecificWrite) (id : Z) : ItemSpecific :=
  mkItemSpecific id (pw_auction_id x) (pw_spec_key x) (pw_spec_value x) now.

Definition specific_imm (r : ItemSpecific) : Z * Z * string * Z :=
  (is_id r, is_auction_id r, is_spec_key r, is_created_at r).

(** The primary key a table holds for a business key, [0] when it holds
    none. *)
Definition seller_id_in (rows : list Seller) (uid : string) : Z :=
  match find_seller uid rows with Some r => s_id r | None => 0 end.

Definition auction_id_in (rows : list Auction) (iid : string) : Z :=
  match find_auction iid rows with Some r => a_id r | None => 0 end.

(** The writes of an item, with the keys the final tables hold. *)
Definition seller_write (item : Item) : SellerWrite :=
  match i_seller item with
  | Some sd =>
      mkSellerWrite (get (sd_ebay_user_id sd) "") (sd_rating sd) (sd_feedback_score sd)
  | None => mkSellerWrite "" None None
  end.

Definition auction_write (final_sellers : list Seller) (item : Item) : AuctionWrite :=
  mkAuctionWrite (get (i_item_id item) "") (get (i_search_pattern item) "")
    (get (i_auction_end_time item) 0) (i_auction_start_time item)
    (facts_of item (seller_id_in final_sellers (sw_ebay_user_id (seller_write item)))).

Definition specific_writes (final_auctions : list Auction) (item : Item)
  : list SpecificWrite :=
  map (fun kv => mkSpecificWrite
                   (auction_id_in final_auctions (get (i_item_id item) ""))
                   (fst kv) (snd kv))
    (get (i_item_specifics item) []).

(** The item ids the open transaction knows. *)
Definition known_items (c : Connection) : list string :=
  map a_item_id (auctions (working c)).

(** ** Sample data *)

Definition seller_s1 : SellerData := mkSellerData (Some "s1") (Some (49 # 10)%Q) (Some 120).

(** An observed listing with its required keys, priced in hundredths. *)
Definition listing (iid : string) (price : Z) : Item :=
  mkItem (Some seller_s1) (Some iid) (Some "RTX 3090 Founders Edition")
    (Some "https://www.ebay.com/itm/rtx3090") (Some "rtx 3090") None None
    (Some price) None None None (Some 1700000000) None (Some "active")
    None None None.

(** The same listing without its [item_id]. *)
Definition listing_without_id (price : Z) : Item :=
  mkItem (Some seller_s1) None (Some "RTX 3090 Founders Edition")
    (Some "https://www.ebay.com/itm/rtx3090") (Some "rtx 3090") None None
    (Some price) None None None (Some 1700000000) None (Some "active")
    None None None.

(** A listing observed with one bid of 120.00 by bidder [b1]. *)
Definition bid_120 : BidData := mkBidData (Some 12000) (Some 1699990000) (Some "b1") None.

Definition listing_with_bid (iid : string) (price : Z) : Item :=
  mkItem (Some seller_s1) (Some iid) (Some "RTX 3090 Founders Edition")
    (Some "https://www.ebay.com/itm/rtx3090") (Some "rtx 3090") None None
    (Some price) None None (Some 1) (Some 1700000000) None (Some "active")
    None (Some [bid_120]) None.

(** The same listing observed with a bid of 130.00 instead. *)
Definition bid_130 : BidData := mkBidData (Some 13000) (Some 1699990000) (Some "b1") None.

Definition listing_with_other_bid (iid : string) (price : Z) : Item :=
  mkItem (Some seller_s1) (Some iid) (Some "RTX 3090 Founders Edition")
    (Some "https://www.ebay.com/itm/rtx3090") (Some "rtx 3090") None None
    (Some price) None None (Some 1) (Some 1700000000) None (Some "active")
    None (Some [bid_130]) None.

(** A listing that the source reports with a status of its own. *)
Definition listing_with_status (iid : string) (price : Z) (status : string) : Item :=
  mkItem (Some seller_s1) (Some iid) (Some "RTX 3090 Founders Edition")
    (Some "https://www.ebay.com/itm/rtx3090") (Some "rtx 3090") None None
    (Some price) None None None (Some 1700000000) None (Some status)
    None None None.

(** An observed completion: item id, final price and final bid count. *)
Definition completion (iid : string) (final_price num_bids : Z) : Item :=
  mkItem None (Some iid) None None None None None None None None
    (Some num_bids) None None None None None (Some final_price).

(** The stored value of an item specific. *)
Definition spec_value_of (auction_id : Z) (key : string) (t : Tables) : option string :=
  option_map is_spec_value (find_specific auction_id key (item_specifics t)).

(** The columns that tell one observed bid from another. *)
Definition bid_tuple (b : Bid) : Z * Z * Z * option string :=
  (b_auction_id b, b_bid_amount b, b_bid_time b, b_bidder_id b).

(** Three listings, the second without its item id. *)
Definition batch_of_three : list Item :=
  [listing "1" 10000; listing_without_id 20000; listing "3" 30000].

(** A store that tracks item 123 and has already finalized it at 150.00. *)
Definition finalized_store : Connection :=
  run (update_completed_items 60 [completion "123" 15000 5])
    (run (save_items 50 [listing "123" 10000]) fresh).

(** A batch of two listings, the first with a bid and with specifics. *)
Definition listing_with_specifics (iid : string) (price : Z) : Item :=
  mkItem (Some seller_s1) (Some iid) (Some "RTX 3090 Founders Edition")
    (Some "https://www.ebay.com/itm/rtx3090") (Some "rtx 3090") None None
    (Some price) None None (Some 1) (Some 1700000000) None (Some "active")
    (Some [("Brand", "NVIDIA"); ("Memory", "24 GB")]) (Some [bid_120]) None.

Definition batch_of_two : list Item :=
  [listing_with_specifics "123" 10000; listing "456" 20000].

(** A completion observed with its bid history, the winning bid last. *)
Definition completion_with_bids (iid : string) (final_price num_bids : Z)
    (history : list BidData) : Item :=
  mkItem None (Some iid) None None None None None None None None
    (Some num_bids) None None None None (Some history) (Some final_price).


(** * The rest of the tracker *)

(** ** [get_active_auctions] ([db.py], 281-293) *)

(** One row of the result: the columns of the auction ([a.*]) and
    [seller_username]. *)
Record ActiveAuction := mkActiveAuction {
  aa_auction : Auction;
  aa_seller_username : string
}.

(** [SELECT a.*, s.ebay_user_id as seller_username FROM auctions a
    JOIN sellers s ON a.seller_id = s.id WHERE a.auction_status = 'active'],
    then [fetchall()]; the rows come auction by auction, SQL promises no
    order. *)
Definition select_active_auctions (t : Tables) : list ActiveAuction :=
  flat_map
    (fun a =>
       if String.eqb (a_auction_status a) "active"
       then map (fun s => mkActiveAuction a (s_ebay_user_id s))
              (filter (fun s => Z.eqb (s_id s) (a_seller_id a)) (sellers t))
       else [])
    (auctions t).

Definition get_active_auctions : M (list ActiveAuction) :=
  fun c => (Ok (select_active_auctions (working c)), c).

(** ** More vocabulary for the store *)

(** Every auction points to a seller of the table
    ([seller_id INTEGER REFERENCES sellers(id)]). *)
Definition references_ok (t : Tables) : Prop :=
  Forall (fun a => In (a_seller_id a) (map s_id (sellers t))) (auctions t).

(** [UNIQUE (auction_id, spec_key)] *)
Definition specific_key (r : ItemSpecific) : Z * string :=
  (is_auction_id r, is_spec_key r).

Definition unique_specifics (t : Tables) : Prop :=
  NoDup (map specific_key (item_specifics t)).

(** [l'] is [l] with rows added at its end. *)
Definition grown {A} (l l' : list A) : Prop := exists added, l' = l ++ added.

(** No row of [t] is missing from [t'], and none has changed in the
    columns that identify it; a bid has not changed at all. *)
Definition kept (t t' : Tables) : Prop :=
  grown (map seller_imm (sellers t)) (map seller_imm (sellers t')) /\
  grown (map auction_imm (auctions t)) (map auction_imm (auctions t')) /\
  grown (map specific_imm (item_specifics t)) (map specific_imm (item_specifics t')) /\
  grown (bids t) (bids t').

(** The row [save_item] stores for an observed bid. *)
Definition bid_row (now auction_id id : Z) (bid : BidData) : Bid :=
  mkBid id auction_id (get (bd_amount bid) 0) (get (bd_time bid) 0)
    (bd_bidder_id bid) (get (bd_winning_bid bid) false) now.

(** The rows of a bid history under consecutive primary keys. *)
Fixpoint bid_rows (now auction_id id : Z) (history : list BidData) : list Bid :=
  match history with
  | [] => []
  | bid :: rest => bid_row now auction_id id bid :: bid_rows now auction_id (id + 1) rest
  end.

Definition bid_complete (bid : BidData) : bool :=
  match bd_amount bid, bd_time bid with
  | Some _, Some _ => true
  | _, _ => false
  end.

(** Every auction stored under [iid] is completed. *)
Definition all_completed (iid : string) (t : Tables) : Prop :=
  Forall (fun a => a_item_id a = iid -> a_auction_status a = "completed") (auctions t).

(** ** One cycle of the tracker ([main.py], [run_once] and [run_daemon])

    The listing source is outside the program: what a call to it returns,
    or that it raised, is an input of the model. *)
Inductive fetched :=
| Fetched (items : list Item)
| FetchRaised.

(** What [ebay.search_active_items] and [ebay.get_completed_items] answer
    in one cycle, and the times of the two transactions. *)
Record Observation := mkObservation {
  ob_active : fetched;
  ob_now_active : Z;
  ob_completed : fetched;
  ob_now_completed : Z
}.

(** An exception that leaves the cycle: of the listing source, or of the
    store. *)
Inductive failure :=
| SourceFailure
| StoreFailure (e : exn).

(** Lines 73-84 of [run_once], the same as lines 112-123 of [run_daemon]:
    fetch the active items, save them, fetch the completed items, update
    them.  [None] is a cycle that reached its end. *)
Definition cycle (o : Observation) (c : Connection) : option failure * Connection :=
  match ob_active o with
  | FetchRaised => (Some SourceFailure, c)
  | Fetched active_items =>
      match save_items (ob_now_active o) active_items c with
      | (Raise e, c1) => (Some (StoreFailure e), c1)
      | (Ok _, c1) =>
          match ob_completed o with
          | FetchRaised => (Some SourceFailure, c1)
          | Fetched completed_items =>
              match update_completed_items (ob_now_completed o) completed_items c1 with
              | (Raise e, c2) => (Some (StoreFailure e), c2)
              | (Ok _, c2) => (None, c2)
              end
          end
      end
  end.

(** [run_once(config)] on the connection its [DatabaseHandler] opens. *)
Definition run_once (o : Observation) (c : Connection) : option failure * Connection :=
  cycle o c.

(** One turn of the loop of [run_daemon] as the world shapes it: what the
    source answers, the two readings of [time.time()], and whether the
    shutdown signal arrives before the test [if running] or, later, before
    the next test [while running]. *)
Record Turn := mkTurn {
  tn_observation : Observation;
  tn_start_time : Q;
  tn_end_time : Q;
  tn_signal_in_cycle : bool;
  tn_signal_in_sleep : bool
}.

(** What the daemon has done when the turns it was given are used up: the
    connection, the arguments of its calls to [time.sleep] in order, and
    whether it is still running. *)
Record Daemon := mkDaemon {
  dm_connection : Connection;
  dm_sleeps : list Q;
  dm_running : bool
}.

(** The body of the loop: the argument of [time.sleep], if it sleeps. *)
Definition turn_sleep (minutes : Z) (tn : Turn) (r : option failure) : list Q :=
  match r with
  | None =>
      if tn_signal_in_cycle tn then []
      else [sleep_time (polling_interval minutes) (tn_start_time tn) (tn_end_time tn)]
  | Some _ => [60%Q]
  end.

(** [run_daemon(config)], with [minutes] for
    [config['daemon']['polling_interval']]. *)
Fixpoint run_daemon (minutes : Z) (turns : list Turn) (c : Connection) : Daemon :=
  match turns with
  | [] => mkDaemon c [] true
  | tn :: rest =>
      let (r, c1) := cycle (tn_observation tn) c in
      let slept := turn_sleep minutes tn r in
      if tn_signal_in_cycle tn || tn_signal_in_sleep tn
      then mkDaemon c1 slept false
      else
        let d := run_daemon minutes rest c1 in
        mkDaemon (dm_connection d) (slept ++ dm_sleeps d) (dm_running d)
  end.

Definition turn_signalled (tn : Turn) : bool :=
  tn_signal_in_cycle tn || tn_signal_in_sleep tn.


(** ** Configuration ([config.py])

    A configuration is a Python dictionary whose values are dictionaries or
    anything else; [merge_configs] only asks which ([isinstance(_, dict)]).
    A dictionary is the list of its items in insertion order. *)
Inductive atom :=
| ANone
| ABool (b : bool)
| AInt (i : Z)
| AStr (s : string)
| AStrs (l : list string).

#[local] Set Warnings "-register-all".
Inductive value :=
| Leaf (a : atom)
| Dict (d : list (string * value)).

Definition dict : Type := list (string * value).

(** [d.get(key)], [None] when [key not in d]. *)
Fixpoint dict_get (key : string) (d : dict) : option value :=
  match d with
  | [] => None
  | (k, v) :: rest => if String.eqb k key then Some v else dict_get key rest
  end.

(** [d[key] = v]: the item keeps its place, a new key goes to the end. *)
Fixpoint dict_set (key : string) (v : value) (d : dict) : dict :=
  match d with
  | [] => [(key, v)]
  | (k, v0) :: rest =>
      if String.eqb k key then (k, v) :: rest else (k, v0) :: dict_set key v rest
  end.

(** [merge_configs(base, override)].  [result] starts as [base.copy()] and
    the loop goes through [override.items()]; the recursion is on the
    override, taken as a value so that its items are parts of it. *)
Fixpoint merge_into (base : dict) (override : value) {struct override} : dict :=
  match override with
  | Leaf _ => base
  | Dict items =>
      (fix loop (result : dict) (items : list (string * value)) {struct items} : dict :=
         match items with
         | [] => result
         | (key, value) :: rest =>
             let merged :=
               match dict_get key result, value with
               | Some (Dict b), Dict _ => Dict (merge_into b value)
               | _, _ => value
               end in
             loop (dict_set key merged result) rest
         end) base items
  end.

Definition merge_configs (base override : dict) : dict :=
  merge_into base (Dict override).

(** [DEFAULT_CONFIG] *)
Definition DEFAULT_CONFIG : dict :=
  [("database",
    Dict [("host", Leaf (AStr "localhost"));
          ("port", Leaf (AInt 5432));
          ("name", Leaf (AStr "ebay_tracker"));
          ("user", Leaf (AStr "postgres"));
          ("password", Leaf (AStr ""))]);
   ("ebay",
    Dict [("api_key", Leaf ANone);
          ("use_scraping", Leaf (ABool true));
          ("user_agent",
           Leaf (AStr "Mozilla/5.0 (Windows NT 10.0; Win64; x64) AppleWebKit/537.36 (KHTML, like Gecko) Chrome/91.0.4472.124 Safari/537.36"));
          ("request_delay", Leaf (AInt 2))]);
   ("search",
    Dict [("pattern", Leaf (AStr "rtx 3090"));
          ("auction_period", Leaf (AInt 24));
          ("completed_period", Leaf (AInt 48));
          ("excluded_terms",
           Leaf (AStrs ["broken"; "not working"; "for parts"; "repair"; "faulty"]))]);
   ("daemon", Dict [("polling_interval", Leaf (AInt 30))]);
   ("logging", Dict [("level", Leaf (AStr "INFO"))])].

(** The [argparse.Namespace] of [parse_arguments]: an option without a
    default is [None] when it is not given. *)
Record Namespace := mkNamespace {
  ns_daemon : bool;
  ns_config : option string;
  ns_initialize_db : bool;
  ns_search_pattern : option string;
  ns_auction_period : Z;
  ns_completed_period : Z;
  ns_polling_interval : Z;
  ns_log_level : string;
  ns_db_host : option string;
  ns_db_port : option Z;
  ns_db_name : option string;
  ns_db_user : option string;
  ns_db_password : option string
}.

(** What [parse_arguments] returns for an empty command line
    ([main.py], 21-52). *)
Definition no_arguments : Namespace :=
  mkNamespace false None false None 24 48 30 "INFO" None None None None None.

(** Python's truth of a string, of an integer, and of either when it may be
    [None]. *)
Definition str_true (s : string) : bool := negb (String.eqb s "").
Definition int_true (i : Z) : bool := negb (Z.eqb i 0).
Definition opt_str_true (o : option string) : bool :=
  match o with Some s => str_true s | None => false end.
Definition opt_int_true (o : option Z) : bool :=
  match o with Some i => int_true i | None => false end.

Definition str_leaf (o : option string) : value := Leaf (AStr (get o "")).
Definition int_leaf (o : option Z) : value := Leaf (AInt (get o 0)).

(** [if cond: d[key] = v] *)
Definition set_if (cond : bool) (key : string) (v : value) (d : dict) : dict :=
  if cond then dict_set key v d else d.

(** [args_to_config(args)] *)
Definition args_to_config (args : Namespace) : dict :=
  let config : dict := [] in
  let config :=
    if opt_str_true (ns_db_host args) || opt_int_true (ns_db_port args) ||
       opt_str_true (ns_db_name args) || opt_str_true (ns_db_user args) ||
       opt_str_true (ns_db_password args)
    then
      let database : dict := [] in
      let database :=
        set_if (opt_str_true (ns_db_host args)) "host" (str_leaf (ns_db_host args))
          database in
      let database :=
        set_if (opt_int_true (ns_db_port args)) "port" (int_leaf (ns_db_port args))
          database in
      let database :=
        set_if (opt_str_true (ns_db_name args)) "name" (str_leaf (ns_db_name args))
          database in
      let database :=
        set_if (opt_str_true (ns_db_user args)) "user" (str_leaf (ns_db_user args))
          database in
      let database :=
        set_if (opt_str_true (ns_db_password args)) "password"
          (str_leaf (ns_db_password args)) database in
      dict_set "database" (Dict database) config
    else config in
  let config :=
    if opt_str_true (ns_search_pattern args) || int_true (ns_auction_period args) ||
       int_true (ns_completed_period args)
    then
      let search : dict := [] in
      let search :=
        set_if (opt_str_true (ns_search_pattern args)) "pattern"
          (str_leaf (ns_search_pattern args)) search in
      let search :=
        set_if (int_true (ns_auction_period args)) "auction_period"
          (Leaf (AInt (ns_auction_period args))) search in
      let search :=
        set_if (int_true (ns_completed_period args)) "completed_period"
          (Leaf (AInt (ns_completed_period args))) search in
      dict_set "search" (Dict search) config
    else config in
  let config :=
    set_if (int_true (ns_polling_interval args)) "daemon"
      (Dict [("polling_interval", Leaf (AInt (ns_polling_interval args)))]) config in
  let config :=
    set_if (str_true (ns_log_level args)) "logging"
      (Dict [("level", Leaf (AStr (ns_log_level args)))]) config in
  config.

(** [load_config(args)].  [load_config_file] reads the disk and is a
    parameter: it answers [{}] for a file that is missing or cannot be read,
    and whatever the YAML holds otherwise, which need not be a dictionary
    ([None] for an empty file).  Merging something that is no dictionary
    raises [AttributeError] at [override.items()]: the result is [None]
    then. *)
Definition load_config (load_config_file : string -> value) (args : Namespace)
  : option dict :=
  let config := DEFAULT_CONFIG in
  let merged :=
    if opt_str_true (ns_config args) then
      match load_config_file (get (ns_config args) "") with
      | Dict file_config => Some (merge_configs config file_config)
      | Leaf _ => None
      end
    else Some config in
  match merged with
  | Some config => Some (merge_configs config (args_to_config args))
  | None => None
  end.

(** [config[section][key]]; [None] where Python raises. *)
Definition config_get (section key : string) (config : dict) : option value :=
  match dict_get section config with
  | Some (Dict d) => dict_get key d
  | _ => None
  end.

(** A dictionary has each key once, and so have the dictionaries in it. *)
Inductive proper : value -> Prop :=
| proper_leaf a : proper (Leaf a)
| proper_dict d :
    NoDup (map fst d) -> Forall (fun kv => proper (snd kv)) d -> proper (Dict d).

(** What [merge_configs] stores under a key that the override has: the
    merge of the two dictionaries when both values are dictionaries, the
    override's value otherwise. *)
Definition merge_value (old : option value) (new : value) : value :=
  match old, new with
  | Some (Dict b), Dict o => Dict (merge_configs b o)
  | _, _ => new
  end.

(** Every value of the dictionary is something else than a dictionary. *)
Definition flat (d : dict) : Prop :=
  NoDup (map fst d) /\
  forall key v, dict_get key d = Some v -> exists a, v = Leaf a.

(** A configuration as the program writes them: sections of plain
    values. *)
Definition sectioned (config : dict) : Prop :=
  NoDup (map fst config) /\
  forall section v, dict_get section config = Some v -> exists d, v = Dict d /\ flat d.

(** Induction on a value with the values inside it. *)
Fixpoint value_nested_ind (P : value -> Prop)
    (Hleaf : forall a, P (Leaf a))
    (Hdict : forall d, Forall (fun kv => P (snd kv)) d -> P (Dict d))
    (v : value) {struct v} : P v :=
  match v with
  | Leaf a => Hleaf a
  | Dict d =>
      Hdict d
        ((fix items (d : list (string * value)) : Forall (fun kv => P (snd kv)) d :=
            match d with
            | [] => Forall_nil _
            | kv :: rest =>
                Forall_cons kv (value_nested_ind P Hleaf Hdict (snd kv)) (items rest)
            end) d)
  end.

(** * Proofs *)

(** ** The monad *)

Lemma bind_ok {A B} (m : M A) (k : A -> M B) c a c' :
  m c = (Ok a, c') -> bind m k c = k a c'.
Proof. intros H. unfold bind. now rewrite H. Qed.

Lemma bind_raise {A B} (m : M A) (k : A -> M B) c e c' :
  m c = (Raise e, c') -> bind m k c = (Raise e, c').
Proof. intros H. unfold bind. now rewrite H. Qed.

Lemma bind_ret {A B} (a : A) (k : A -> M B) c : bind (ret a) k c = k a c.
Proof. reflexivity. Qed.

Lemma bind_inv_ok {A B} (m : M A) (k : A -> M B) c b c2 :
  bind m k c = (Ok b, c2) ->
  exists a c1, m c = (Ok a, c1) /\ k a c1 = (Ok b, c2).
Proof.
  unfold bind. destruct (m c) as [[a|e] c1]; intros H.
  - now exists a, c1.
  - discriminate.
Qed.

Lemma bind_inv_raise {A B} (m : M A) (k : A -> M B) c e c2 :
  bind m k c = (Raise e, c2) ->
  m c = (Raise e, c2) \/ exists a c1, m c = (Ok a, c1) /\ k a c1 = (Raise e, c2).
Proof.
  unfold bind. destruct (m c) as [[a|e'] c1]; intros H.
  - right. now exists a, c1.
  - left. now inversion H.
Qed.

Lemma for_each_app {X} (xs ys : list X) (body : X -> M unit) c :
  for_each (xs ++ ys) body c =
  match for_each xs body c with
  | (Ok _, c') => for_each ys body c'
  | (Raise e, c') => (Raise e, c')
  end.
Proof.
  revert c. induction xs as [|x xs IH]; intros c; simpl.
  - reflexivity.
  - unfold bind. destruct (body x c) as [[[]|e] c1]; [apply IH | reflexivity].
Qed.

Section Preserves.
Variable P : Connection -> Prop.

Lemma preserves_ret {A} (a : A) : preserves P (ret a).
Proof. intros c H. exact H. Qed.

Lemma preserves_raise {A} (e : exn) : preserves P (@raise A e).
Proof. intros c H. exact H. Qed.

Lemma preserves_bind {A B} (m : M A) (k : A -> M B) :
  preserves P m -> (forall a, preserves P (k a)) -> preserves P (bind m k).
Proof.
  intros Hm Hk c H. unfold bind. specialize (Hm c H).
  destruct (m c) as [[a|e] c1]; simpl in *.
  - now apply Hk.
  - exact Hm.
Qed.

Lemma preserves_try {A} (m : M A) (h : exn -> M A) :
  preserves P m -> (forall e, preserves P (h e)) -> preserves P (try_except m h).
Proof.
  intros Hm Hh c H. unfold try_except. specialize (Hm c H).
  destruct (m c) as [[a|e] c1]; simpl in *.
  - exact Hm.
  - now apply Hh.
Qed.

Lemma preserves_for_each {X} (xs : list X) (body : X -> M unit) :
  (forall x, preserves P (body x)) -> preserves P (for_each xs body).
Proof.
  intros Hb. induction xs as [|x xs IH]; simpl.
  - apply preserves_ret.
  - apply preserves_bind; [apply Hb | intros _; exact IH].
Qed.

Lemma preserves_subscript {A} key (v : option A) : preserves P (subscript key v).
Proof. destruct v; [apply preserves_ret | apply preserves_raise]. Qed.
End Preserves.

(** Splits a method into its statements. *)
Ltac preserve :=
  repeat first
    [ apply preserves_ret
    | apply preserves_raise
    | apply preserves_subscript
    | apply preserves_for_each; intros ?
    | apply preserves_bind; [ | intros ? ]
    | apply preserves_try; [ | intros ? ]
    | progress unfold get_seller_id, save_auction, auction_facts,
        save_item_specifics, save_bids
    | match goal with
      | |- preserves _ (match ?x with _ => _ end) => destruct x
      | |- preserves _ (if ?b then _ else _) => destruct b
      end ].

(** The statements act on the open transaction: none of them touches what
    is committed. *)
Section Committed.
Variable t0 : Tables.
Let P := fun c => committed c = t0.

Lemma committed_select_seller_id uid : preserves P (select_seller_id uid).
Proof. intros c H; exact H. Qed.
Lemma committed_update_seller now r f id : preserves P (update_seller now r f id).
Proof. intros c H; exact H. Qed.
Lemma committed_insert_seller now uid r f : preserves P (insert_seller now uid r f).
Proof. intros c H. unfold insert_seller. destruct find_seller; exact H. Qed.
Lemma committed_select_auction_id iid : preserves P (select_auction_id iid).
Proof. intros c H; exact H. Qed.
Lemma committed_update_auction now f id : preserves P (update_auction now f id).
Proof. intros c H; exact H. Qed.
Lemma committed_insert_auction now iid p e s f :
  preserves P (insert_auction now iid p e s f).
Proof. intros c H. unfold insert_auction. destruct find_auction; exact H. Qed.
Lemma committed_upsert_item_specific now a k v :
  preserves P (upsert_item_specific now a k v).
Proof. intros c H; exact H. Qed.
Lemma committed_insert_bid now a x y b w : preserves P (insert_bid now a x y b w).
Proof. intros c H; exact H. Qed.
Lemma committed_update_auction_completed now p n iid :
  preserves P (update_auction_completed now p n iid).
Proof. intros c H; exact H. Qed.

Local Ltac statements :=
  preserve;
  auto using committed_select_seller_id, committed_update_seller,
    committed_insert_seller, committed_select_auction_id,
    committed_update_auction, committed_insert_auction,
    committed_upsert_item_specific, committed_insert_bid,
    committed_update_auction_completed.

Lemma committed_get_seller_id now sd : preserves P (get_seller_id now sd).
Proof. unfold get_seller_id. statements. Qed.

Lemma committed_save_auction now item sid : preserves P (save_auction now item sid).
Proof. statements. Qed.

Lemma committed_save_item_specifics now aid m :
  preserves P (save_item_specifics now aid m).
Proof. statements. Qed.

Lemma committed_save_bids now aid h : preserves P (save_bids now aid h).
Proof. statements. Qed.

Lemma committed_save_item now item : preserves P (save_item now item true).
Proof. unfold save_item; simpl. statements. Qed.

Lemma committed_save_each now items : preserves P (save_each now items).
Proof.
  unfold save_each. apply preserves_for_each; intros item.
  apply preserves_bind; [apply committed_save_item | intros; apply preserves_ret].
Qed.

Lemma committed_update_completed_item now item :
  preserves P (update_completed_item now item).
Proof. unfold update_completed_item. statements. Qed.
End Committed.

(** ** Batches are transactions *)

Lemma save_each_committed now items c :
  committed (snd (save_each now items c)) = committed c.
Proof. now apply (committed_save_each (committed c)). Qed.

Lemma update_completed_each_committed now items c :
  committed (snd (for_each items (update_completed_item now) c)) = committed c.
Proof.
  apply (preserves_for_each (fun c' => committed c' = committed c)); [|reflexivity].
  intros item. apply committed_update_completed_item.
Qed.

(** How [try: loop; commit  except: rollback; raise] ends, from how the
    loop ends. *)
Lemma transaction_ends (loop : M unit) c :
  try_except (loop ;; commit) (fun e => rollback ;; raise e) c =
  match loop c with
  | (Ok _, c1) => (Ok tt, mkConnection (working c1) (working c1) (sequences c1))
  | (Raise e, c1) =>
      (Raise e, mkConnection (committed c1) (committed c1) (sequences c1))
  end.
Proof.
  unfold try_except, bind. destruct (loop c) as [[[]|e] c1]; reflexivity.
Qed.

Lemma save_items_cons now item items c :
  save_items now (item :: items) c =
  match save_each now (item :: items) c with
  | (Ok _, c1) => (Ok tt, mkConnection (working c1) (working c1) (sequences c1))
  | (Raise e, c1) =>
      (Raise e, mkConnection (committed c1) (committed c1) (sequences c1))
  end.
Proof. apply transaction_ends. Qed.

Lemma update_completed_items_cons now item items c :
  update_completed_items now (item :: items) c =
  match for_each (item :: items) (update_completed_item now) c with
  | (Ok _, c1) => (Ok tt, mkConnection (working c1) (working c1) (sequences c1))
  | (Raise e, c1) =>
      (Raise e, mkConnection (committed c1) (committed c1) (sequences c1))
  end.
Proof. apply transaction_ends. Qed.

(** C10.  A batch is one transaction.  When [save_items] or
    [update_completed_items] raises, the exception is the one its loop
    stopped on, and the committed tables and the tables the connection
    works on are both the tables committed before the batch: every write of
    the batch is undone.  When it returns, an empty batch has left the
    connection alone, and otherwise the tables its loop has reached were
    committed in one step at the end.  No item of either loop commits by
    itself. *)
Theorem batch_is_one_transaction :
  forall now items c,
    (match save_items now items c with
     | (Raise e, c') =>
         committed c' = committed c /\ working c' = committed c /\
         exists c1, save_each now items c = (Raise e, c1)
     | (Ok _, c') =>
         (items = [] /\ c' = c) \/
         (items <> [] /\ committed c' = working c' /\
          exists c1, save_each now items c = (Ok tt, c1) /\ working c' = working c1)
     end) /\
    (match update_completed_items now items c with
     | (Raise e, c') =>
         committed c' = committed c /\ working c' = committed c /\
         exists c1, for_each items (update_completed_item now) c = (Raise e, c1)
     | (Ok _, c') =>
         (items = [] /\ c' = c) \/
         (items <> [] /\ committed c' = working c' /\
          exists c1, for_each items (update_completed_item now) c = (Ok tt, c1) /\
                     working c' = working c1)
     end) /\
    (forall item, committed (run (save_item now item true) c) = committed c) /\
    (forall item, committed (run (update_completed_item now item) c) = committed c).
Proof.
  intros now items c. repeat split.
  - destruct items as [|item items]; [left; now split|].
    rewrite save_items_cons.
    pose proof (save_each_committed now (item :: items) c) as Hc.
    destruct (save_each now (item :: items) c) as [[[]|e] c1]; simpl in *.
    + right. split; [discriminate|]. split; [reflexivity|]. now exists c1.
    + split; [exact Hc|]. split; [exact Hc|]. now exists c1.
  - destruct items as [|item items]; [left; now split|].
    rewrite update_completed_items_cons.
    pose proof (update_completed_each_committed now (item :: items) c) as Hc.
    destruct (for_each (item :: items) (update_completed_item now) c)
      as [[[]|e] c1]; simpl in *.
    + right. split; [discriminate|]. split; [reflexivity|]. now exists c1.
    + split; [exact Hc|]. split; [exact Hc|]. now exists c1.
  - intros item. now apply (committed_save_item (committed c)).
  - intros item. now apply (committed_update_completed_item (committed c)).
Qed.

(** C1, as the code has it.  [save_items] does not isolate a failing item:
    when the items before [bad] have been written and writing [bad] raises
    [e], the call re-raises [e] without trying the items after it, and both
    table sets of the connection are the ones committed before the call,
    so no item of the batch is stored. *)
Theorem save_items_stops_at_failure :
  forall now before bad after c c1 c2 e,
    save_each now before c = (Ok tt, c1) ->
    save_item now bad true c1 = (Raise e, c2) ->
    save_items now (before ++ bad :: after) c =
    (Raise e, mkConnection (committed c) (committed c) (sequences c2)).
Proof.
  intros now before bad after c c1 c2 e Hbefore Hbad.
  assert (Hloop : save_each now (before ++ bad :: after) c = (Raise e, c2)).
  { unfold save_each in *. rewrite for_each_app, Hbefore. simpl.
    unfold bind at 1. unfold bind at 1. now rewrite Hbad. }
  assert (Hc : committed c2 = committed c).
  { rewrite <- (save_each_committed now (before ++ bad :: after) c).
    now rewrite Hloop. }
  destruct before as [|item before]; simpl app in *;
    rewrite save_items_cons, Hloop, Hc; reflexivity.
Qed.

Lemma save_items_stops_at_failure_witness :
  save_items 50 ([listing "1" 10000] ++ listing_without_id 20000 :: [listing "3" 30000])
    fresh =
  (Raise (KeyError "item_id"),
   mkConnection (committed fresh) (committed fresh) (mkSequences 2 2 1 1)).
Proof.
  apply (save_items_stops_at_failure 50 [listing "1" 10000]
           (listing_without_id 20000) [listing "3" 30000] fresh
           (snd (save_each 50 [listing "1" 10000] fresh))
           (snd (save_item 50 (listing_without_id 20000) true
                   (snd (save_each 50 [listing "1" 10000] fresh))))).
  - reflexivity.
  - reflexivity.
Defined.

(** C1, as the claim has it, fails on a batch of three whose second item
    has no [item_id]: the call raises the [KeyError] and neither item 1 nor
    item 3 is stored. *)
Lemma partial_failure_not_isolated :
  result (save_items 50 batch_of_three) fresh = Raise (KeyError "item_id") /\
  find_auction "1" (auctions (committed (run (save_items 50 batch_of_three) fresh))) = None /\
  find_auction "3" (auctions (committed (run (save_items 50 batch_of_three) fresh))) = None /\
  ~ (exists r1 r3,
        find_auction "1" (auctions (committed (run (save_items 50 batch_of_three) fresh)))
          = Some r1 /\
        find_auction "3" (auctions (committed (run (save_items 50 batch_of_three) fresh)))
          = Some r3).
Proof.
  repeat split; try reflexivity.
  intros (r1 & r3 & H1 & _). discriminate H1.
Qed.

(** ** The sleep of the daemon *)

(** C8.  With [d = end_time - start_time] the time the cycle took, the
    sleep is [T - d] when [d < T] and [0] when [d >= T]; that is the larger
    of [0] and [T - d]. *)
Theorem sleep_time_corrects_drift :
  forall T start_time end_time : Q,
    ((end_time - start_time < T)%Q ->
     sleep_time T start_time end_time = (T - (end_time - start_time))%Q) /\
    ((T <= end_time - start_time)%Q -> sleep_time T start_time end_time = 0%Q) /\
    (sleep_time T start_time end_time == Qmax 0 (T - (end_time - start_time)))%Q.
Proof.
  intros T s e. unfold sleep_time, max0.
  set (d := (e - s)%Q).
  destruct (Qlt_le_dec 0 (T - d)) as [Hpos|Hneg].
  - split; [reflexivity|]. split.
    + intros Hle. exfalso. apply (Qlt_irrefl 0).
      apply Qlt_le_trans with (T - d)%Q; [exact Hpos|].
      apply -> Qle_minus_iff in Hle.
      setoid_replace (T - d)%Q with (- (d + - T))%Q by ring.
      setoid_replace 0%Q with (- 0)%Q by ring.
      now apply Qopp_le_compat.
    + symmetry. apply Q.max_r. now apply Qlt_le_weak.
  - split.
    + intros Hlt. exfalso. apply (Qlt_irrefl 0).
      apply Qlt_le_trans with (T - d)%Q; [|exact Hneg].
      now apply -> Qlt_minus_iff in Hlt.
    + split; [reflexivity|]. symmetry. now apply Q.max_l.
Qed.

Lemma sleep_time_corrects_drift_witness :
  sleep_time (polling_interval 30) 1000 1600 = (polling_interval 30 - (1600 - 1000))%Q /\
  sleep_time (polling_interval 30) 1000 3000 = 0%Q.
Proof.
  split.
  - apply (proj1 (sleep_time_corrects_drift (polling_interval 30) 1000 1600)).
    reflexivity.
  - apply (proj1 (proj2 (sleep_time_corrects_drift (polling_interval 30) 1000 3000))).
    discriminate.
Defined.

(** ** Rows of a table *)

Section Rows.
Context {R : Type}.
Implicit Types (p : R -> bool) (g : R -> R) (l : list R).

Lemma find_app p l1 l2 :
  find p (l1 ++ l2) =
  match find p l1 with Some r => Some r | None => find p l2 end.
Proof.
  induction l1 as [|x l1 IH]; simpl; [reflexivity|].
  destruct (p x); [reflexivity | exact IH].
Qed.

Lemma find_map p g l :
  (forall r, p (g r) = p r) -> find p (map g l) = option_map g (find p l).
Proof.
  intros Hg. induction l as [|x l IH]; simpl; [reflexivity|].
  rewrite Hg. destruct (p x); [reflexivity | exact IH].
Qed.

Lemma existsb_find p l :
  existsb p l = match find p l with Some _ => true | None => false end.
Proof.
  induction l as [|x l IH]; simpl; [reflexivity|].
  destruct (p x); [reflexivity | exact IH].
Qed.

Lemma find_none_forall p l : find p l = None -> forall r, In r l -> p r = false.
Proof. intros H r Hr. exact (find_none p l H r Hr). Qed.

(** A conditional update of rows that does not meet the condition. *)
Lemma map_untouched p g l :
  (forall r, In r l -> p r = false) ->
  map (fun r => if p r then g r else r) l = l.
Proof.
  intros H. induction l as [|x l IH]; simpl; [reflexivity|].
  rewrite (H x (or_introl eq_refl)). f_equal. apply IH.
  intros r Hr. apply H. now right.
Qed.

Lemma find_map_other p q g l :
  (forall r, p (g r) = p r) ->
  (forall r, In r l -> p r = true -> q r = false) ->
  find p (map (fun r => if q r then g r else r) l) = find p l.
Proof.
  intros Hg Hpq. induction l as [|x l IH]; simpl; [reflexivity|].
  assert (IH' : find p (map (fun r => if q r then g r else r) l) = find p l).
  { apply IH. intros r Hr. apply Hpq. now right. }
  destruct (q x) eqn:Hq.
  - rewrite Hg. destruct (p x) eqn:Hp; [|exact IH'].
  rewrite (Hpq x (or_introl eq_refl) Hp) in Hq. discriminate.
  - destruct (p x); [reflexivity | exact IH'].
Qed.

Lemma find_map_same p q g l r :
  (forall r, p (g r) = p r) ->
  find p l = Some r -> q r = true ->
  find p (map (fun r => if q r then g r else r) l) = Some (g r).
Proof.
  intros Hg Hf Hq.
  rewrite find_map.
  - rewrite Hf. simpl. now rewrite Hq.
  - intros x. destruct (q x); [apply Hg | reflexivity].
Qed.

(** Two rows of a list without duplicates under [f] that agree on [f]
    are one row. *)
Lemma NoDup_map_inj {K} (f : R -> K) l x y :
  NoDup (map f l) -> In x l -> In y l -> f x = f y -> x = y.
Proof.
  induction l as [|z l IH]; simpl; intros Hnd Hx Hy Hxy; [contradiction|].
  inversion Hnd as [|? ? Hz Hnd']; subst.
  destruct Hx as [->|Hx], Hy as [->|Hy].
  - reflexivity.
  - exfalso. apply Hz. rewrite Hxy. now apply in_map.
  - exfalso. apply Hz. rewrite <- Hxy. now apply in_map.
  - now apply IH.
Qed.
End Rows.

Lemma same_specific_true a k r :
  same_specific a k r = true <-> is_auction_id r = a /\ is_spec_key r = k.
Proof.
  unfold same_specific. rewrite andb_true_iff, Z.eqb_eq, String.eqb_eq. tauto.
Qed.

Lemma same_specific_set_spec_value a k v r :
  same_specific a k (set_spec_value v r) = same_specific a k r.
Proof. reflexivity. Qed.

Lemma find_seller_key uid l r : find_seller uid l = Some r -> s_ebay_user_id r = uid.
Proof.
  intros H. apply find_some in H. destruct H as [_ H]. now apply String.eqb_eq.
Qed.

Lemma find_auction_key iid l r : find_auction iid l = Some r -> a_item_id r = iid.
Proof.
  intros H. apply find_some in H. destruct H as [_ H]. now apply String.eqb_eq.
Qed.

Lemma find_seller_none uid l :
  find_seller uid l = None <-> ~ In uid (map s_ebay_user_id l).
Proof.
  unfold find_seller. induction l as [|x l IH]; simpl; [tauto|].
  destruct (String.eqb_spec (s_ebay_user_id x) uid) as [->|Hne].
  - split; [discriminate | intros H; exfalso; apply H; now left].
  - rewrite IH. tauto.
Qed.

Lemma find_auction_none iid l :
  find_auction iid l = None <-> ~ In iid (map a_item_id l).
Proof.
  unfold find_auction. induction l as [|x l IH]; simpl; [tauto|].
  destruct (String.eqb_spec (a_item_id x) iid) as [->|Hne].
  - split; [discriminate | intros H; exfalso; apply H; now left].
  - rewrite IH. tauto.
Qed.

(** ** The methods, branch by branch *)

Lemma get_seller_id_found now sd uid r c :
  sd_ebay_user_id sd = Some uid ->
  find_seller uid (sellers (working c)) = Some r ->
  get_seller_id now sd c =
  (Ok (s_id r),
   set_working
     (set_sellers
        (map (fun x => if Z.eqb (s_id x) (s_id r)
                       then refresh_seller now (sd_rating sd) (sd_feedback_score sd) x
                       else x) (sellers (working c))) (working c)) c).
Proof.
  intros Hu Hf. unfold get_seller_id. rewrite Hu. cbn [subscript].
  rewrite bind_ret. unfold bind, select_seller_id. rewrite Hf. reflexivity.
Qed.

Lemma get_seller_id_new now sd uid c :
  sd_ebay_user_id sd = Some uid ->
  find_seller uid (sellers (working c)) = None ->
  get_seller_id now sd c =
  (Ok (sellers_id_seq (sequences c)),
   mkConnection (committed c)
     (set_sellers
        (sellers (working c) ++
         [mkSeller (sellers_id_seq (sequences c)) uid (sd_rating sd)
            (sd_feedback_score sd) now now]) (working c))
     (mkSequences (sellers_id_seq (sequences c) + 1) (auctions_id_seq (sequences c))
        (item_specifics_id_seq (sequences c)) (bids_id_seq (sequences c)))).
Proof.
  intros Hu Hf. unfold get_seller_id. rewrite Hu. cbn [subscript].
  rewrite bind_ret. unfold bind, select_seller_id. rewrite Hf. cbn [option_map].
  unfold insert_seller. rewrite Hf. reflexivity.
Qed.

Lemma get_seller_id_no_key now sd c :
  sd_ebay_user_id sd = None ->
  get_seller_id now sd c = (Raise (KeyError "ebay_user_id"), c).
Proof. intros Hu. unfold get_seller_id. rewrite Hu. reflexivity. Qed.

Lemma auction_facts_ok item sid c :
  has_update_keys item = true ->
  auction_facts item sid c = (Ok (facts_of item sid), c).
Proof.
  unfold has_update_keys, auction_facts, facts_of.
  destruct (i_title item), (i_url item), (i_auction_status item);
    try discriminate. reflexivity.
Qed.

Lemma auction_facts_raise item sid c :
  has_update_keys item = false ->
  exists e, auction_facts item sid c = (Raise e, c).
Proof.
  unfold has_update_keys, auction_facts.
  destruct (i_title item), (i_url item), (i_auction_status item);
    try discriminate; intros _; eexists; reflexivity.
Qed.

Lemma save_auction_found now item sid iid r c :
  i_item_id item = Some iid ->
  find_auction iid (auctions (working c)) = Some r ->
  has_update_keys item = true ->
  save_auction now item sid c =
  (Ok (a_id r),
   set_working
     (set_auctions
        (map (fun x => if Z.eqb (a_id x) (a_id r)
                       then overwrite_auction now (facts_of item sid) x else x)
           (auctions (working c))) (working c)) c).
Proof.
  intros Hid Hf Hk. unfold save_auction. rewrite Hid. cbn [subscript].
  rewrite bind_ret. unfold bind at 1. unfold select_auction_id. rewrite Hf.
  cbn [option_map]. rewrite (bind_ok _ _ _ _ _ (auction_facts_ok item sid c Hk)).
  reflexivity.
Qed.

Lemma save_auction_found_raise now item sid iid r c :
  i_item_id item = Some iid ->
  find_auction iid (auctions (working c)) = Some r ->
  has_update_keys item = false ->
  exists e, save_auction now item sid c = (Raise e, c).
Proof.
  intros Hid Hf Hk. unfold save_auction. rewrite Hid. cbn [subscript].
  rewrite bind_ret. unfold bind at 1. unfold select_auction_id. rewrite Hf.
  cbn [option_map]. destruct (auction_facts_raise item sid c Hk) as [e He].
  exists e. now rewrite (bind_raise _ _ _ _ _ He).
Qed.

Lemma save_auction_new now item sid iid c :
  i_item_id item = Some iid ->
  find_auction iid (auctions (working c)) = None ->
  has_insert_keys item = true ->
  save_auction now item sid c =
  (Ok (auctions_id_seq (sequences c)),
   mkConnection (committed c)
     (set_auctions
        (auctions (working c) ++
         [new_auction now (auctions_id_seq (sequences c)) iid
            (get (i_search_pattern item) "") (get (i_auction_end_time item) 0)
            (i_auction_start_time item) (facts_of item sid)]) (working c))
     (mkSequences (sellers_id_seq (sequences c)) (auctions_id_seq (sequences c) + 1)
        (item_specifics_id_seq (sequences c)) (bids_id_seq (sequences c)))).
Proof.
  intros Hid Hf Hk. unfold save_auction. rewrite Hid. cbn [subscript].
  rewrite bind_ret. unfold bind at 1. unfold select_auction_id. rewrite Hf.
  cbn [option_map]. unfold has_insert_keys in Hk.
  destruct (i_search_pattern item) as [p|] eqn:Hp; [|discriminate].
  destruct (i_auction_end_time item) as [t|] eqn:Ht; [|discriminate].
  pose proof Hk as Hk'. unfold has_update_keys in Hk'.
  destruct (i_title item) as [ti|]; [|discriminate].
  destruct (i_url item) as [u|]; [|discriminate].
  cbn [subscript]. rewrite !bind_ret.
  rewrite (bind_ok _ _ _ _ _ (auction_facts_ok item sid c Hk)).
  unfold insert_auction. rewrite Hf. reflexivity.
Qed.

Lemma save_auction_new_raise now item sid iid c :
  i_item_id item = Some iid ->
  find_auction iid (auctions (working c)) = None ->
  has_insert_keys item = false ->
  exists e, save_auction now item sid c = (Raise e, c).
Proof.
  intros Hid Hf Hk. unfold save_auction. rewrite Hid. cbn [subscript].
  rewrite bind_ret. unfold bind at 1. unfold select_auction_id. rewrite Hf.
  cbn [option_map]. unfold has_insert_keys in Hk.
  destruct (i_title item) as [ti|] eqn:Hti; [|eexists; reflexivity].
  destruct (i_url item) as [u|] eqn:Hu; [|eexists; reflexivity].
  destruct (i_search_pattern item) as [p|]; [|eexists; reflexivity].
  destruct (i_auction_end_time item) as [t|]; [|eexists; reflexivity].
  cbn [subscript]. rewrite !bind_ret.
  destruct (auction_facts_raise item sid c Hk) as [e He].
  exists e. now rewrite (bind_raise _ _ _ _ _ He).
Qed.

Lemma save_auction_no_key now item sid c :
  i_item_id item = None ->
  save_auction now item sid c = (Raise (KeyError "item_id"), c).
Proof. intros Hid. unfold save_auction. rewrite Hid. reflexivity. Qed.

(** ** Item specifics *)

Lemma save_item_specifics_loop now aid pairs :
  save_item_specifics now aid (Some pairs) =
  for_each pairs (fun kv => upsert_item_specific now aid (fst kv) (snd kv)).
Proof. destruct pairs; reflexivity. Qed.

Lemma upsert_item_specific_same now aid k v c :
  spec_value_of aid k (working (snd (upsert_item_specific now aid k v c))) = Some v.
Proof.
  unfold spec_value_of, find_specific, upsert_item_specific; simpl.
  rewrite existsb_find.
  destruct (find (same_specific aid k) (item_specifics (working c))) as [r|] eqn:Hf.
  - rewrite (find_map_same _ _ (set_spec_value v) _ r); auto.
    apply find_some in Hf. tauto.
  - rewrite find_app, Hf. simpl.
    unfold same_specific; simpl. now rewrite Z.eqb_refl, String.eqb_refl.
Qed.

Lemma upsert_item_specific_other now aid k v c a k' :
  a <> aid \/ k' <> k ->
  find_specific a k' (item_specifics (working (snd (upsert_item_specific now aid k v c)))) =
  find_specific a k' (item_specifics (working c)).
Proof.
  intros Hne.
  assert (Hdiff : forall r, same_specific a k' r = true -> same_specific aid k r = false).
  { intros r Hr. apply same_specific_true in Hr. destruct Hr as [Ha Hk].
    destruct (same_specific aid k r) eqn:E; [|reflexivity].
    apply same_specific_true in E. destruct E as [Ha' Hk'].
    exfalso. destruct Hne as [H|H]; apply H; congruence. }
  unfold find_specific, upsert_item_specific; simpl.
  destruct (existsb (same_specific aid k) (item_specifics (working c))).
  - apply find_map_other; [reflexivity | intros r _; apply Hdiff].
  - rewrite find_app.
    destruct (find (same_specific a k') (item_specifics (working c))); [reflexivity|].
    simpl. destruct (same_specific a k' _) eqn:E; [|reflexivity].
    apply same_specific_true in E; simpl in E. exfalso.
    destruct E as [Ha Hk]. destruct Hne as [H|H]; apply H; congruence.
Qed.

Lemma save_item_specifics_merges now aid pairs :
  NoDup (map fst pairs) ->
  forall c,
    let c' := snd (save_item_specifics now aid (Some pairs) c) in
    fst (save_item_specifics now aid (Some pairs) c) = Ok tt /\
    (forall k v, In (k, v) pairs -> spec_value_of aid k (working c') = Some v) /\
    (forall a k, a <> aid \/ ~ In k (map fst pairs) ->
       find_specific a k (item_specifics (working c')) =
       find_specific a k (item_specifics (working c))).
Proof.
  rewrite save_item_specifics_loop.
  induction pairs as [|[k0 v0] pairs IH]; intros Hnd c; simpl.
  - split; [reflexivity|]. split; [intros k v []|reflexivity].
  - inversion Hnd as [|? ? Hk0 Hnd']; subst.
    unfold bind.
    pose proof (upsert_item_specific_same now aid k0 v0 c) as Hsame.
    pose proof (upsert_item_specific_other now aid k0 v0 c) as Hother.
    destruct (upsert_item_specific now aid k0 v0 c) as [[[]|e] c1] eqn:E;
      [|discriminate E].
    simpl in Hsame, Hother.
    destruct (IH Hnd' c1) as (Hok & Hin & Hframe). simpl in Hk0.
    split; [exact Hok|]. split.
    + intros k v [Heq|Hkv].
      * inversion Heq; subst. unfold spec_value_of.
        rewrite Hframe; [exact Hsame | now right].
      * now apply Hin.
    + intros a k Hak. rewrite Hframe.
      * apply Hother. destruct Hak as [Ha|Hk]; [now left|].
        right. intros ->. apply Hk. now left.
      * destruct Hak as [Ha|Hk]; [now left|]. right. intros Hk'. apply Hk. now right.
Qed.

Lemma save_item_specifics_single now aid k v c :
  save_item_specifics now aid (Some [(k, v)]) c = upsert_item_specific now aid k v c.
Proof. reflexivity. Qed.

(** C7.  Merging a mapping with distinct keys into the specifics of an
    auction stores every pair of the mapping, by insertion or by overwriting
    the value stored under that (auction, key); every row of another key or
    of another auction is left as it was.  So [{A: 1}] followed by [{B: 2}]
    leaves both [A] and [B]. *)
Theorem item_specifics_merge_is_additive :
  forall now aid pairs c,
    NoDup (map fst pairs) ->
    let c' := run (save_item_specifics now aid (Some pairs)) c in
    result (save_item_specifics now aid (Some pairs)) c = Ok tt /\
    (forall k v, In (k, v) pairs -> spec_value_of aid k (working c') = Some v) /\
    (forall a k, a <> aid \/ ~ In k (map fst pairs) ->
       find_specific a k (item_specifics (working c')) =
       find_specific a k (item_specifics (working c))) /\
    (forall now2,
       let c'' := run (save_item_specifics now2 aid (Some [("B", "2")]))
                    (run (save_item_specifics now aid (Some [("A", "1")])) c) in
       spec_value_of aid "A" (working c'') = Some "1" /\
       spec_value_of aid "B" (working c'') = Some "2").
Proof.
  intros now aid pairs c Hnd. unfold run, result.
  destruct (save_item_specifics_merges now aid pairs Hnd c) as (Hok & Hin & Hframe).
  repeat split; auto; rewrite !save_item_specifics_single.
  - unfold spec_value_of.
    rewrite upsert_item_specific_other by (right; discriminate).
    apply upsert_item_specific_same.
  - apply upsert_item_specific_same.
Qed.

Lemma item_specifics_merge_is_additive_witness :
  let c' := run (save_item_specifics 50 1 (Some [("Brand", "NVIDIA"); ("Memory", "24 GB")]))
              fresh in
  spec_value_of 1 "Brand" (working c') = Some "NVIDIA" /\
  spec_value_of 1 "Memory" (working c') = Some "24 GB".
Proof.
  assert (Hnd : NoDup (map fst [("Brand", "NVIDIA"); ("Memory", "24 GB")])).
  { simpl. repeat constructor; simpl; intuition discriminate. }
  pose proof (item_specifics_merge_is_additive 50 1
                [("Brand", "NVIDIA"); ("Memory", "24 GB")] fresh Hnd) as H.
  destruct H as (_ & Hin & _).
  split; apply Hin; simpl; auto.
Defined.

(** ** Bids *)

(** The conflict clause of the bid [INSERT] has nothing to compare but the
    primary key: with the sequence ahead of the table the row is appended,
    whatever bids the table holds. *)
Lemma insert_bid_appends now aid amount time bidder winning c :
  ~ In (bids_id_seq (sequences c)) (map b_id (bids (working c))) ->
  bids (working (snd (insert_bid now aid amount time bidder winning c))) =
  bids (working c) ++
  [mkBid (bids_id_seq (sequences c)) aid amount time bidder winning now].
Proof.
  intros Hfresh. unfold insert_bid; simpl.
  destruct (existsb (fun r => Z.eqb (b_id r) (bids_id_seq (sequences c)))
              (bids (working c))) eqn:He; [|reflexivity].
  exfalso. apply Hfresh. apply existsb_exists in He.
  destruct He as (r & Hr & Hid). apply Z.eqb_eq in Hid.
  rewrite <- Hid. now apply in_map.
Qed.

(** C3 on the code: the same observed bid stored by two successive
    [save_items] gives two rows of [bids] with the same (auction, amount,
    time, bidder); a bid of another amount then adds a third row. *)
Theorem identical_bid_is_stored_twice :
  let c1 := run (save_items 50 [listing_with_bid "123" 10000]) fresh in
  let c2 := run (save_items 60 [listing_with_bid "123" 10000]) c1 in
  let c3 := run (save_items 70 [listing_with_other_bid "123" 10000]) c2 in
  map bid_tuple (bids (committed c1)) = [(1, 12000, 1699990000, Some "b1")] /\
  map bid_tuple (bids (committed c2)) =
    [(1, 12000, 1699990000, Some "b1"); (1, 12000, 1699990000, Some "b1")] /\
  map bid_tuple (bids (committed c3)) =
    [(1, 12000, 1699990000, Some "b1"); (1, 12000, 1699990000, Some "b1");
     (1, 13000, 1699990000, Some "b1")].
Proof. repeat split; reflexivity. Qed.

(** ** Finalizing an auction *)

Section AuctionsFrame.
Variable rows : list Auction.
Let P := fun c => auctions (working c) = rows.

Lemma auctions_insert_bid now a x y b w : preserves P (insert_bid now a x y b w).
Proof. intros c H; exact H. Qed.

Lemma auctions_upsert_item_specific now a k v :
  preserves P (upsert_item_specific now a k v).
Proof. intros c H; exact H. Qed.

Lemma auctions_select_seller_id uid : preserves P (select_seller_id uid).
Proof. intros c H; exact H. Qed.

Lemma auctions_update_seller now r f id : preserves P (update_seller now r f id).
Proof. intros c H; exact H. Qed.

Lemma auctions_insert_seller now uid r f : preserves P (insert_seller now uid r f).
Proof. intros c H. unfold insert_seller. destruct find_seller; exact H. Qed.

Lemma auctions_get_seller_id now sd : preserves P (get_seller_id now sd).
Proof.
  preserve; auto using auctions_select_seller_id, auctions_update_seller,
  auctions_insert_seller.
Qed.

Lemma auctions_save_item_specifics now aid m :
  preserves P (save_item_specifics now aid m).
Proof. preserve; apply auctions_upsert_item_specific. Qed.

Lemma auctions_save_bids now aid h : preserves P (save_bids now aid h).
Proof. preserve; apply auctions_insert_bid. Qed.
End AuctionsFrame.

Lemma complete_auction_key now p n r iid :
  String.eqb (a_item_id (complete_auction now p n r)) iid = String.eqb (a_item_id r) iid.
Proof. reflexivity. Qed.

Lemma update_completed_item_auctions now item iid c :
  i_item_id item = Some iid ->
  auctions (working (snd (update_completed_item now item c))) =
  map (fun r => if String.eqb (a_item_id r) iid
                then complete_auction now (i_final_price item) (get (i_num_bids item) 0) r
                else r) (auctions (working c)).
Proof.
  intros Hid. unfold update_completed_item. rewrite Hid.
  cbn [subscript]. rewrite bind_ret.
  erewrite bind_ok by (unfold update_auction_completed; reflexivity).
  match goal with
  | |- auctions (working (snd (?m ?c1))) = ?rows =>
      apply (fun H : preserves (fun c => auctions (working c) = rows) m => H c1)
  end; [|reflexivity].
  preserve; apply auctions_insert_bid.
Qed.

Lemma set_auctions_same (c : Connection) :
  set_working (set_auctions (auctions (working c)) (working c)) c = c.
Proof. destruct c as [cm [s a p b] q]; reflexivity. Qed.

(** C5, as the code has it.  Finalizing looks at the item id and not at
    the status: an auction stored under the item id, whatever its status,
    gets status [completed], the final price and the final bid count, and
    its key is returned; when no auction is stored under the item id the
    completion leaves the connection as it was and raises nothing. *)
Theorem finalize_matches_item_id_only :
  forall now item iid c,
    i_item_id item = Some iid ->
    match find_auction iid (auctions (working c)) with
    | Some r =>
        result (update_auction_completed now (i_final_price item)
                  (get (i_num_bids item) 0) iid) c = Ok (Some (a_id r)) /\
        find_auction iid (auctions (working (run (update_completed_item now item) c))) =
        Some (complete_auction now (i_final_price item) (get (i_num_bids item) 0) r)
    | None =>
        result (update_auction_completed now (i_final_price item)
                  (get (i_num_bids item) 0) iid) c = Ok None /\
        update_completed_item now item c = (Ok tt, c)
    end.
Proof.
  intros now item iid c Hid.
  destruct (find_auction iid (auctions (working c))) as [r|] eqn:Hf.
  - split.
    + unfold result, update_auction_completed; simpl. now rewrite Hf.
    + unfold run. rewrite (update_completed_item_auctions now item iid c Hid).
      unfold find_auction in *.
      apply find_map_same; [reflexivity | exact Hf |].
      apply find_some in Hf. tauto.
  - split; [unfold result, update_auction_completed; simpl; now rewrite Hf|].
    unfold update_completed_item. rewrite Hid.
    cbn [subscript]. rewrite bind_ret.
    erewrite bind_ok by (unfold update_auction_completed; reflexivity).
    rewrite Hf. cbn [option_map].
    rewrite map_untouched by (apply find_none_forall; exact Hf).
    now rewrite set_auctions_same.
Qed.

Lemma finalize_matches_item_id_only_witness :
  status_of "123" (working finalized_store) = Some "completed" /\
  option_map a_current_price
    (find_auction "123"
       (auctions (working (run (update_completed_item 70 (completion "123" 99900 7))
                             finalized_store)))) = Some (Some 99900) /\
  update_completed_item 70 (completion "999" 99900 7) finalized_store =
    (Ok tt, finalized_store).
Proof.
  split; [reflexivity|]. split.
  - pose proof (finalize_matches_item_id_only 70 (completion "123" 99900 7) "123"
                  finalized_store eq_refl) as H.
    destruct (find_auction "123" (auctions (working finalized_store))) as [r|] eqn:E.
    + destruct H as [_ H]. rewrite H. reflexivity.
    + discriminate E.
  - exact (proj2 (finalize_matches_item_id_only 70 (completion "999" 99900 7) "999"
                    finalized_store eq_refl)).
Defined.

(** C5, as the claim has it, fails on an auction that is already
    completed: a second completion of item 123 finds no active auction, yet
    it returns the auction's key and replaces the price and the bid count. *)
Lemma finalize_changes_completed_auction :
  status_of "123" (committed finalized_store) = Some "completed" /\
  result (update_auction_completed 70 (Some 99900) 7 "123") finalized_store
    = Ok (Some 1) /\
  let c3 := run (update_completed_items 70 [completion "123" 99900 7]) finalized_store in
  option_map a_current_price (find_auction "123" (auctions (committed finalized_store)))
    = Some (Some 15000) /\
  option_map a_current_price (find_auction "123" (auctions (committed c3)))
    = Some (Some 99900) /\
  option_map a_num_bids (find_auction "123" (auctions (committed c3))) = Some 7 /\
  committed c3 <> committed finalized_store.
Proof.
  repeat split; try reflexivity.
  intros H. discriminate H.
Qed.

(** ** The auction upsert *)

(** C6, as the code has it.  For an item that carries its item id, title,
    url and status: when no auction is stored under the item id (and the
    item also carries its search pattern and end time) a row is appended
    whose status is the status the item carries, and its new key is
    returned; when an auction is stored under the item id, its title, url,
    seller, description, condition, the three prices, bid count and status
    are overwritten from the item, its other columns are kept, and its key
    is returned. *)
Theorem save_auction_upserts :
  forall now item sid iid title url status c,
    i_item_id item = Some iid ->
    i_title item = Some title ->
    i_url item = Some url ->
    i_auction_status item = Some status ->
    let f := mkAuctionFacts title url sid (i_description item) (i_condition item)
               (i_current_price item) (i_buy_it_now_price item)
               (i_shipping_cost item) (get (i_num_bids item) 0) status in
    match find_auction iid (auctions (working c)) with
    | Some r =>
        result (save_auction now item sid) c = Ok (a_id r) /\
        find_auction iid (auctions (working (run (save_auction now item sid) c))) =
          Some (overwrite_auction now f r) /\
        List.length (auctions (working (run (save_auction now item sid) c))) =
          List.length (auctions (working c))
    | None =>
        forall pattern end_time,
          i_search_pattern item = Some pattern ->
          i_auction_end_time item = Some end_time ->
          let id := auctions_id_seq (sequences c) in
          let row := new_auction now id iid pattern end_time
                       (i_auction_start_time item) f in
          result (save_auction now item sid) c = Ok id /\
          auctions (working (run (save_auction now item sid) c)) =
            auctions (working c) ++ [row] /\
          find_auction iid (auctions (working (run (save_auction now item sid) c))) =
            Some row /\
          a_auction_status row = status
    end.
Proof.
  intros now item sid iid title url status c Hid Ht Hu Hs f.
  assert (Hk : has_update_keys item = true).
  { unfold has_update_keys. now rewrite Ht, Hu, Hs. }
  assert (Hfacts : facts_of item sid = f).
  { unfold facts_of, f. now rewrite Ht, Hu, Hs. }
  unfold run, result.
  destruct (find_auction iid (auctions (working c))) as [r|] eqn:Hf.
  - rewrite (save_auction_found now item sid iid r c Hid Hf Hk), Hfacts. simpl.
    split; [reflexivity|]. split.
    + unfold find_auction in *.
      apply (find_map_same _ (fun x => Z.eqb (a_id x) (a_id r))
               (overwrite_auction now f)); [reflexivity | exact Hf | apply Z.eqb_refl].
    + apply length_map.
  - intros pattern end_time Hp He.
    assert (Hk' : has_insert_keys item = true).
    { unfold has_insert_keys. now rewrite Hp, He. }
    rewrite (save_auction_new now item sid iid c Hid Hf Hk'), Hfacts, Hp, He. simpl.
    split; [reflexivity|]. split; [reflexivity|]. split; [|reflexivity].
    unfold find_auction in *. rewrite find_app, Hf. simpl.
    now rewrite String.eqb_refl.
Qed.

Lemma save_auction_upserts_witness :
  result (save_auction 50 (listing "123" 10000) 1) fresh = Ok 1 /\
  status_of "123" (working (run (save_auction 50 (listing "123" 10000) 1) fresh))
    = Some "active".
Proof.
  pose proof (save_auction_upserts 50 (listing "123" 10000) 1 "123"
                "RTX 3090 Founders Edition" "https://www.ebay.com/itm/rtx3090"
                "active" fresh eq_refl eq_refl eq_refl eq_refl) as H.
  cbv zeta in H.
  change (find_auction "123" (auctions (working fresh))) with (@None Auction) in H.
  cbv beta iota in H. specialize (H "rtx 3090" 1700000000 eq_refl eq_refl).
  destruct H as (Hres & _ & Hfind & _).
  split; [exact Hres|]. unfold status_of. now rewrite Hfind.
Defined.

(** C6, as the claim has it, fails on a new item that the source reports
    with a status other than [active]: the row inserted carries that
    status. *)
Lemma new_auction_status_is_the_observed_one :
  let item := listing_with_status "123" 10000 "completed" in
  find_auction "123" (auctions (working fresh)) = None /\
  status_of "123" (working (run (save_auction 50 item 1) fresh)) = Some "completed" /\
  status_of "123" (committed (run (save_items 50 [item]) fresh)) = Some "completed" /\
  status_of "123" (committed (run (save_items 50 [item]) fresh)) <> Some "active".
Proof.
  repeat split; try reflexivity. intros H. discriminate H.
Qed.

(** ** Invariants of the store *)

Lemma map_key_update {R K} (f : R -> K) (q : R -> bool) (g : R -> R) l :
  (forall r, f (g r) = f r) ->
  map f (map (fun r => if q r then g r else r) l) = map f l.
Proof.
  intros Hg. rewrite map_map. apply map_ext. intros r.
  destruct (q r); [apply Hg | reflexivity].
Qed.

Lemma NoDup_snoc {K} (l : list K) x : NoDup l -> ~ In x l -> NoDup (l ++ [x]).
Proof.
  intros Hl Hx. apply NoDup_app; [exact Hl | repeat constructor; intros [] | ].
  intros y Hy [<-|[]]. now apply Hx.
Qed.

Lemma Forall_snoc {R} (P : R -> Prop) l x : Forall P l -> P x -> Forall P (l ++ [x]).
Proof. intros Hl Hx. apply Forall_app. split; [exact Hl | now constructor]. Qed.

Lemma below_not_in {R} (f : R -> Z) l n :
  Forall (fun r => f r < n) l -> ~ In n (map f l).
Proof.
  intros H Hin. apply in_map_iff in Hin. destruct Hin as (r & Hr & Hin).
  rewrite Forall_forall in H. specialize (H r Hin). lia.
Qed.

Lemma below_succ {R} (f : R -> Z) l n :
  Forall (fun r => f r < n) l -> Forall (fun r => f r < n + 1) l.
Proof. apply Forall_impl. intros r Hr. lia. Qed.

(** Business keys stay unique under every statement. *)
Section UniqueKeys.
Let P := fun c => unique_keys (committed c) /\ unique_keys (working c).

Lemma keys_commit : preserves P commit.
Proof. intros c [_ H]. now split. Qed.

Lemma keys_rollback : preserves P rollback.
Proof. intros c [H _]. now split. Qed.

Lemma keys_select_seller_id uid : preserves P (select_seller_id uid).
Proof. intros c H; exact H. Qed.

Lemma keys_select_auction_id iid : preserves P (select_auction_id iid).
Proof. intros c H; exact H. Qed.

Lemma keys_update_seller now r f id : preserves P (update_seller now r f id).
Proof.
  intros c [Hc [Hs Ha]]. split; [exact Hc|]. split; [|exact Ha].
  simpl. now rewrite map_key_update.
Qed.

Lemma keys_insert_seller now uid r f : preserves P (insert_seller now uid r f).
Proof.
  intros c [Hc [Hs Ha]]. unfold insert_seller.
  destruct (find_seller uid (sellers (working c))) eqn:Hf; simpl.
  - split; [exact Hc | split; [exact Hs | exact Ha]].
  - split; [exact Hc|]. split; [|exact Ha]. simpl.
  rewrite map_app. apply NoDup_snoc; [exact Hs|]. now apply find_seller_none.
Qed.

Lemma keys_update_auction now f id : preserves P (update_auction now f id).
Proof.
  intros c [Hc [Hs Ha]]. split; [exact Hc|]. split; [exact Hs|].
  simpl. now rewrite map_key_update.
Qed.

Lemma keys_insert_auction now iid p e s f :
  preserves P (insert_auction now iid p e s f).
Proof.
  intros c [Hc [Hs Ha]]. unfold insert_auction.
  destruct (find_auction iid (auctions (working c))) eqn:Hf; simpl.
  - split; [exact Hc | split; [exact Hs | exact Ha]].
  - split; [exact Hc|]. split; [exact Hs|]. simpl.
  rewrite map_app. apply NoDup_snoc; [exact Ha|]. now apply find_auction_none.
Qed.

Lemma keys_upsert_item_specific now a k v :
  preserves P (upsert_item_specific now a k v).
Proof. intros c H; exact H. Qed.

Lemma keys_insert_bid now a x y b w : preserves P (insert_bid now a x y b w).
Proof. intros c H; exact H. Qed.

Lemma keys_update_auction_completed now p n iid :
  preserves P (update_auction_completed now p n iid).
Proof.
  intros c [Hc [Hs Ha]]. split; [exact Hc|]. split; [exact Hs|].
  simpl. now rewrite map_key_update.
Qed.

Local Ltac statements :=
  preserve;
  auto using keys_commit, keys_rollback, keys_select_seller_id,
    keys_select_auction_id, keys_update_seller, keys_insert_seller,
    keys_update_auction, keys_insert_auction, keys_upsert_item_specific,
    keys_insert_bid, keys_update_auction_completed.

Lemma keys_get_seller_id now sd : preserves P (get_seller_id now sd).
Proof. statements. Qed.

Lemma keys_save_item now item given : preserves P (save_item now item given).
Proof. unfold save_item. destruct given; simpl; statements. Qed.

Lemma keys_save_items now items : preserves P (save_items now items).
Proof.
  unfold save_items. destruct items as [|item items]; [apply preserves_ret|].
  apply preserves_try.
  - apply preserves_bind; [|intros; apply keys_commit].
  apply preserves_for_each. intros x.
  apply preserves_bind; [apply keys_save_item | intros; apply preserves_ret].
  - intros e. apply preserves_bind; [apply keys_rollback|].
  intros; apply preserves_raise.
Qed.

Lemma keys_update_completed_items now items :
  preserves P (update_completed_items now items).
Proof.
  unfold update_completed_items.
  destruct items as [|item items]; [apply preserves_ret|].
  apply preserves_try.
  - apply preserves_bind; [|intros; apply keys_commit].
  apply preserves_for_each. intros x. unfold update_completed_item. statements.
  - intros e. apply preserves_bind; [apply keys_rollback|].
  intros; apply preserves_raise.
Qed.

Lemma keys_run_call k c : P c -> P (run_call k c).
Proof.
  destruct k; simpl; unfold run.
  - apply keys_get_seller_id.
  - apply keys_save_item.
  - apply keys_save_items.
  - apply keys_update_completed_items.
Qed.

Lemma keys_run_calls ks c : P c -> P (run_calls ks c).
Proof.
  revert c. induction ks as [|k ks IH]; intros c H; simpl; [exact H|].
  apply IH. now apply keys_run_call.
Qed.
End UniqueKeys.

(** The constraints of the schema hold under every statement. *)
Lemma consistent_seq_mono q q' t :
  sellers_id_seq q <= sellers_id_seq q' ->
  auctions_id_seq q <= auctions_id_seq q' ->
  consistent q t -> consistent q' t.
Proof.
  intros Hs Ha (Hk & Hp & Hbs & Hba). repeat split; try apply Hk; try apply Hp.
  - eapply Forall_impl; [|exact Hbs]. simpl. intros; lia.
  - eapply Forall_impl; [|exact Hba]. simpl. intros; lia.
Qed.

Section WellFormed.
Lemma wf_commit : preserves wf commit.
Proof. intros c [_ H]. now split. Qed.

Lemma wf_rollback : preserves wf rollback.
Proof. intros c [H _]. now split. Qed.

Lemma wf_select_seller_id uid : preserves wf (select_seller_id uid).
Proof. intros c H; exact H. Qed.

Lemma wf_select_auction_id iid : preserves wf (select_auction_id iid).
Proof. intros c H; exact H. Qed.

Lemma wf_update_seller now r f id : preserves wf (update_seller now r f id).
Proof.
  intros c [Hc ((Hs & Ha) & (Hps & Hpa) & (Hbs & Hba))]. split; [exact Hc|].
  unfold consistent, unique_keys, primary_keys, ids_below. simpl.
  rewrite !map_key_update by reflexivity. repeat split; assumption.
Qed.

Lemma wf_insert_seller now uid r f : preserves wf (insert_seller now uid r f).
Proof.
  intros c [Hc Hw]. unfold insert_seller.
  destruct (find_seller uid (sellers (working c))) eqn:Hf; simpl.
  - split; (eapply consistent_seq_mono; [| |eassumption]; simpl; lia).
  - split; [eapply consistent_seq_mono; [| |eassumption]; simpl; lia|].
  destruct Hw as ((Hs & Ha) & (Hps & Hpa) & (Hbs & Hba)).
  unfold consistent, unique_keys, primary_keys, ids_below. simpl.
  rewrite !map_app. simpl. repeat split; try assumption.
  + apply NoDup_snoc; [exact Hs|]. now apply find_seller_none.
  + apply NoDup_snoc; [exact Hps|].
  intros Hin. rewrite Forall_forall in Hbs. specialize (Hbs _ Hin). lia.
  + apply Forall_snoc; [|lia]. eapply Forall_impl; [|exact Hbs]. simpl. intros; lia.
Qed.

Lemma wf_update_auction now f id : preserves wf (update_auction now f id).
Proof.
  intros c [Hc ((Hs & Ha) & (Hps & Hpa) & (Hbs & Hba))]. split; [exact Hc|].
  unfold consistent, unique_keys, primary_keys, ids_below. simpl.
  rewrite !map_key_update by reflexivity. repeat split; assumption.
Qed.

Lemma wf_insert_auction now iid p e s f : preserves wf (insert_auction now iid p e s f).
Proof.
  intros c [Hc Hw]. unfold insert_auction.
  destruct (find_auction iid (auctions (working c))) eqn:Hf; simpl.
  - split; (eapply consistent_seq_mono; [| |eassumption]; simpl; lia).
  - split; [eapply consistent_seq_mono; [| |eassumption]; simpl; lia|].
  destruct Hw as ((Hs & Ha) & (Hps & Hpa) & (Hbs & Hba)).
  unfold consistent, unique_keys, primary_keys, ids_below. simpl.
  rewrite !map_app. simpl. repeat split; try assumption.
  + apply NoDup_snoc; [exact Ha|]. now apply find_auction_none.
  + apply NoDup_snoc; [exact Hpa|].
  intros Hin. rewrite Forall_forall in Hba. specialize (Hba _ Hin). lia.
  + apply Forall_snoc; [|lia]. eapply Forall_impl; [|exact Hba]. simpl. intros; lia.
Qed.

Lemma wf_upsert_item_specific now a k v : preserves wf (upsert_item_specific now a k v).
Proof. intros c H; exact H. Qed.

Lemma wf_insert_bid now a x y b w : preserves wf (insert_bid now a x y b w).
Proof. intros c H; exact H. Qed.

Lemma wf_update_auction_completed now p n iid :
  preserves wf (update_auction_completed now p n iid).
Proof.
  intros c [Hc ((Hs & Ha) & (Hps & Hpa) & (Hbs & Hba))]. split; [exact Hc|].
  unfold consistent, unique_keys, primary_keys, ids_below. simpl.
  rewrite !map_key_update by reflexivity. repeat split; assumption.
Qed.

Local Ltac statements :=
  preserve;
  auto using wf_commit, wf_rollback, wf_select_seller_id,
    wf_select_auction_id, wf_update_seller, wf_insert_seller,
    wf_update_auction, wf_insert_auction, wf_upsert_item_specific,
    wf_insert_bid, wf_update_auction_completed.

Lemma wf_get_seller_id now sd : preserves wf (get_seller_id now sd).
Proof. statements. Qed.

Lemma wf_save_auction now item sid : preserves wf (save_auction now item sid).
Proof. statements. Qed.

Lemma wf_save_item_specifics now aid m : preserves wf (save_item_specifics now aid m).
Proof. statements. Qed.

Lemma wf_save_bids now aid h : preserves wf (save_bids now aid h).
Proof. statements. Qed.

Lemma wf_save_item now item given : preserves wf (save_item now item given).
Proof. unfold save_item. destruct given; simpl; statements. Qed.

Lemma wf_save_each now items : preserves wf (save_each now items).
Proof.
  apply preserves_for_each. intros x.
  apply preserves_bind; [apply wf_save_item | intros; apply preserves_ret].
Qed.

Lemma wf_update_completed_item now item : preserves wf (update_completed_item now item).
Proof. unfold update_completed_item. statements. Qed.
End WellFormed.

Lemma wf_fresh : wf fresh.
Proof. repeat split; simpl; constructor. Qed.

(** ** Resolving a seller *)

Lemma get_seller_id_resolves now sd uid c :
  sd_ebay_user_id sd = Some uid ->
  exists r,
    fst (get_seller_id now sd c) = Ok (s_id r) /\
    find_seller uid (sellers (working (snd (get_seller_id now sd c)))) = Some r /\
    s_rating r = sd_rating sd /\
    s_feedback_score r = sd_feedback_score sd /\
    s_updated_at r = now /\
    match find_seller uid (sellers (working c)) with
    | Some r0 =>
        s_id r = s_id r0 /\ s_created_at r = s_created_at r0 /\
        List.length (sellers (working (snd (get_seller_id now sd c)))) =
        List.length (sellers (working c))
    | None =>
        List.length (sellers (working (snd (get_seller_id now sd c)))) =
        S (List.length (sellers (working c)))
    end.
Proof.
  intros Hu. destruct (find_seller uid (sellers (working c))) as [r0|] eqn:Hf.
  - rewrite (get_seller_id_found now sd uid r0 c Hu Hf). simpl.
    exists (refresh_seller now (sd_rating sd) (sd_feedback_score sd) r0).
    repeat split.
    + unfold find_seller in *.
      apply (find_map_same _ (fun x => Z.eqb (s_id x) (s_id r0))
               (refresh_seller now (sd_rating sd) (sd_feedback_score sd)));
        [reflexivity | exact Hf | apply Z.eqb_refl].
    + apply length_map.
  - rewrite (get_seller_id_new now sd uid c Hu Hf). simpl.
    exists (mkSeller (sellers_id_seq (sequences c)) uid (sd_rating sd)
              (sd_feedback_score sd) now now).
    split; [reflexivity|]. split.
    + unfold find_seller in *. rewrite find_app, Hf. simpl.
      rewrite String.eqb_refl. reflexivity.
    + repeat split. rewrite length_app. simpl. lia.
Qed.

(** C9.  Whatever calls are made on a store whose business keys are
    unique, committed and in the open transaction, they stay unique: no two
    sellers share an [ebay_user_id], no two auctions an [item_id].
    Resolving the same seller twice returns the same key both times; the
    first call adds at most one row, the second none, and the row then
    carries the rating, the feedback score and the call's time as
    [updated_at]. *)
Theorem business_keys_stay_unique :
  (forall ks c,
     unique_keys (committed c) -> unique_keys (working c) ->
     unique_keys (committed (run_calls ks c)) /\
     unique_keys (working (run_calls ks c))) /\
  (forall now1 now2 sd uid c,
     sd_ebay_user_id sd = Some uid ->
     let c1 := run (get_seller_id now1 sd) c in
     let c2 := run (get_seller_id now2 sd) c1 in
     exists r,
       result (get_seller_id now1 sd) c = Ok (s_id r) /\
       result (get_seller_id now2 sd) c1 = Ok (s_id r) /\
       (List.length (sellers (working c1)) <= S (List.length (sellers (working c))))%nat /\
       List.length (sellers (working c2)) = List.length (sellers (working c1)) /\
       find_seller uid (sellers (working c2)) = Some r /\
       s_rating r = sd_rating sd /\
       s_feedback_score r = sd_feedback_score sd /\
       s_updated_at r = now2).
Proof.
  split.
  - intros ks c Hc Hw. apply (keys_run_calls ks c). now split.
  - intros now1 now2 sd uid c Hu c1 c2. unfold run, result in *.
    destruct (get_seller_id_resolves now1 sd uid c Hu)
      as (r1 & Hres1 & Hfind1 & _ & _ & _ & Hlen1).
    destruct (get_seller_id_resolves now2 sd uid c1 Hu)
      as (r2 & Hres2 & Hfind2 & Hrat & Hfb & Hup & Hlen2).
    fold c1 in Hfind1, Hlen1. fold c2 in Hfind2, Hlen2.
    rewrite Hfind1 in Hlen2. destruct Hlen2 as (Hid & _ & Hlen2).
    exists r2. rewrite Hres1, Hres2, Hid. repeat split; auto.
    destruct (find_seller uid (sellers (working c))).
    + destruct Hlen1 as (_ & _ & ->). lia.
    + rewrite Hlen1. lia.
Qed.

Lemma business_keys_stay_unique_witness :
  (unique_keys (committed (run_calls [SaveItems 50 batch_of_three;
                                      SaveItem 60 (listing "1" 10000);
                                      GetSellerId 70 seller_s1;
                                      UpdateCompletedItems 80 [completion "1" 15000 5]]
                             fresh)) /\
   unique_keys (working (run_calls [SaveItems 50 batch_of_three;
                                    SaveItem 60 (listing "1" 10000);
                                    GetSellerId 70 seller_s1;
                                    UpdateCompletedItems 80 [completion "1" 15000 5]]
                           fresh))) /\
  exists r,
    result (get_seller_id 50 seller_s1) fresh = Ok (s_id r) /\
    result (get_seller_id 60 seller_s1) (run (get_seller_id 50 seller_s1) fresh)
      = Ok (s_id r) /\
    (List.length (sellers (working (run (get_seller_id 50 seller_s1) fresh))) <=
     S (List.length (sellers (working fresh))))%nat /\
    List.length (sellers (working (run (get_seller_id 60 seller_s1)
                                     (run (get_seller_id 50 seller_s1) fresh)))) =
    List.length (sellers (working (run (get_seller_id 50 seller_s1) fresh))) /\
    find_seller "s1" (sellers (working (run (get_seller_id 60 seller_s1)
                                          (run (get_seller_id 50 seller_s1) fresh))))
      = Some r /\
    s_rating r = sd_rating seller_s1 /\
    s_feedback_score r = sd_feedback_score seller_s1 /\
    s_updated_at r = 60.
Proof.
  split.
  - apply (proj1 business_keys_stay_unique); split; simpl; constructor.
  - exact (proj2 business_keys_stay_unique 50 60 seller_s1 "s1" fresh eq_refl).
Defined.

(** ** The status of an auction *)

Section Completed.
Variable iid : string.
Let J := completed_in iid.

Lemma completed_commit : preserves J commit.
Proof.
  intros c (Hwf & _ & Hw). split; [now apply wf_commit|]. now split.
Qed.

Lemma completed_rollback : preserves J rollback.
Proof.
  intros c (Hwf & Hc & _). split; [now apply wf_rollback|]. now split.
Qed.

(** A method that leaves the auctions alone keeps the status. *)
Lemma completed_by_frame {A} (m : M A) :
  preserves wf m ->
  (forall rows, preserves (fun c => auctions (working c) = rows) m) ->
  (forall t, preserves (fun c => committed c = t) m) ->
  preserves J m.
Proof.
  intros Hwf Hrows Hcom c (H & Hc & Hw). split; [now apply Hwf|].
  unfold status_of in *.
  rewrite (Hcom (committed c) c eq_refl).
  rewrite (Hrows (auctions (working c)) c eq_refl). now split.
Qed.

Lemma completed_get_seller_id now sd : preserves J (get_seller_id now sd).
Proof.
  apply completed_by_frame.
  - apply wf_get_seller_id.
  - intros rows. apply auctions_get_seller_id.
  - intros t. apply committed_get_seller_id.
Qed.

Lemma completed_save_item_specifics now aid m :
  preserves J (save_item_specifics now aid m).
Proof.
  apply completed_by_frame.
  - apply wf_save_item_specifics.
  - intros rows. apply auctions_save_item_specifics.
  - intros t. apply committed_save_item_specifics.
Qed.

Lemma completed_save_bids now aid h : preserves J (save_bids now aid h).
Proof.
  apply completed_by_frame.
  - apply wf_save_bids.
  - intros rows. apply auctions_save_bids.
  - intros t. apply committed_save_bids.
Qed.

(** In a consistent table the row found under an item id is the only row
    with its primary key. *)
Lemma other_key_other_id (l : list Auction) iid' r x :
  NoDup (map a_id l) ->
  find_auction iid' l = Some r ->
  In x l -> a_item_id x <> iid' -> Z.eqb (a_id x) (a_id r) = false.
Proof.
  intros Hnd Hf Hx Hne. apply Z.eqb_neq. intros Heq.
  pose proof (find_auction_key _ _ _ Hf) as Hk.
  apply find_some in Hf. destruct Hf as [Hr _].
  apply Hne. rewrite (NoDup_map_inj a_id l x r Hnd Hx Hr Heq). exact Hk.
Qed.

Lemma completed_save_auction now item sid :
  reopens iid item = false -> preserves J (save_auction now item sid).
Proof.
  intros Hre c (Hwf & Hc & Hw).
  pose proof (wf_save_auction now item sid c Hwf) as Hwf'.
  pose proof (committed_save_auction (committed c) now item sid c eq_refl) as Hcom.
  split; [exact Hwf'|]. split; [now rewrite Hcom|]. clear Hwf' Hcom.
  destruct (i_item_id item) as [iid'|] eqn:Hid;
  [|now rewrite save_auction_no_key].
  destruct (find_auction iid' (auctions (working c))) as [r|] eqn:Hf.
  - destruct (has_update_keys item) eqn:Hk.
  + rewrite (save_auction_found now item sid iid' r c Hid Hf Hk). simpl.
    unfold status_of in *; simpl.
    destruct (String.eqb_spec iid' iid) as [->|Hne].
    * unfold find_auction in *.
      rewrite (find_map_same _ _ (overwrite_auction now (facts_of item sid)) _ r);
        [|reflexivity|exact Hf|apply Z.eqb_refl].
      simpl. unfold reopens in Hre. rewrite Hid in Hre.
      unfold has_update_keys in Hk.
      destruct (i_title item) as [ti|]; [|discriminate].
      destruct (i_url item) as [ur|]; [|discriminate].
      destruct (i_auction_status item) as [st|]; [|discriminate].
      rewrite String.eqb_refl in Hre. simpl in Hre.
      apply negb_false_iff, String.eqb_eq in Hre. now subst.
    * unfold find_auction in *. rewrite find_map_other; [exact Hw|reflexivity|].
      intros x Hx Hkx. apply String.eqb_eq in Hkx.
      apply (other_key_other_id (auctions (working c)) iid' r x);
        [apply Hwf|exact Hf|exact Hx|congruence].
  + destruct (save_auction_found_raise now item sid iid' r c Hid Hf Hk) as [e ->].
    exact Hw.
  - destruct (has_insert_keys item) eqn:Hk.
  + rewrite (save_auction_new now item sid iid' c Hid Hf Hk). simpl.
    unfold status_of in *; simpl. unfold find_auction in *. rewrite find_app.
    destruct (find _ (auctions (working c))); [exact Hw|discriminate].
  + destruct (save_auction_new_raise now item sid iid' c Hid Hf Hk) as [e ->].
    exact Hw.
Qed.

Lemma completed_save_item now item given :
  reopens iid item = false -> preserves J (save_item now item given).
Proof.
  intros Hre. unfold save_item.
  apply preserves_try.
  - apply preserves_bind; [apply preserves_subscript|intros seller].
  apply preserves_bind; [apply completed_get_seller_id|intros sid].
  apply preserves_bind; [now apply completed_save_auction|intros aid].
  apply preserves_bind; [apply completed_save_item_specifics|intros _].
  apply preserves_bind; [apply completed_save_bids|intros _].
  apply preserves_bind; [|intros _; apply preserves_ret].
  destruct (negb given); [apply completed_commit|apply preserves_ret].
  - intros e. apply preserves_bind; [|intros _; apply preserves_raise].
  destruct (negb given); [apply completed_rollback|apply preserves_ret].
Qed.

Lemma completed_save_items now items :
  existsb (reopens iid) items = false -> preserves J (save_items now items).
Proof.
  intros Hre. unfold save_items.
  destruct items as [|item items]; [apply preserves_ret|].
  apply preserves_try.
  - apply preserves_bind; [|intros _; apply completed_commit].
  revert Hre. generalize (item :: items). clear item items.
  intros items. induction items as [|x items IH]; intros Hre; simpl.
  + apply preserves_ret.
  + simpl in Hre. apply orb_false_iff in Hre. destruct Hre as [Hx Hre].
    apply preserves_bind; [|intros _; now apply IH].
    apply preserves_bind; [now apply completed_save_item|].
    intros _; apply preserves_ret.
  - intros e. apply preserves_bind; [apply completed_rollback|].
  intros _; apply preserves_raise.
Qed.

Lemma completed_update_completed_item now item :
  preserves J (update_completed_item now item).
Proof.
  intros c (Hwf & Hc & Hw).
  split; [now apply wf_update_completed_item|].
  rewrite (committed_update_completed_item (committed c) now item c eq_refl).
  split; [exact Hc|].
  destruct (i_item_id item) as [iid'|] eqn:Hid.
  - unfold status_of in *.
  rewrite (update_completed_item_auctions now item iid' c Hid).
  unfold find_auction in *.
  destruct (find _ (auctions (working c))) as [r|] eqn:Hf; [|discriminate].
  destruct (String.eqb_spec iid' iid) as [->|Hne].
  + rewrite (find_map_same _ _ (complete_auction now (i_final_price item)
                                  (get (i_num_bids item) 0)) _ r);
      [reflexivity|reflexivity|exact Hf|].
    apply find_some in Hf. tauto.
  + rewrite find_map_other; [now rewrite Hf|reflexivity|].
    intros x _ Hx. apply String.eqb_eq in Hx. apply String.eqb_neq. congruence.
  - unfold update_completed_item. rewrite Hid. exact Hw.
Qed.

Lemma completed_update_completed_items now items :
  preserves J (update_completed_items now items).
Proof.
  unfold update_completed_items.
  destruct items as [|item items]; [apply preserves_ret|].
  apply preserves_try.
  - apply preserves_bind; [|intros _; apply completed_commit].
  apply preserves_for_each. intros x. apply completed_update_completed_item.
  - intros e. apply preserves_bind; [apply completed_rollback|].
  intros _; apply preserves_raise.
Qed.

Lemma completed_run_call k c : call_reopens iid k = false -> J c -> J (run_call k c).
Proof.
  destruct k; simpl; unfold run; intros Hre.
  - apply completed_get_seller_id.
  - now apply completed_save_item.
  - now apply completed_save_items.
  - apply completed_update_completed_items.
Qed.

Lemma completed_run_calls ks c :
  existsb (call_reopens iid) ks = false -> J c -> J (run_calls ks c).
Proof.
  revert c. induction ks as [|k ks IH]; intros c Hre H; simpl; [exact H|].
  simpl in Hre. apply orb_false_iff in Hre. destruct Hre as [Hk Hre].
  apply IH; [exact Hre|]. now apply completed_run_call.
Qed.
End Completed.

(** C4, as the code has it.  The status of an auction is the one its last
    write gave it: a completion writes [completed], an upsert writes the
    status of the observed item.  In a consistent store an auction that is
    completed therefore stays completed through every sequence of calls in
    which no upsert carries its item id with another status. *)
Theorem completed_until_observed_again :
  forall ks iid c,
    wf c ->
    status_of iid (committed c) = Some "completed" ->
    status_of iid (working c) = Some "completed" ->
    existsb (call_reopens iid) ks = false ->
    status_of iid (committed (run_calls ks c)) = Some "completed" /\
    status_of iid (working (run_calls ks c)) = Some "completed".
Proof.
  intros ks iid c Hwf Hc Hw Hre.
  destruct (completed_run_calls iid ks c Hre) as (_ & H1 & H2).
  - split; [exact Hwf|]. now split.
  - now split.
Qed.

Lemma completed_until_observed_again_witness :
  status_of "123"
    (committed (run_calls [UpdateCompletedItems 70 [completion "123" 99900 7];
                           SaveItems 80 [listing "456" 20000];
                           SaveItems 90 [listing_with_status "123" 10000 "completed"]]
                  finalized_store)) = Some "completed" /\
  status_of "123"
    (working (run_calls [UpdateCompletedItems 70 [completion "123" 99900 7];
                         SaveItems 80 [listing "456" 20000];
                         SaveItems 90 [listing_with_status "123" 10000 "completed"]]
                finalized_store)) = Some "completed".
Proof.
  apply completed_until_observed_again.
  - repeat split; simpl; repeat constructor; simpl; try lia; intuition discriminate.
  - reflexivity.
  - reflexivity.
  - reflexivity.
Defined.

(** C4, as the claim has it, fails when a finalized auction is observed
    again among the active listings: its status goes from [completed] back
    to [active], and a later completion completes it a second time. *)
Lemma completed_auction_becomes_active_again :
  let c1 := run_calls [SaveItems 50 [listing "123" 10000]] fresh in
  let c2 := run_calls [UpdateCompletedItems 60 [completion "123" 15000 5]] c1 in
  let c3 := run_calls [SaveItems 70 [listing "123" 10000]] c2 in
  let c4 := run_calls [UpdateCompletedItems 80 [completion "123" 16000 6]] c3 in
  status_of "123" (committed c1) = Some "active" /\
  status_of "123" (committed c2) = Some "completed" /\
  status_of "123" (committed c3) = Some "active" /\
  status_of "123" (committed c4) = Some "completed".
Proof. repeat split; reflexivity. Qed.

(** ** Replaying upserts *)

Section Upsert.
Context {R X I V : Type}.
Variable matches : X -> R -> bool.
Variable upd : Z -> X -> R -> R.
Variable ins : Z -> X -> Z -> R.
Variable imm : R -> I.
Variable view : R -> V.
Variables t1 t2 : Z.

Hypothesis matches_imm : forall x r r', imm r = imm r' -> matches x r = matches x r'.
Hypothesis upd_imm : forall t x r, imm (upd t x r) = imm r.
Hypothesis ins_matches : forall t x id, matches x (ins t x id) = true.
Hypothesis upd_view :
  forall x r r', imm r = imm r' -> view (upd t2 x r) = view (upd t1 x r').
Hypothesis ins_view :
  forall x r id, imm r = imm (ins t1 x id) -> view (upd t2 x r) = view (ins t1 x id).

Lemma cupd_imm t x r : imm (cupd matches upd t x r) = imm r.
Proof. unfold cupd. destruct (matches x r); [apply upd_imm | reflexivity]. Qed.

Lemma replay_imm t xs r : imm (replay matches upd t xs r) = imm r.
Proof.
  revert r. induction xs as [|x xs IH]; intros r; simpl; [reflexivity|].
  unfold replay in *. simpl. rewrite IH. apply cupd_imm.
Qed.

Lemma replay_snoc t xs x r :
  replay matches upd t (xs ++ [x]) r =
  cupd matches upd t x (replay matches upd t xs r).
Proof. unfold replay. now rewrite fold_left_app. Qed.

Lemma existsb_cupd t x y rows :
  existsb (matches y) (map (cupd matches upd t x) rows) = existsb (matches y) rows.
Proof.
  induction rows as [|r rows IH]; simpl; [reflexivity|].
  rewrite IH. f_equal. apply matches_imm, cupd_imm.
Qed.

Lemma ustep_keeps t x y rows rows' :
  ustep matches upd ins t x rows rows' -> existsb (matches y) rows = true ->
  existsb (matches y) rows' = true.
Proof.
  intros [[_ ->]|[_ [id ->]]] H.
  - now rewrite existsb_cupd.
  - rewrite existsb_app, H. reflexivity.
Qed.

Lemma ustep_adds t x rows rows' :
  ustep matches upd ins t x rows rows' -> existsb (matches x) rows' = true.
Proof.
  intros [[H ->]|[_ [id ->]]].
  - now rewrite existsb_cupd.
  - rewrite existsb_app. simpl. rewrite ins_matches. now rewrite orb_true_r.
Qed.

Lemma upath_keeps t xs y rows rows' :
  upath matches upd ins t xs rows rows' -> existsb (matches y) rows = true ->
  existsb (matches y) rows' = true.
Proof.
  revert rows. induction xs as [|x xs IH]; simpl; intros rows H Hy.
  - now subst.
  - destruct H as (rows1 & Hstep & Hpath).
    apply (IH rows1 Hpath). now apply (ustep_keeps t x y rows).
Qed.

Lemma upath_adds t xs rows rows' :
  upath matches upd ins t xs rows rows' ->
  forall x, In x xs -> existsb (matches x) rows' = true.
Proof.
  revert rows. induction xs as [|x xs IH]; simpl; intros rows H y Hy; [contradiction|].
  destruct H as (rows1 & Hstep & Hpath). destruct Hy as [<-|Hy].
  - apply (upath_keeps t xs x rows1 rows' Hpath). now apply (ustep_adds t x rows).
  - now apply (IH rows1).
Qed.

Lemma upath_snoc t xs x rows rows' :
  upath matches upd ins t (xs ++ [x]) rows rows' <->
  exists rows1,
    upath matches upd ins t xs rows rows1 /\ ustep matches upd ins t x rows1 rows'.
Proof.
  revert rows. induction xs as [|y xs IH]; simpl; intros rows.
  - split.
    + intros (rows1 & Hstep & ->). now exists rows.
    + intros (rows1 & -> & Hstep). now exists rows'.
  - split.
    + intros (rows1 & Hstep & Hpath). apply IH in Hpath.
      destruct Hpath as (rows2 & Hpath & Hlast).
      exists rows2. split; [|exact Hlast]. now exists rows1.
    + intros (rows2 & (rows1 & Hstep & Hpath) & Hlast).
      exists rows1. split; [exact Hstep|]. apply IH. now exists rows2.
Qed.

(** When every key is there, a pass only updates. *)
Lemma upath_replay t xs rows rows' :
  (forall x, In x xs -> existsb (matches x) rows = true) ->
  upath matches upd ins t xs rows rows' -> rows' = map (replay matches upd t xs) rows.
Proof.
  revert rows. induction xs as [|x xs IH]; simpl; intros rows Hall H.
  - subst. symmetry. apply map_id.
  - destruct H as (rows1 & Hstep & Hpath).
    destruct Hstep as [[_ ->]|[Hno _]].
    + rewrite (IH _ (fun y Hy => eq_trans (existsb_cupd t x y rows)
                                   (Hall y (or_intror Hy))) Hpath).
      rewrite map_map. reflexivity.
    + rewrite (Hall x (or_introl eq_refl)) in Hno. discriminate.
Qed.

(** After a pass at [t1], replaying it at [t2] shows the same rows. *)
Lemma upath_fixed xs rows rows1 :
  upath matches upd ins t1 xs rows rows1 ->
  forall r, In r rows1 -> view (replay matches upd t2 xs r) = view r.
Proof.
  revert rows1. induction xs as [|x xs IH] using rev_ind; intros rows1 H r Hr.
  - reflexivity.
  - apply upath_snoc in H. destruct H as (rows0 & Hpath & Hstep).
    rewrite replay_snoc.
    assert (Hold : forall r0, In r0 rows0 -> matches x r0 = false ->
                   view (cupd matches upd t2 x (replay matches upd t2 xs r0)) = view r0).
    { intros r0 Hr0 Hm. unfold cupd.
      rewrite (matches_imm x _ r0 (replay_imm t2 xs r0)), Hm.
      now apply (IH rows0). }
    assert (Hnew : forall r0 r1, imm r1 = imm r0 -> matches x r1 = true ->
                   cupd matches upd t2 x (replay matches upd t2 xs r1) =
                   upd t2 x (replay matches upd t2 xs r1)).
    { intros r0 r1 _ Hm. unfold cupd.
      now rewrite (matches_imm x _ r1 (replay_imm t2 xs r1)), Hm. }
    destruct Hstep as [[_ ->]|[Hno [id ->]]].
    + apply in_map_iff in Hr. destruct Hr as (r0 & <- & Hr0).
      unfold cupd at 2 3. destruct (matches x r0) eqn:Hm.
      * rewrite (Hnew r0); [|apply upd_imm|].
        -- apply upd_view. rewrite replay_imm. apply upd_imm.
        -- now rewrite (matches_imm x _ r0 (upd_imm t1 x r0)).
      * now apply Hold.
    + apply in_app_or in Hr. destruct Hr as [Hr|[<-|[]]].
      * apply Hold; [exact Hr|].
        rewrite existsb_find in Hno.
        destruct (find (matches x) rows0) eqn:Hf; [discriminate|].
        now apply (find_none _ _ Hf).
      * rewrite (Hnew (ins t1 x id)); [|reflexivity|apply ins_matches].
        apply ins_view. apply replay_imm.
Qed.

(** A pass replayed on its own result changes nothing that [view] shows. *)
Lemma upath_twice xs rows rows1 rows2 :
  upath matches upd ins t1 xs rows rows1 -> upath matches upd ins t2 xs rows1 rows2 ->
  map view rows2 = map view rows1.
Proof.
  intros H1 H2.
  rewrite (upath_replay t2 xs rows1 rows2 (upath_adds t1 xs rows rows1 H1) H2).
  rewrite map_map. apply map_ext_in. intros r Hr.
  now apply (upath_fixed xs rows rows1).
Qed.

Lemma extends_refl rows : extends imm rows rows.
Proof. intros p Hp r Hr. now exists r. Qed.

Lemma extends_trans rows1 rows2 rows3 :
  extends imm rows1 rows2 -> extends imm rows2 rows3 -> extends imm rows1 rows3.
Proof.
  intros H12 H23 p Hp r Hr.
  destruct (H12 p Hp r Hr) as (r2 & Hr2 & Hi2).
  destruct (H23 p Hp r2 Hr2) as (r3 & Hr3 & Hi3).
  exists r3. split; [exact Hr3|congruence].
Qed.

Lemma ustep_extends t x rows rows' :
  ustep matches upd ins t x rows rows' -> extends imm rows rows'.
Proof.
  intros [[_ ->]|[_ [id ->]]] p Hp r Hr.
  - exists (cupd matches upd t x r). split; [|apply cupd_imm].
    rewrite find_map; [now rewrite Hr|].
    intros r0. apply Hp, cupd_imm.
  - exists r. split; [|reflexivity]. now rewrite find_app, Hr.
Qed.

Lemma upath_extends t xs rows rows' :
  upath matches upd ins t xs rows rows' -> extends imm rows rows'.
Proof.
  revert rows. induction xs as [|x xs IH]; simpl; intros rows H.
  - subst. apply extends_refl.
  - destruct H as (rows1 & Hstep & Hpath).
    eapply extends_trans; [eapply ustep_extends; eassumption|now apply IH].
Qed.

Lemma upath_app t xs ys rows rows1 rows2 :
  upath matches upd ins t xs rows rows1 ->
  upath matches upd ins t ys rows1 rows2 ->
  upath matches upd ins t (xs ++ ys) rows rows2.
Proof.
  revert rows. induction xs as [|x xs IH]; simpl; intros rows H1 H2.
  - now subst.
  - destruct H1 as (rows0 & Hstep & Hpath). exists rows0. split; [exact Hstep|].
    now apply IH.
Qed.
End Upsert.

(** ** The three tables as upserts *)

Lemma seller_matches_imm x r r' :
  seller_imm r = seller_imm r' -> seller_matches x r = seller_matches x r'.
Proof. unfold seller_imm, seller_matches. intros H. injection H as _ -> _. reflexivity. Qed.

Lemma seller_upd_imm t x r : seller_imm (seller_upd t x r) = seller_imm r.
Proof. reflexivity. Qed.

Lemma seller_ins_matches t x id : seller_matches x (seller_ins t x id) = true.
Proof. apply String.eqb_refl. Qed.

Lemma seller_upd_view t1 t2 x r r' :
  seller_imm r = seller_imm r' ->
  seller_but_updated_at (seller_upd t2 x r) = seller_but_updated_at (seller_upd t1 x r').
Proof.
  unfold seller_imm, seller_but_updated_at, seller_upd. simpl.
  intros H. injection H as -> -> ->. reflexivity.
Qed.

Lemma seller_ins_view t1 t2 x r id :
  seller_imm r = seller_imm (seller_ins t1 x id) ->
  seller_but_updated_at (seller_upd t2 x r) = seller_but_updated_at (seller_ins t1 x id).
Proof.
  unfold seller_imm, seller_but_updated_at, seller_upd. simpl.
  intros H. injection H as -> -> ->. reflexivity.
Qed.

Lemma seller_upd_same t x r r' :
  seller_imm r = seller_imm r' -> seller_upd t x r = seller_upd t x r'.
Proof.
  unfold seller_imm, seller_upd, refresh_seller.
  intros H. injection H as -> -> ->. reflexivity.
Qed.

Lemma seller_ins_same t x r id :
  seller_imm r = seller_imm (seller_ins t x id) -> seller_upd t x r = seller_ins t x id.
Proof.
  unfold seller_imm, seller_upd, refresh_seller. simpl.
  intros H. injection H as -> -> ->. reflexivity.
Qed.

Lemma auction_matches_imm x r r' :
  auction_imm r = auction_imm r' -> auction_matches x r = auction_matches x r'.
Proof.
  unfold auction_imm, auction_matches. intros H. injection H as _ -> _ _ _ _.
  reflexivity.
Qed.

Lemma auction_upd_imm t x r : auction_imm (auction_upd t x r) = auction_imm r.
Proof. reflexivity. Qed.

Lemma auction_ins_matches t x id : auction_matches x (auction_ins t x id) = true.
Proof. apply String.eqb_refl. Qed.

Lemma auction_upd_view t1 t2 x r r' :
  auction_imm r = auction_imm r' ->
  auction_but_updated_at (auction_upd t2 x r) =
  auction_but_updated_at (auction_upd t1 x r').
Proof.
  unfold auction_imm, auction_but_updated_at, auction_upd. simpl.
  intros H. injection H as -> -> -> -> -> ->. reflexivity.
Qed.

Lemma auction_ins_view t1 t2 x r id :
  auction_imm r = auction_imm (auction_ins t1 x id) ->
  auction_but_updated_at (auction_upd t2 x r) =
  auction_but_updated_at (auction_ins t1 x id).
Proof.
  unfold auction_imm, auction_but_updated_at, auction_upd. simpl.
  intros H. injection H as -> -> -> -> -> ->. reflexivity.
Qed.

Lemma auction_upd_same t x r r' :
  auction_imm r = auction_imm r' -> auction_upd t x r = auction_upd t x r'.
Proof.
  unfold auction_imm, auction_upd, overwrite_auction.
  intros H. injection H as -> -> -> -> -> ->. reflexivity.
Qed.

Lemma auction_ins_same t x r id :
  auction_imm r = auction_imm (auction_ins t x id) ->
  auction_upd t x r = auction_ins t x id.
Proof.
  unfold auction_imm, auction_upd, overwrite_auction. simpl.
  intros H. injection H as -> -> -> -> -> ->. reflexivity.
Qed.

Lemma specific_matches_imm x r r' :
  specific_imm r = specific_imm r' -> specific_matches x r = specific_matches x r'.
Proof.
  unfold specific_imm, specific_matches, same_specific.
  intros H. injection H as _ -> -> _. reflexivity.
Qed.

Lemma specific_upd_imm t x r : specific_imm (specific_upd t x r) = specific_imm r.
Proof. reflexivity. Qed.

Lemma specific_ins_matches t x id : specific_matches x (specific_ins t x id) = true.
Proof.
  unfold specific_matches, same_specific. simpl.
  now rewrite Z.eqb_refl, String.eqb_refl.
Qed.

Lemma specific_upd_same t1 t2 x r r' :
  specific_imm r = specific_imm r' -> specific_upd t2 x r = specific_upd t1 x r'.
Proof.
  unfold specific_imm, specific_upd, set_spec_value.
  intros H. injection H as -> -> -> ->. reflexivity.
Qed.

Lemma specific_ins_same t1 t2 x r id :
  specific_imm r = specific_imm (specific_ins t1 x id) ->
  specific_upd t2 x r = specific_ins t1 x id.
Proof.
  unfold specific_imm, specific_upd, set_spec_value. simpl.
  intros H. injection H as -> -> -> ->. reflexivity.
Qed.

(** A batch replayed leaves the sellers, the auctions and the item
    specifics it has written as they are, [updated_at] apart. *)
Lemma sellers_twice t1 t2 xs rows rows1 rows2 :
  upath seller_matches seller_upd seller_ins t1 xs rows rows1 ->
  upath seller_matches seller_upd seller_ins t2 xs rows1 rows2 ->
  map seller_but_updated_at rows2 = map seller_but_updated_at rows1.
Proof.
  apply (upath_twice seller_matches seller_upd seller_ins seller_imm
           seller_but_updated_at t1 t2);
    auto using seller_matches_imm, seller_upd_imm, seller_ins_matches,
      seller_upd_view, seller_ins_view.
Qed.

Lemma auctions_twice t1 t2 xs rows rows1 rows2 :
  upath auction_matches auction_upd auction_ins t1 xs rows rows1 ->
  upath auction_matches auction_upd auction_ins t2 xs rows1 rows2 ->
  map auction_but_updated_at rows2 = map auction_but_updated_at rows1.
Proof.
  apply (upath_twice auction_matches auction_upd auction_ins auction_imm
           auction_but_updated_at t1 t2);
    auto using auction_matches_imm, auction_upd_imm, auction_ins_matches,
      auction_upd_view, auction_ins_view.
Qed.

Lemma specifics_twice t1 t2 xs rows rows1 rows2 :
  upath specific_matches specific_upd specific_ins t1 xs rows rows1 ->
  upath specific_matches specific_upd specific_ins t2 xs rows1 rows2 ->
  rows2 = rows1.
Proof.
  intros H1 H2.
  rewrite <- (map_id rows2), <- (map_id rows1).
  revert H1 H2.
  apply (upath_twice specific_matches specific_upd specific_ins specific_imm
           (fun r => r) t1 t2);
    auto using specific_matches_imm, specific_upd_imm, specific_ins_matches,
      specific_upd_same, specific_ins_same.
Qed.

Lemma sellers_twice_same_time t xs rows rows1 rows2 :
  upath seller_matches seller_upd seller_ins t xs rows rows1 ->
  upath seller_matches seller_upd seller_ins t xs rows1 rows2 ->
  rows2 = rows1.
Proof.
  intros H1 H2.
  rewrite <- (map_id rows2), <- (map_id rows1).
  revert H1 H2.
  apply (upath_twice seller_matches seller_upd seller_ins seller_imm
           (fun r => r) t t);
    auto using seller_matches_imm, seller_upd_imm, seller_ins_matches,
      seller_upd_same, seller_ins_same.
Qed.

Lemma auctions_twice_same_time t xs rows rows1 rows2 :
  upath auction_matches auction_upd auction_ins t xs rows rows1 ->
  upath auction_matches auction_upd auction_ins t xs rows1 rows2 ->
  rows2 = rows1.
Proof.
  intros H1 H2.
  rewrite <- (map_id rows2), <- (map_id rows1).
  revert H1 H2.
  apply (upath_twice auction_matches auction_upd auction_ins auction_imm
           (fun r => r) t t);
    auto using auction_matches_imm, auction_upd_imm, auction_ins_matches,
      auction_upd_same, auction_ins_same.
Qed.

(** ** [save_item] as three upserts *)

Lemma seller_by_id_by_key l uid r :
  NoDup (map s_id l) -> NoDup (map s_ebay_user_id l) ->
  find_seller uid l = Some r ->
  forall x, In x l -> Z.eqb (s_id x) (s_id r) = String.eqb (s_ebay_user_id x) uid.
Proof.
  intros Hid Hkey Hf x Hx.
  pose proof (find_seller_key _ _ _ Hf) as Hk.
  apply find_some in Hf. destruct Hf as [Hr _].
  destruct (String.eqb_spec (s_ebay_user_id x) uid) as [He|Hne].
  - apply Z.eqb_eq. f_equal.
    apply (NoDup_map_inj s_ebay_user_id l x r Hkey Hx Hr). congruence.
  - apply Z.eqb_neq. intros He. apply Hne.
    now rewrite (NoDup_map_inj s_id l x r Hid Hx Hr He).
Qed.

Lemma auction_by_id_by_key l iid r :
  NoDup (map a_id l) -> NoDup (map a_item_id l) ->
  find_auction iid l = Some r ->
  forall x, In x l -> Z.eqb (a_id x) (a_id r) = String.eqb (a_item_id x) iid.
Proof.
  intros Hid Hkey Hf x Hx.
  pose proof (find_auction_key _ _ _ Hf) as Hk.
  apply find_some in Hf. destruct Hf as [Hr _].
  destruct (String.eqb_spec (a_item_id x) iid) as [He|Hne].
  - apply Z.eqb_eq. f_equal.
    apply (NoDup_map_inj a_item_id l x r Hkey Hx Hr). congruence.
  - apply Z.eqb_neq. intros He. apply Hne.
    now rewrite (NoDup_map_inj a_id l x r Hid Hx Hr He).
Qed.

Lemma get_seller_id_ok now sd c sid c1 :
  get_seller_id now sd c = (Ok sid, c1) ->
  exists uid, sd_ebay_user_id sd = Some uid.
Proof.
  destruct (sd_ebay_user_id sd) as [uid|] eqn:Hu; [now exists uid|].
  rewrite (get_seller_id_no_key now sd c Hu). discriminate.
Qed.

Lemma get_seller_id_step now sd uid c :
  wf c -> sd_ebay_user_id sd = Some uid ->
  exists sid c1,
    get_seller_id now sd c = (Ok sid, c1) /\
    ustep seller_matches seller_upd seller_ins now
      (mkSellerWrite uid (sd_rating sd) (sd_feedback_score sd))
      (sellers (working c)) (sellers (working c1)) /\
    find_seller uid (sellers (working c1)) <> None /\
    seller_id_in (sellers (working c1)) uid = sid /\
    auctions (working c1) = auctions (working c) /\
    item_specifics (working c1) = item_specifics (working c).
Proof.
  intros Hwf Hu.
  destruct (get_seller_id_resolves now sd uid c Hu) as (r & Hres & Hfind & _).
  destruct (find_seller uid (sellers (working c))) as [r0|] eqn:Hf.
  - rewrite (get_seller_id_found now sd uid r0 c Hu Hf) in *. simpl in *.
    eexists _, _. split; [reflexivity|]. simpl.
    split; [|split; [now rewrite Hfind|split; [|now split]]].
    + left. split.
      * unfold find_seller in Hf. rewrite existsb_find.
        unfold seller_matches; simpl. now rewrite Hf.
      * apply map_ext_in. intros x Hx. unfold cupd, seller_matches, seller_upd; simpl.
        destruct Hwf as [_ ((Hk & _) & (Hp & _) & _)].
        now rewrite (seller_by_id_by_key _ uid r0 Hp Hk Hf x Hx).
    + unfold seller_id_in. rewrite Hfind. now inversion Hres.
  - rewrite (get_seller_id_new now sd uid c Hu Hf) in *. simpl in *.
    eexists _, _. split; [reflexivity|]. simpl.
    split; [|split; [now rewrite Hfind|split; [|now split]]].
    + right. split.
      * unfold find_seller in Hf. rewrite existsb_find.
        unfold seller_matches; simpl. now rewrite Hf.
      * now exists (sellers_id_seq (sequences c)).
    + unfold seller_id_in. rewrite Hfind. now inversion Hres.
Qed.

(** How [save_auction] can return. *)
Lemma save_auction_ok now item sid c aid c1 :
  save_auction now item sid c = (Ok aid, c1) ->
  exists iid,
    i_item_id item = Some iid /\ has_update_keys item = true /\
    (find_auction iid (auctions (working c)) = None -> has_insert_keys item = true).
Proof.
  intros H.
  destruct (i_item_id item) as [iid|] eqn:Hid;
    [|rewrite (save_auction_no_key now item sid c Hid) in H; discriminate].
  exists iid. split; [reflexivity|].
  destruct (find_auction iid (auctions (working c))) as [r|] eqn:Hf.
  - split; [|discriminate].
    destruct (has_update_keys item) eqn:Hk; [reflexivity|].
    destruct (save_auction_found_raise now item sid iid r c Hid Hf Hk) as [e He].
    rewrite He in H. discriminate.
  - destruct (has_insert_keys item) eqn:Hk.
    + split; [|reflexivity]. unfold has_insert_keys in Hk.
      destruct (i_search_pattern item), (i_auction_end_time item);
        try discriminate. exact Hk.
    + destruct (save_auction_new_raise now item sid iid c Hid Hf Hk) as [e He].
      rewrite He in H. discriminate.
Qed.

Lemma save_auction_step now item sid iid c :
  wf c -> i_item_id item = Some iid -> has_update_keys item = true ->
  (find_auction iid (auctions (working c)) = None -> has_insert_keys item = true) ->
  exists aid c1,
    save_auction now item sid c = (Ok aid, c1) /\
    ustep auction_matches auction_upd auction_ins now
      (mkAuctionWrite iid (get (i_search_pattern item) "")
         (get (i_auction_end_time item) 0) (i_auction_start_time item)
         (facts_of item sid))
      (auctions (working c)) (auctions (working c1)) /\
    find_auction iid (auctions (working c1)) <> None /\
    auction_id_in (auctions (working c1)) iid = aid /\
    sellers (working c1) = sellers (working c) /\
    item_specifics (working c1) = item_specifics (working c).
Proof.
  intros Hwf Hid Hk Hins.
  destruct (find_auction iid (auctions (working c))) as [r|] eqn:Hf.
  - rewrite (save_auction_found now item sid iid r c Hid Hf Hk).
    eexists _, _. split; [reflexivity|]. simpl.
    assert (Hfind : find_auction iid
              (map (fun x => if Z.eqb (a_id x) (a_id r)
                             then overwrite_auction now (facts_of item sid) x else x)
                 (auctions (working c))) =
            Some (overwrite_auction now (facts_of item sid) r)).
    { unfold find_auction in *.
      apply (find_map_same _ (fun x => Z.eqb (a_id x) (a_id r)));
        [reflexivity|exact Hf|apply Z.eqb_refl]. }
    split; [|split; [now rewrite Hfind|split; [|now split]]].
    + left. split.
      * unfold find_auction in Hf. rewrite existsb_find.
        unfold auction_matches; simpl. now rewrite Hf.
      * apply map_ext_in. intros x Hx. unfold cupd, auction_matches, auction_upd; simpl.
        destruct Hwf as [_ ((_ & Hkey) & (_ & Hp) & _)].
        now rewrite (auction_by_id_by_key _ iid r Hp Hkey Hf x Hx).
    + unfold auction_id_in. now rewrite Hfind.
  - rewrite (save_auction_new now item sid iid c Hid Hf (Hins eq_refl)).
    eexists _, _. split; [reflexivity|]. simpl.
    assert (Hfind : find_auction iid
              (auctions (working c) ++
               [new_auction now (auctions_id_seq (sequences c)) iid
                  (get (i_search_pattern item) "") (get (i_auction_end_time item) 0)
                  (i_auction_start_time item) (facts_of item sid)]) =
            Some (new_auction now (auctions_id_seq (sequences c)) iid
                    (get (i_search_pattern item) "") (get (i_auction_end_time item) 0)
                    (i_auction_start_time item) (facts_of item sid))).
    { unfold find_auction in *. rewrite find_app, Hf. simpl.
      now rewrite String.eqb_refl. }
    split; [|split; [now rewrite Hfind|split; [|now split]]].
    + right. split.
      * unfold find_auction in Hf. rewrite existsb_find.
        unfold auction_matches; simpl. now rewrite Hf.
      * now exists (auctions_id_seq (sequences c)).
    + unfold auction_id_in. now rewrite Hfind.
Qed.

Lemma upsert_item_specific_step now aid k v c :
  ustep specific_matches specific_upd specific_ins now (mkSpecificWrite aid k v)
    (item_specifics (working c))
    (item_specifics (working (snd (upsert_item_specific now aid k v c)))).
Proof.
  unfold upsert_item_specific; simpl.
  destruct (existsb (same_specific aid k) (item_specifics (working c))) eqn:He.
  - left. split; [exact He|reflexivity].
  - right. split; [exact He|]. now exists (item_specifics_id_seq (sequences c)).
Qed.

Lemma save_item_specifics_path now aid m c :
  exists c1,
    save_item_specifics now aid m c = (Ok tt, c1) /\
    upath specific_matches specific_upd specific_ins now
      (map (fun kv => mkSpecificWrite aid (fst kv) (snd kv)) (get m []))
      (item_specifics (working c)) (item_specifics (working c1)) /\
    sellers (working c1) = sellers (working c) /\
    auctions (working c1) = auctions (working c).
Proof.
  destruct m as [pairs|]; [|exists c; simpl; auto].
  rewrite save_item_specifics_loop. simpl get.
  revert c. induction pairs as [|[k v] pairs IH]; intros c.
  - exists c. simpl; auto.
  - simpl. unfold bind at 1.
    pose proof (upsert_item_specific_step now aid k v c) as Hstep.
    destruct (upsert_item_specific now aid k v c) as [[[]|e] c0] eqn:E;
      [|discriminate E].
    assert (Hs : sellers (working c0) = sellers (working c)).
    { unfold upsert_item_specific in E. now inversion E. }
    assert (Ha : auctions (working c0) = auctions (working c)).
    { unfold upsert_item_specific in E. now inversion E. }
    destruct (IH c0) as (c1 & Heq & Hpath & Hs1 & Ha1).
    exists c1. split; [exact Heq|]. split; [|split; congruence].
    exists (item_specifics (working c0)). split; [exact Hstep|exact Hpath].
Qed.

Section TablesFrame.
Variables (s : list Seller) (a : list Auction) (p : list ItemSpecific).
Let P := fun c =>
  sellers (working c) = s /\ auctions (working c) = a /\ item_specifics (working c) = p.

Lemma tables_insert_bid now aid x y b w : preserves P (insert_bid now aid x y b w).
Proof. intros c H; exact H. Qed.

Lemma tables_save_bids now aid h : preserves P (save_bids now aid h).
Proof. preserve; apply tables_insert_bid. Qed.
End TablesFrame.

Lemma save_bids_frame now aid h c :
  sellers (working (snd (save_bids now aid h c))) = sellers (working c) /\
  auctions (working (snd (save_bids now aid h c))) = auctions (working c) /\
  item_specifics (working (snd (save_bids now aid h c))) = item_specifics (working c).
Proof. now apply (tables_save_bids _ _ _ now aid h c). Qed.

(** Whether the bids of an item can be stored depends on the item alone. *)
Lemma save_bids_ok_anywhere now aid h c :
  fst (save_bids now aid h c) = Ok tt ->
  forall now' aid' d, fst (save_bids now' aid' h d) = Ok tt.
Proof.
  destruct h as [l|]; [|reflexivity].
  assert (Heq : forall n a0, save_bids n a0 (Some l) =
            for_each l (fun bid =>
              amount <- subscript "amount" (bd_amount bid) ;;
              time <- subscript "time" (bd_time bid) ;;
              insert_bid n a0 amount time (bd_bidder_id bid)
                (get (bd_winning_bid bid) false))).
  { intros n a0. destruct l; reflexivity. }
  intros H now' aid' d. rewrite Heq in *. clear Heq.
  revert c d H. induction l as [|bid l IH]; intros c d H; [reflexivity|].
  simpl in *. unfold bind at 1 in H. unfold bind at 1.
  destruct (bd_amount bid) as [amount|]; [|discriminate H].
  destruct (bd_time bid) as [time|]; [|discriminate H].
  cbn [subscript] in *. rewrite !bind_ret in *.
  unfold insert_bid at 1 in H. unfold insert_bid at 1.
  now apply (IH _ _ H).
Qed.

(** How [save_item] returns within a batch. *)
Lemma save_item_ok now item c aid c' :
  save_item now item true c = (Ok aid, c') <->
  exists sd sid c1 c2 c3,
    i_seller item = Some sd /\
    get_seller_id now sd c = (Ok sid, c1) /\
    save_auction now item sid c1 = (Ok aid, c2) /\
    save_item_specifics now aid (i_item_specifics item) c2 = (Ok tt, c3) /\
    save_bids now aid (i_bids item) c3 = (Ok tt, c').
Proof.
  unfold save_item, try_except. simpl negb. cbv iota.
  split.
  - intros H.
    match type of H with
    | (match ?m c with _ => _ end) = _ => destruct (m c) as [[a0|e] c0] eqn:E
    end.
    + inversion H; subst. clear H.
      destruct (i_seller item) as [sd|]; [|discriminate E].
      cbn [subscript] in E. rewrite bind_ret in E.
      apply bind_inv_ok in E. destruct E as (sid & c1 & H1 & E).
      apply bind_inv_ok in E. destruct E as (aid' & c2 & H2 & E).
      apply bind_inv_ok in E. destruct E as ([] & c3 & H3 & E).
      apply bind_inv_ok in E. destruct E as ([] & c4 & H4 & E).
      rewrite bind_ret in E. inversion E; subst.
      now exists sd, sid, c1, c2, c3.
    + unfold bind, ret, raise in H. discriminate H.
  - intros (sd & sid & c1 & c2 & c3 & Hs & H1 & H2 & H3 & H4).
    rewrite Hs. cbn [subscript]. rewrite bind_ret.
    rewrite (bind_ok _ _ _ _ _ H1), (bind_ok _ _ _ _ _ H2),
      (bind_ok _ _ _ _ _ H3), (bind_ok _ _ _ _ _ H4).
    reflexivity.
Qed.

(** ** Two passes over one batch *)

Lemma wf_run {A} (m : M A) c r c' : preserves wf m -> wf c -> m c = (r, c') -> wf c'.
Proof. intros Hm Hc E. specialize (Hm c Hc). now rewrite E in Hm. Qed.

Lemma ustep_auction_keys t x rows rows' :
  ustep auction_matches auction_upd auction_ins t x rows rows' ->
  map a_item_id rows' = map a_item_id rows \/
  map a_item_id rows' = map a_item_id rows ++ [aw_item_id x].
Proof.
  intros [[_ ->]|[_ [id ->]]].
  - left. unfold cupd. now apply map_key_update.
  - right. now rewrite map_app.
Qed.

Lemma find_auction_known iid c :
  find_auction iid (auctions (working c)) <> None <-> In iid (known_items c).
Proof.
  unfold known_items. split.
  - intros H. destruct (in_dec string_dec iid (map a_item_id (auctions (working c))))
      as [Hin|Hout]; [exact Hin|].
    exfalso. apply H. now apply find_auction_none.
  - intros Hin Hf. now apply find_auction_none in Hf.
Qed.

(** An item that can be saved can be saved again wherever at least the
    same auctions are known. *)
Lemma save_item_more_keys now now' item c d aid c' :
  wf c -> wf d -> incl (known_items c) (known_items d) ->
  save_item now item true c = (Ok aid, c') ->
  exists aid' d',
    save_item now' item true d = (Ok aid', d') /\
    incl (known_items c') (known_items d').
Proof.
  intros Hc Hd Hincl H.
  apply save_item_ok in H.
  destruct H as (sd & sid & c1 & c2 & c3 & Hs & H1 & H2 & H3 & H4).
  destruct (get_seller_id_ok _ _ _ _ _ H1) as [uid Hu].
  destruct (get_seller_id_step now sd uid c Hc Hu)
    as (sid0 & c10 & E1 & _ & _ & _ & Hac1 & _).
  rewrite H1 in E1. inversion E1; subst sid0 c10. clear E1.
  destruct (get_seller_id_step now' sd uid d Hd Hu)
    as (sid' & d1 & G1 & _ & _ & _ & Had1 & _).
  assert (Hc1 : wf c1) by exact (wf_run _ c _ c1 (wf_get_seller_id now sd) Hc H1).
  assert (Hd1 : wf d1) by exact (wf_run _ d _ d1 (wf_get_seller_id now' sd) Hd G1).
  destruct (save_auction_ok _ _ _ _ _ _ H2) as (iid & Hid & Hk & Hins).
  destruct (save_auction_step now item sid iid c1 Hc1 Hid Hk Hins)
    as (aid0 & c20 & E2 & Hstep & _ & _ & _ & _).
  rewrite H2 in E2. inversion E2; subst aid0 c20. clear E2.
  assert (Hins' : find_auction iid (auctions (working d1)) = None ->
                  has_insert_keys item = true).
  { intros Hnone. apply Hins.
    destruct (find_auction iid (auctions (working c1))) eqn:Hf; [|reflexivity].
    exfalso. assert (Hin : In iid (known_items c)).
    { unfold known_items. rewrite <- Hac1. apply find_auction_known. now rewrite Hf. }
    apply Hincl in Hin. unfold known_items in Hin. rewrite <- Had1 in Hin.
    now apply find_auction_none in Hnone. }
  destruct (save_auction_step now' item sid' iid d1 Hd1 Hid Hk Hins')
    as (aid' & d2 & G2 & Hstep' & Hfound' & _ & _ & _).
  destruct (save_item_specifics_path now aid (i_item_specifics item) c2)
    as (c30 & E3 & _ & _ & Hac3).
  rewrite H3 in E3. inversion E3; subst c30. clear E3.
  destruct (save_item_specifics_path now' aid' (i_item_specifics item) d2)
    as (d3 & G3 & _ & _ & Had3).
  pose proof (save_bids_frame now aid (i_bids item) c3) as (_ & Hac4 & _).
  rewrite H4 in Hac4. simpl in Hac4.
  pose proof (save_bids_frame now' aid' (i_bids item) d3) as (_ & Had4 & _).
  assert (G4 : fst (save_bids now' aid' (i_bids item) d3) = Ok tt).
  { apply (save_bids_ok_anywhere now aid (i_bids item) c3). now rewrite H4. }
  destruct (save_bids now' aid' (i_bids item) d3) as [r4 d'] eqn:G4'.
  simpl in G4, Had4. subst r4.
  exists aid', d'. split.
  - apply save_item_ok. now exists sd, sid', d1, d2, d3.
  - unfold known_items. rewrite Hac4, Hac3, Had4, Had3.
    assert (Hiid : In iid (map a_item_id (auctions (working d2)))).
    { now apply find_auction_known. }
    assert (Hd12 : incl (map a_item_id (auctions (working d1)))
                     (map a_item_id (auctions (working d2)))).
    { destruct (ustep_auction_keys _ _ _ _ Hstep') as [->| ->];
        [apply incl_refl|apply incl_appl, incl_refl]. }
    assert (Hcd1 : incl (map a_item_id (auctions (working c1)))
                     (map a_item_id (auctions (working d1)))).
    { rewrite Hac1, Had1. exact Hincl. }
    destruct (ustep_auction_keys _ _ _ _ Hstep) as [->| ->].
    + eapply incl_tran; eassumption.
    + apply incl_app; [eapply incl_tran; eassumption|].
      intros x [<-|[]]. exact Hiid.
Qed.

Lemma save_each_cons now item items c :
  save_each now (item :: items) c =
  match save_item now item true c with
  | (Ok _, c1) => save_each now items c1
  | (Raise e, c1) => (Raise e, c1)
  end.
Proof.
  unfold save_each. simpl. unfold bind.
  destruct (save_item now item true c) as [[aid|e] c1]; reflexivity.
Qed.

Lemma save_each_more_keys now now' items :
  forall c d c',
    wf c -> wf d -> incl (known_items c) (known_items d) ->
    save_each now items c = (Ok tt, c') ->
    exists d', save_each now' items d = (Ok tt, d').
Proof.
  induction items as [|item items IH]; intros c d c' Hc Hd Hincl H.
  - now exists d.
  - rewrite save_each_cons in *.
    destruct (save_item now item true c) as [[aid|e] c1] eqn:E; [|discriminate H].
    destruct (save_item_more_keys now now' item c d aid c1 Hc Hd Hincl E)
      as (aid' & d1 & E' & Hincl1).
    rewrite E'.
    apply (IH c1 d1 c'); auto.
    + exact (wf_run _ c _ c1 (wf_save_item now item true) Hc E).
    + exact (wf_run _ d _ d1 (wf_save_item now' item true) Hd E').
Qed.

Lemma seller_id_in_extends rows rows' uid :
  extends seller_imm rows rows' ->
  find_seller uid rows <> None ->
  seller_id_in rows' uid = seller_id_in rows uid.
Proof.
  intros Hext Hf. unfold seller_id_in.
  destruct (find_seller uid rows) as [r|] eqn:E; [|contradiction].
  destruct (Hext (fun r => String.eqb (s_ebay_user_id r) uid)) with (r := r)
    as (r' & Hr' & Himm).
  - intros r1 r2 H12. unfold seller_imm in H12. now injection H12 as _ -> _.
  - exact E.
  - unfold find_seller. rewrite Hr'. unfold seller_imm in Himm. now injection Himm.
Qed.

Lemma auction_id_in_extends rows rows' iid :
  extends auction_imm rows rows' ->
  find_auction iid rows <> None ->
  auction_id_in rows' iid = auction_id_in rows iid.
Proof.
  intros Hext Hf. unfold auction_id_in.
  destruct (find_auction iid rows) as [r|] eqn:E; [|contradiction].
  destruct (Hext (fun r => String.eqb (a_item_id r) iid)) with (r := r)
    as (r' & Hr' & Himm).
  - intros r1 r2 H12. unfold auction_imm in H12. now injection H12 as _ -> _ _ _ _.
  - exact E.
  - unfold find_auction. rewrite Hr'. unfold auction_imm in Himm. now injection Himm.
Qed.

Lemma auction_write_extends rows rows' item :
  extends seller_imm rows rows' ->
  find_seller (sw_ebay_user_id (seller_write item)) rows <> None ->
  auction_write rows' item = auction_write rows item.
Proof.
  intros Hext Hf. unfold auction_write.
  now rewrite (seller_id_in_extends rows rows' _ Hext Hf).
Qed.

Lemma specific_writes_extends rows rows' item :
  extends auction_imm rows rows' ->
  find_auction (get (i_item_id item) "") rows <> None ->
  specific_writes rows' item = specific_writes rows item.
Proof.
  intros Hext Hf. unfold specific_writes.
  now rewrite (auction_id_in_extends rows rows' _ Hext Hf).
Qed.

(** What one saved item has done to the three tables. *)
Lemma save_item_paths now item c aid c' :
  wf c -> save_item now item true c = (Ok aid, c') ->
  ustep seller_matches seller_upd seller_ins now (seller_write item)
    (sellers (working c)) (sellers (working c')) /\
  find_seller (sw_ebay_user_id (seller_write item)) (sellers (working c')) <> None /\
  ustep auction_matches auction_upd auction_ins now
    (auction_write (sellers (working c')) item)
    (auctions (working c)) (auctions (working c')) /\
  find_auction (get (i_item_id item) "") (auctions (working c')) <> None /\
  upath specific_matches specific_upd specific_ins now
    (specific_writes (auctions (working c')) item)
    (item_specifics (working c)) (item_specifics (working c')).
Proof.
  intros Hc H. apply save_item_ok in H.
  destruct H as (sd & sid & c1 & c2 & c3 & Hs & H1 & H2 & H3 & H4).
  destruct (get_seller_id_ok _ _ _ _ _ H1) as [uid Hu].
  destruct (get_seller_id_step now sd uid c Hc Hu)
    as (sid0 & c10 & E1 & Hstep1 & Hfound1 & Hsid & Ha1 & Hp1).
  rewrite H1 in E1. injection E1 as Es Ec. destruct Es, Ec.
  assert (Hc1 : wf c1) by exact (wf_run _ c _ c1 (wf_get_seller_id now sd) Hc H1).
  destruct (save_auction_ok _ _ _ _ _ _ H2) as (iid & Hid & Hk & Hins).
  destruct (save_auction_step now item sid iid c1 Hc1 Hid Hk Hins)
    as (aid0 & c20 & E2 & Hstep2 & Hfound2 & Haid & Hs2 & Hp2).
  rewrite H2 in E2. injection E2 as Es Ec. destruct Es, Ec.
  destruct (save_item_specifics_path now aid (i_item_specifics item) c2)
    as (c30 & E3 & Hpath3 & Hs3 & Ha3).
  rewrite H3 in E3. inversion E3; subst c30. clear E3.
  pose proof (save_bids_frame now aid (i_bids item) c3) as (Hs4 & Ha4 & Hp4).
  rewrite H4 in Hs4, Ha4, Hp4. simpl in Hs4, Ha4, Hp4.
  assert (Hw : seller_write item =
               mkSellerWrite uid (sd_rating sd) (sd_feedback_score sd)).
  { unfold seller_write. now rewrite Hs, Hu. }
  rewrite Hw. simpl sw_ebay_user_id.
  rewrite Hs4, Hs3, Hs2, Ha4, Ha3, Hp4.
  split; [exact Hstep1|]. split; [exact Hfound1|].
  unfold auction_write, specific_writes. rewrite Hw, Hid. simpl.
  rewrite Hsid, Haid.
  split; [now rewrite <- Ha1|]. split; [exact Hfound2|].
  now rewrite <- Hp1, <- Hp2.
Qed.

Lemma save_each_paths now items :
  forall c c',
    wf c -> save_each now items c = (Ok tt, c') ->
    upath seller_matches seller_upd seller_ins now (map seller_write items)
      (sellers (working c)) (sellers (working c')) /\
    (forall final,
       extends seller_imm (sellers (working c')) final ->
       upath auction_matches auction_upd auction_ins now
         (map (auction_write final) items)
         (auctions (working c)) (auctions (working c'))) /\
    (forall final,
       extends auction_imm (auctions (working c')) final ->
       upath specific_matches specific_upd specific_ins now
         (flat_map (specific_writes final) items)
         (item_specifics (working c)) (item_specifics (working c'))).
Proof.
  induction items as [|item items IH]; intros c c' Hc H.
  - inversion H; subst. simpl. auto.
  - rewrite save_each_cons in H.
    destruct (save_item now item true c) as [[aid|e] c1] eqn:E; [|discriminate H].
    assert (Hc1 : wf c1) by exact (wf_run _ c _ c1 (wf_save_item now item true) Hc E).
    destruct (save_item_paths now item c aid c1 Hc E)
      as (Hs1 & Hfs & Ha1 & Hfa & Hp1).
    destruct (IH c1 c' Hc1 H) as (Hs & Ha & Hp).
    assert (Hes : extends seller_imm (sellers (working c1)) (sellers (working c'))).
    { apply (upath_extends seller_matches seller_upd seller_ins seller_imm
               seller_upd_imm now (map seller_write items)).
      exact Hs. }
    assert (Hea : extends auction_imm (auctions (working c1)) (auctions (working c'))).
    { apply (upath_extends auction_matches auction_upd auction_ins auction_imm
               auction_upd_imm now
               (map (auction_write (sellers (working c'))) items)).
      apply Ha. apply extends_refl. }
    split; [|split].
    + simpl. exists (sellers (working c1)). now split.
    + intros final Hfinal. simpl. exists (auctions (working c1)).
      split; [|now apply Ha].
      rewrite (auction_write_extends (sellers (working c1)) final item); auto.
      eapply extends_trans; eassumption.
    + intros final Hfinal. simpl.
      apply (upath_app specific_matches specific_upd specific_ins now _ _ _
               (item_specifics (working c1))); [|now apply Hp].
      rewrite (specific_writes_extends (auctions (working c1)) final item); auto.
      eapply extends_trans; eassumption.
Qed.

Lemma save_each_known now items c c' :
  wf c -> save_each now items c = (Ok tt, c') ->
  incl (known_items c) (known_items c').
Proof.
  intros Hc H. destruct (save_each_paths now items c c' Hc H) as (_ & Ha & _).
  specialize (Ha _ (extends_refl seller_imm _)).
  intros iid Hin. apply find_auction_known. apply find_auction_known in Hin.
  pose proof (upath_extends auction_matches auction_upd auction_ins auction_imm
                auction_upd_imm now _ _ _ Ha) as Hext.
  destruct (find_auction iid (auctions (working c))) as [r|] eqn:Hf; [|contradiction].
  destruct (Hext (fun r => String.eqb (a_item_id r) iid)) with (r := r)
    as (r' & Hr' & _).
  - intros r1 r2 H12. unfold auction_imm in H12. now injection H12 as _ -> _ _ _ _.
  - exact Hf.
  - unfold find_auction. now rewrite Hr'.
Qed.

(** The two passes of a batch applied twice to a clean, consistent store:
    either nothing was committed by either, or both went through the same
    writes. *)
Lemma save_items_twice_paths t1 t2 items c :
  wf c -> clean c ->
  let c1 := snd (save_items t1 items c) in
  let c2 := snd (save_items t2 items c1) in
  committed c2 = committed c1 \/
  exists xs ys zs,
    upath seller_matches seller_upd seller_ins t1 xs
      (sellers (working c)) (sellers (committed c1)) /\
    upath seller_matches seller_upd seller_ins t2 xs
      (sellers (committed c1)) (sellers (committed c2)) /\
    upath auction_matches auction_upd auction_ins t1 ys
      (auctions (working c)) (auctions (committed c1)) /\
    upath auction_matches auction_upd auction_ins t2 ys
      (auctions (committed c1)) (auctions (committed c2)) /\
    upath specific_matches specific_upd specific_ins t1 zs
      (item_specifics (working c)) (item_specifics (committed c1)) /\
    upath specific_matches specific_upd specific_ins t2 zs
      (item_specifics (committed c1)) (item_specifics (committed c2)).
Proof.
  intros Hc Hclean. destruct items as [|item items]; [now left|].
  cbv zeta. rewrite (save_items_cons t1 item items c).
  pose proof (save_each_committed t1 (item :: items) c) as Hcom1.
  destruct (save_each t1 (item :: items) c) as [[[]|e] e1] eqn:E1; cbn [snd] in *.
  - assert (He1 : wf e1) by exact (wf_run _ c _ e1 (wf_save_each t1 (item :: items)) Hc E1).
    set (k1 := mkConnection (working e1) (working e1) (sequences e1)).
    assert (Hk1 : wf k1) by (destruct He1 as [_ H]; now split).
    assert (Hincl : incl (known_items c) (known_items k1)).
    { exact (save_each_known t1 (item :: items) c e1 Hc E1). }
    destruct (save_each_more_keys t1 t2 (item :: items) c k1 e1 Hc Hk1 Hincl E1) as [e2 E2].
    rewrite (save_items_cons t2 item items k1). rewrite E2. cbn [snd].
    right.
    destruct (save_each_paths t1 (item :: items) c e1 Hc E1) as (Hs1 & Ha1 & Hp1).
    destruct (save_each_paths t2 (item :: items) k1 e2 Hk1 E2) as (Hs2 & Ha2 & Hp2).
    unfold k1 in Hs2, Ha2, Hp2. cbn [working] in Hs2, Ha2, Hp2.
    pose proof (Ha2 _ (extends_refl seller_imm _)) as Ha2'.
    pose proof (Hp2 _ (extends_refl auction_imm _)) as Hp2'.
    exists (map seller_write (item :: items)),
      (map (auction_write (sellers (working e2))) (item :: items)),
      (flat_map (specific_writes (auctions (working e2))) (item :: items)).
    repeat split; auto.
    + apply Ha1.
      exact (upath_extends seller_matches seller_upd seller_ins seller_imm
               seller_upd_imm t2 _ _ _ Hs2).
    + apply Hp1.
      exact (upath_extends auction_matches auction_upd auction_ins auction_imm
               auction_upd_imm t2 _ _ _ Ha2').
  - left.
    set (k1 := mkConnection (committed e1) (committed e1) (sequences e1)).
    assert (He1 : wf e1).
    { pose proof (wf_save_each t1 (item :: items) c Hc) as H. now rewrite E1 in H. }
    assert (Hk1 : wf k1) by (destruct He1 as [H _]; now split).
    rewrite (save_items_cons t2 item items k1).
    pose proof (save_each_committed t2 (item :: items) k1) as Hcom2.
    destruct (save_each t2 (item :: items) k1) as [[[]|e'] e2] eqn:E2; cbn [snd] in *.
    + exfalso.
      assert (Hincl : incl (known_items k1) (known_items c)).
      { unfold known_items. simpl. rewrite Hcom1, <- Hclean. apply incl_refl. }
      destruct (save_each_more_keys t2 t1 (item :: items) k1 c e2 Hk1 Hc Hincl E2) as [c' E].
      rewrite E in E1. discriminate E1.
    + exact Hcom2.
Qed.

(** C2, as the code has it.  On a consistent store with no open
    transaction, applying a batch twice commits the same sellers, the same
    auctions and the same item specifics as applying it once, except that
    the [updated_at] of the sellers and auctions it writes is the time of
    the second application; when both applications see the same time, the
    rows are the same in every column. *)
Theorem save_items_twice :
  forall t1 t2 items c,
    wf c -> clean c ->
    let c1 := run (save_items t1 items) c in
    let c2 := run (save_items t2 items) c1 in
    map seller_but_updated_at (sellers (committed c2)) =
      map seller_but_updated_at (sellers (committed c1)) /\
    map auction_but_updated_at (auctions (committed c2)) =
      map auction_but_updated_at (auctions (committed c1)) /\
    item_specifics (committed c2) = item_specifics (committed c1) /\
    (t1 = t2 ->
     sellers (committed c2) = sellers (committed c1) /\
     auctions (committed c2) = auctions (committed c1)).
Proof.
  intros t1 t2 items c Hc Hclean. cbv zeta. unfold run.
  pose proof (save_items_twice_paths t1 t2 items c Hc Hclean) as H.
  cbv zeta in H.
  destruct H as [Heq|(xs & ys & zs & Hs1 & Hs2 & Ha1 & Ha2 & Hp1 & Hp2)].
  - rewrite Heq. repeat split; reflexivity.
  - split; [exact (sellers_twice t1 t2 xs _ _ _ Hs1 Hs2)|].
    split; [exact (auctions_twice t1 t2 ys _ _ _ Ha1 Ha2)|].
    split; [exact (specifics_twice t1 t2 zs _ _ _ Hp1 Hp2)|].
    intros <-. split.
    + exact (sellers_twice_same_time t1 xs _ _ _ Hs1 Hs2).
    + exact (auctions_twice_same_time t1 ys _ _ _ Ha1 Ha2).
Qed.

Lemma save_items_twice_witness :
  map seller_but_updated_at
    (sellers (committed (run (save_items 60 batch_of_two)
                           (run (save_items 50 batch_of_two) fresh)))) =
  map seller_but_updated_at
    (sellers (committed (run (save_items 50 batch_of_two) fresh))) /\
  map auction_but_updated_at
    (auctions (committed (run (save_items 60 batch_of_two)
                            (run (save_items 50 batch_of_two) fresh)))) =
  map auction_but_updated_at
    (auctions (committed (run (save_items 50 batch_of_two) fresh))) /\
  item_specifics (committed (run (save_items 60 batch_of_two)
                               (run (save_items 50 batch_of_two) fresh))) =
  item_specifics (committed (run (save_items 50 batch_of_two) fresh)) /\
  (50 = 60 ->
   sellers (committed (run (save_items 60 batch_of_two)
                         (run (save_items 50 batch_of_two) fresh))) =
   sellers (committed (run (save_items 50 batch_of_two) fresh)) /\
   auctions (committed (run (save_items 60 batch_of_two)
                          (run (save_items 50 batch_of_two) fresh))) =
   auctions (committed (run (save_items 50 batch_of_two) fresh))).
Proof.
  apply (save_items_twice 50 60 batch_of_two fresh).
  - repeat split; simpl; constructor.
  - reflexivity.
Defined.

(** C2, as the claim has it, fails twice over.  A batch whose item carries
    a bid leaves two rows of [bids] after its second application, where the
    first left one, even when both applications see the same time; and a
    batch applied again later leaves another [updated_at] on the auction it
    found. *)
Lemma second_application_changes_the_store :
  (let c1 := run (save_items 50 [listing_with_bid "123" 10000]) fresh in
   let c2 := run (save_items 50 [listing_with_bid "123" 10000]) c1 in
   List.length (bids (committed c1)) = 1%nat /\
   List.length (bids (committed c2)) = 2%nat /\
   committed c2 <> committed c1) /\
  (let c1 := run (save_items 50 [listing "123" 10000]) fresh in
   let c2 := run (save_items 60 [listing "123" 10000]) c1 in
   option_map a_updated_at (find_auction "123" (auctions (committed c1))) = Some 50 /\
   option_map a_updated_at (find_auction "123" (auctions (committed c2))) = Some 60 /\
   committed c2 <> committed c1).
Proof.
  split; cbv zeta; (split; [reflexivity|]); (split; [reflexivity|]);
    intros H; discriminate H.
Qed.

(** ** A run of the tracker

    One new listing is saved, then its completion arrives with two bids:
    one seller and one auction are stored, the auction ends [completed] at
    the final price, and of the two bids the last one alone is recorded, as
    the winning bid. *)
Example one_cycle_then_completion :
  let c1 := run (save_items 50 [listing "123" 10000]) fresh in
  let c2 := run (update_completed_items 60
                   [completion_with_bids "123" 15000 2
                      [mkBidData (Some 12000) (Some 1699990000) None None;
                       mkBidData (Some 15000) (Some 1699999000) None None]]) c1 in
  map s_ebay_user_id (sellers (committed c1)) = ["s1"] /\
  map a_item_id (auctions (committed c1)) = ["123"] /\
  status_of "123" (committed c1) = Some "active" /\
  status_of "123" (committed c2) = Some "completed" /\
  option_map a_current_price (find_auction "123" (auctions (committed c2)))
    = Some (Some 15000) /\
  map (fun b => (b_bid_amount b, b_winning_bid b)) (bids (committed c2))
    = [(15000, true)].
Proof. repeat split; reflexivity. Qed.

(** * The rest of the store *)

(** ** What every statement keeps, every call keeps *)

Section AnyInvariant.
Variable P : Connection -> Prop.
Hypothesis P_commit : preserves P commit.
Hypothesis P_rollback : preserves P rollback.
Hypothesis P_select_seller_id : forall uid, preserves P (select_seller_id uid).
Hypothesis P_update_seller : forall now r f id, preserves P (update_seller now r f id).
Hypothesis P_insert_seller : forall now uid r f, preserves P (insert_seller now uid r f).
Hypothesis P_select_auction_id : forall iid, preserves P (select_auction_id iid).
Hypothesis P_update_auction : forall now f id, preserves P (update_auction now f id).
Hypothesis P_insert_auction :
  forall now iid p e s f, preserves P (insert_auction now iid p e s f).
Hypothesis P_upsert_item_specific :
  forall now a k v, preserves P (upsert_item_specific now a k v).
Hypothesis P_insert_bid : forall now a x y b w, preserves P (insert_bid now a x y b w).
Hypothesis P_update_auction_completed :
  forall now p n iid, preserves P (update_auction_completed now p n iid).

Local Ltac statements :=
  preserve;
  auto using P_commit, P_rollback, P_select_seller_id, P_update_seller,
    P_insert_seller, P_select_auction_id, P_update_auction, P_insert_auction,
    P_upsert_item_specific, P_insert_bid, P_update_auction_completed.

Lemma any_get_seller_id now sd : preserves P (get_seller_id now sd).
Proof. statements. Qed.

Lemma any_save_item now item given : preserves P (save_item now item given).
Proof. unfold save_item. destruct given; simpl; statements. Qed.

Lemma any_save_items now items : preserves P (save_items now items).
Proof.
  unfold save_items. destruct items as [|item items]; [apply preserves_ret|].
  apply preserves_try.
  - apply preserves_bind; [|intros; apply P_commit].
    apply preserves_for_each. intros x.
    apply preserves_bind; [apply any_save_item | intros; apply preserves_ret].
  - intros e. apply preserves_bind; [apply P_rollback|].
    intros; apply preserves_raise.
Qed.

Lemma any_update_completed_items now items :
  preserves P (update_completed_items now items).
Proof.
  unfold update_completed_items.
  destruct items as [|item items]; [apply preserves_ret|].
  apply preserves_try.
  - apply preserves_bind; [|intros; apply P_commit].
    apply preserves_for_each. intros x. unfold update_completed_item. statements.
  - intros e. apply preserves_bind; [apply P_rollback|].
    intros; apply preserves_raise.
Qed.

Lemma any_run_call k c : P c -> P (run_call k c).
Proof.
  destruct k; simpl; unfold run.
  - apply any_get_seller_id.
  - apply any_save_item.
  - apply any_save_items.
  - apply any_update_completed_items.
Qed.

Lemma any_run_calls ks c : P c -> P (run_calls ks c).
Proof.
  revert c. induction ks as [|k ks IH]; intros c H; simpl; [exact H|].
  apply IH. now apply any_run_call.
Qed.

Lemma any_cycle o c : P c -> P (snd (cycle o c)).
Proof.
  intros H. unfold cycle.
  destruct (ob_active o) as [active|]; [|exact H].
  pose proof (any_save_items (ob_now_active o) active c H) as H1.
  destruct (save_items (ob_now_active o) active c) as [[[]|e] c1]; [|exact H1].
  simpl in H1.
  destruct (ob_completed o) as [completed|]; [|exact H1].
  pose proof (any_update_completed_items (ob_now_completed o) completed c1 H1) as H2.
  destruct (update_completed_items (ob_now_completed o) completed c1)
    as [[[]|e] c2]; exact H2.
Qed.

Lemma any_run_daemon minutes turns c :
  P c -> P (dm_connection (run_daemon minutes turns c)).
Proof.
  revert c. induction turns as [|tn turns IH]; intros c H; simpl; [exact H|].
  pose proof (any_cycle (tn_observation tn) c H) as H1.
  destruct (cycle (tn_observation tn) c) as [r c1]. simpl in H1.
  destruct (tn_signal_in_cycle tn || tn_signal_in_sleep tn); simpl; [exact H1|].
  now apply IH.
Qed.
End AnyInvariant.

(** ** Primary keys *)

(** X1.  Through any calls, the primary keys of sellers and auctions stay
    unique, the sequences stay ahead of them and the business keys stay
    unique, in the committed tables and in the open transaction. *)
Theorem calls_keep_store_consistent :
  forall ks c, wf c -> wf (run_calls ks c).
Proof.
  intros ks c. apply any_run_calls;
    auto using wf_commit, wf_rollback, wf_select_seller_id, wf_select_auction_id,
      wf_update_seller, wf_insert_seller, wf_update_auction, wf_insert_auction,
      wf_upsert_item_specific, wf_insert_bid, wf_update_auction_completed.
Qed.

Lemma calls_keep_store_consistent_witness :
  wf (run_calls [SaveItems 50 batch_of_three; SaveItems 60 batch_of_two;
                 UpdateCompletedItems 70 [completion "123" 15000 5]] fresh).
Proof.
  apply calls_keep_store_consistent.
  repeat split; simpl; constructor.
Defined.

(** ** One row per (auction, key) *)

Lemma same_specific_key a k r :
  same_specific a k r = true <-> specific_key r = (a, k).
Proof.
  rewrite same_specific_true. unfold specific_key. split.
  - intros [-> ->]. reflexivity.
  - intros H. now injection H.
Qed.

Lemma unique_specifics_upsert now a k v c :
  NoDup (map specific_key (item_specifics (working c))) ->
  NoDup (map specific_key
           (item_specifics (working (snd (upsert_item_specific now a k v c))))).
Proof.
  intros H. unfold upsert_item_specific; simpl.
  destruct (existsb (same_specific a k) (item_specifics (working c))) eqn:He.
  - now rewrite map_key_update.
  - rewrite map_app. simpl. apply NoDup_snoc; [exact H|].
    intros Hin. apply in_map_iff in Hin. destruct Hin as (r & Hr & Hin).
    assert (Hex : existsb (same_specific a k) (item_specifics (working c)) = true).
    { apply existsb_exists. exists r. split; [exact Hin|].
      now apply same_specific_key. }
    rewrite Hex in He. discriminate.
Qed.

Section UniqueSpecifics.
Let P := fun c => unique_specifics (committed c) /\ unique_specifics (working c).

Lemma specifics_commit : preserves P commit.
Proof. intros c [_ H]. now split. Qed.

Lemma specifics_rollback : preserves P rollback.
Proof. intros c [H _]. now split. Qed.

Lemma specifics_insert_seller now uid r f : preserves P (insert_seller now uid r f).
Proof. intros c H. unfold insert_seller. destruct find_seller; exact H. Qed.

Lemma specifics_insert_auction now iid p e s f :
  preserves P (insert_auction now iid p e s f).
Proof. intros c H. unfold insert_auction. destruct find_auction; exact H. Qed.

Lemma specifics_upsert_item_specific now a k v :
  preserves P (upsert_item_specific now a k v).
Proof.
  intros c [Hc Hw]. split; [exact Hc|]. now apply unique_specifics_upsert.
Qed.

Lemma specifics_run_calls ks c : P c -> P (run_calls ks c).
Proof.
  apply any_run_calls;
    auto using specifics_commit, specifics_rollback, specifics_insert_seller,
      specifics_insert_auction, specifics_upsert_item_specific;
    intros; intros c0 H0; exact H0.
Qed.
End UniqueSpecifics.

(** X2.  Through any calls no two item specifics share their auction and their
    key. *)
Theorem item_specifics_stay_unique :
  forall ks c,
    unique_specifics (committed c) -> unique_specifics (working c) ->
    unique_specifics (committed (run_calls ks c)) /\
    unique_specifics (working (run_calls ks c)).
Proof.
  intros ks c Hc Hw. apply (specifics_run_calls ks c). now split.
Qed.

Lemma item_specifics_stay_unique_witness :
  unique_specifics (committed (run_calls [SaveItems 50 batch_of_two;
                                          SaveItems 60 batch_of_two] fresh)) /\
  unique_specifics (working (run_calls [SaveItems 50 batch_of_two;
                                        SaveItems 60 batch_of_two] fresh)).
Proof.
  apply item_specifics_stay_unique; constructor.
Defined.

(** ** Nothing is deleted *)

Lemma grown_refl {A} (l : list A) : grown l l.
Proof. exists []. now rewrite app_nil_r. Qed.

Lemma grown_trans {A} (l1 l2 l3 : list A) : grown l1 l2 -> grown l2 l3 -> grown l1 l3.
Proof. intros [a ->] [b ->]. exists (a ++ b). now rewrite app_assoc. Qed.

Lemma grown_app {A} (l added : list A) : grown l (l ++ added).
Proof. now exists added. Qed.

Lemma kept_refl t : kept t t.
Proof. repeat split; apply grown_refl. Qed.

Lemma kept_trans t1 t2 t3 : kept t1 t2 -> kept t2 t3 -> kept t1 t3.
Proof.
  intros (S1 & A1 & P1 & B1) (S2 & A2 & P2 & B2).
  repeat split; eapply grown_trans; eassumption.
Qed.

Lemma kept_update_seller now r f id c :
  kept (working c) (working (snd (update_seller now r f id c))).
Proof.
  repeat split; simpl; try apply grown_refl.
  rewrite map_key_update by reflexivity. apply grown_refl.
Qed.

Lemma kept_insert_seller now uid r f c :
  kept (working c) (working (snd (insert_seller now uid r f c))).
Proof.
  unfold insert_seller. destruct find_seller; simpl; [apply kept_refl|].
  repeat split; simpl; try apply grown_refl.
  rewrite map_app. apply grown_app.
Qed.

Lemma kept_update_auction now f id c :
  kept (working c) (working (snd (update_auction now f id c))).
Proof.
  repeat split; simpl; try apply grown_refl.
  rewrite map_key_update by reflexivity. apply grown_refl.
Qed.

Lemma kept_insert_auction now iid p e s f c :
  kept (working c) (working (snd (insert_auction now iid p e s f c))).
Proof.
  unfold insert_auction. destruct find_auction; simpl; [apply kept_refl|].
  repeat split; simpl; try apply grown_refl.
  rewrite map_app. apply grown_app.
Qed.

Lemma kept_upsert_item_specific now a k v c :
  kept (working c) (working (snd (upsert_item_specific now a k v c))).
Proof.
  unfold upsert_item_specific; simpl.
  repeat split; simpl; try apply grown_refl.
  destruct (existsb (same_specific a k) (item_specifics (working c))).
  - rewrite map_key_update by reflexivity. apply grown_refl.
  - rewrite map_app. apply grown_app.
Qed.

Lemma kept_insert_bid now a x y b w c :
  kept (working c) (working (snd (insert_bid now a x y b w c))).
Proof.
  unfold insert_bid; simpl.
  repeat split; simpl; try apply grown_refl.
  destruct (existsb _ (bids (working c))); [apply grown_refl|apply grown_app].
Qed.

Lemma kept_update_auction_completed now p n iid c :
  kept (working c) (working (snd (update_auction_completed now p n iid c))).
Proof.
  repeat split; simpl; try apply grown_refl.
  rewrite map_key_update by reflexivity. apply grown_refl.
Qed.

Section AppendOnly.
Variable t0 : Tables.
Let P := fun c => kept t0 (committed c) /\ kept (committed c) (working c).

Lemma kept_statement {A} (m : M A) :
  (forall c, committed (snd (m c)) = committed c) ->
  (forall c, kept (working c) (working (snd (m c)))) ->
  preserves P m.
Proof.
  intros Hcom Hkept c [H0 Hw]. split; rewrite Hcom; [exact H0|].
  eapply kept_trans; [exact Hw|apply Hkept].
Qed.

Lemma kept_commit : preserves P commit.
Proof.
  intros c [H0 Hw]. split; simpl; [|apply kept_refl].
  eapply kept_trans; eassumption.
Qed.

Lemma kept_rollback : preserves P rollback.
Proof. intros c [H0 Hw]. split; simpl; [exact H0|apply kept_refl]. Qed.

Lemma kept_run_calls ks c : P c -> P (run_calls ks c).
Proof.
  apply any_run_calls; auto using kept_commit, kept_rollback; intros;
    apply kept_statement;
    auto using kept_update_seller, kept_insert_seller, kept_update_auction,
      kept_insert_auction, kept_upsert_item_specific, kept_insert_bid,
      kept_update_auction_completed, kept_refl;
    intros c0;
    solve [ reflexivity
          | unfold insert_seller; destruct find_seller; reflexivity
          | unfold insert_auction; destruct find_auction; reflexivity
          | apply kept_refl ].
Qed.

Lemma kept_run_daemon minutes turns c :
  P c -> P (dm_connection (run_daemon minutes turns c)).
Proof.
  apply any_run_daemon; auto using kept_commit, kept_rollback; intros;
    apply kept_statement;
    auto using kept_update_seller, kept_insert_seller, kept_update_auction,
      kept_insert_auction, kept_upsert_item_specific, kept_insert_bid,
      kept_update_auction_completed, kept_refl;
    intros c0;
    solve [ reflexivity
          | unfold insert_seller; destruct find_seller; reflexivity
          | unfold insert_auction; destruct find_auction; reflexivity
          | apply kept_refl ].
Qed.
End AppendOnly.

(** X3.  The store only grows.  When the open transaction holds every committed
    row, then after any calls the committed tables still hold every seller,
    auction and item specific that was committed, in place and with its
    primary key, business key and creation time, and every bid unchanged:
    rows are added at the end, none is deleted. *)
Theorem calls_never_delete :
  forall ks c,
    kept (committed c) (working c) ->
    kept (committed c) (committed (run_calls ks c)).
Proof.
  intros ks c H.
  apply (kept_run_calls (committed c) ks c). split; [apply kept_refl|exact H].
Qed.

Lemma calls_never_delete_witness :
  kept (committed finalized_store)
    (committed (run_calls [SaveItems 70 batch_of_two;
                           UpdateCompletedItems 80 [completion "456" 21000 3]]
                  finalized_store)).
Proof.
  apply calls_never_delete.
  repeat split; exists []; reflexivity.
Defined.

(** ** Listing the active auctions *)

Lemma in_select_active_auctions t row :
  In row (select_active_auctions t) <->
  In (aa_auction row) (auctions t) /\
  a_auction_status (aa_auction row) = "active" /\
  exists s, In s (sellers t) /\ s_id s = a_seller_id (aa_auction row) /\
            s_ebay_user_id s = aa_seller_username row.
Proof.
  unfold select_active_auctions. rewrite in_flat_map. split.
  - intros (a & Ha & Hrow).
    destruct (String.eqb_spec (a_auction_status a) "active") as [Hst|]; [|contradiction].
    apply in_map_iff in Hrow. destruct Hrow as (s & <- & Hs).
    apply filter_In in Hs. destruct Hs as [Hs Hid]. apply Z.eqb_eq in Hid.
    simpl. split; [exact Ha|]. split; [exact Hst|]. now exists s.
  - intros (Ha & Hst & s & Hs & Hid & Hname).
    exists (aa_auction row). split; [exact Ha|].
    rewrite Hst. simpl. apply in_map_iff. exists s. split.
    + destruct row as [a u]. simpl in *. now subst.
    + apply filter_In. split; [exact Hs|]. now apply Z.eqb_eq.
Qed.






(** ** Every auction has its seller *)

Lemma preserves_bind_result {A B} (P : Connection -> Prop)
    (Q : A -> Connection -> Prop) (m : M A) (k : A -> M B) :
  (forall c, P c ->
     match m c with
     | (Ok a, c') => P c' /\ Q a c'
     | (Raise _, c') => P c'
     end) ->
  (forall a, preserves (fun c => P c /\ Q a c) (k a)) ->
  preserves P (bind m k).
Proof.
  intros Hm Hk c H. unfold bind. specialize (Hm c H).
  destruct (m c) as [[a|e] c1]; simpl; [|exact Hm].
  exact (proj1 (Hk a c1 Hm)).
Qed.

Lemma references_ok_sellers t t' :
  incl (map s_id (sellers t)) (map s_id (sellers t')) ->
  auctions t' = auctions t ->
  references_ok t -> references_ok t'.
Proof.
  unfold references_ok. intros Hincl -> H.
  eapply Forall_impl; [|exact H]. intros a Ha. now apply Hincl.
Qed.

Section References.
Let P := fun c => references_ok (committed c) /\ references_ok (working c).
Let Q := fun (sid : Z) c => In sid (map s_id (sellers (working c))).

Lemma references_commit : preserves P commit.
Proof. intros c [_ H]. now split. Qed.

Lemma references_rollback : preserves P rollback.
Proof. intros c [H _]. now split. Qed.

Lemma references_get_seller_id now sd c :
  P c ->
  match get_seller_id now sd c with
  | (Ok sid, c') => P c' /\ Q sid c'
  | (Raise _, c') => P c'
  end.
Proof.
  intros [Hc Hw].
  destruct (sd_ebay_user_id sd) as [uid|] eqn:Hu;
    [|rewrite (get_seller_id_no_key now sd c Hu); now split].
  destruct (find_seller uid (sellers (working c))) as [r|] eqn:Hf.
  - rewrite (get_seller_id_found now sd uid r c Hu Hf).
    unfold P, Q. simpl. rewrite map_key_update by reflexivity.
    split; [split; [exact Hc|]|].
    + apply (references_ok_sellers (working c)); simpl; auto.
      rewrite map_key_update by reflexivity. apply incl_refl.
    + apply find_some in Hf. apply in_map. tauto.
  - rewrite (get_seller_id_new now sd uid c Hu Hf).
    unfold P, Q. simpl. rewrite map_app.
    split; [split; [exact Hc|]|].
    + apply (references_ok_sellers (working c)); simpl; auto.
      rewrite map_app. apply incl_appl, incl_refl.
    + apply in_or_app. right. now left.
Qed.

Lemma references_get_seller_id_alone now sd : preserves P (get_seller_id now sd).
Proof.
  intros c H. pose proof (references_get_seller_id now sd c H) as H'.
  destruct (get_seller_id now sd c) as [[sid|e] c']; simpl; [exact (proj1 H')|exact H'].
Qed.

Lemma references_save_auction now item sid :
  preserves (fun c => P c /\ Q sid c) (save_auction now item sid).
Proof.
  intros c [[Hc Hw] Hq]. unfold P, Q in *.
  destruct (i_item_id item) as [iid|] eqn:Hid;
    [|rewrite save_auction_no_key; auto].
  destruct (find_auction iid (auctions (working c))) as [r|] eqn:Hf.
  - destruct (has_update_keys item) eqn:Hk.
    + rewrite (save_auction_found now item sid iid r c Hid Hf Hk). simpl.
      split; [split; [exact Hc|]|exact Hq].
      unfold references_ok in *. simpl. rewrite Forall_forall in *.
      intros a Ha. apply in_map_iff in Ha. destruct Ha as (x & <- & Hx).
      destruct (Z.eqb (a_id x) (a_id r)); [exact Hq|now apply Hw].
    + destruct (save_auction_found_raise now item sid iid r c Hid Hf Hk) as [e ->].
      auto.
  - destruct (has_insert_keys item) eqn:Hk.
    + rewrite (save_auction_new now item sid iid c Hid Hf Hk). simpl.
      split; [split; [exact Hc|]|exact Hq].
      unfold references_ok in *. simpl. apply Forall_snoc; [exact Hw|exact Hq].
    + destruct (save_auction_new_raise now item sid iid c Hid Hf Hk) as [e ->].
      auto.
Qed.

(** A method that leaves sellers, auctions and the committed tables alone. *)
Lemma references_by_frame {A} (m : M A) sid :
  (forall c, sellers (working (snd (m c))) = sellers (working c)) ->
  (forall c, auctions (working (snd (m c))) = auctions (working c)) ->
  (forall c, committed (snd (m c)) = committed c) ->
  preserves (fun c => P c /\ Q sid c) m.
Proof.
  intros Hs Ha Hcom c [[Hc Hw] Hq]. unfold P, Q, references_ok in *.
  now rewrite Hs, Ha, Hcom.
Qed.

Lemma references_save_item_specifics now aid m sid :
  preserves (fun c => P c /\ Q sid c) (save_item_specifics now aid m).
Proof.
  apply references_by_frame; intros c.
  - destruct (save_item_specifics_path now aid m c) as (c1 & -> & _ & Hs & _).
    exact Hs.
  - destruct (save_item_specifics_path now aid m c) as (c1 & -> & _ & _ & Ha).
    exact Ha.
  - now apply (committed_save_item_specifics (committed c)).
Qed.

Lemma references_save_bids now aid h sid :
  preserves (fun c => P c /\ Q sid c) (save_bids now aid h).
Proof.
  apply references_by_frame; intros c.
  - apply save_bids_frame.
  - apply save_bids_frame.
  - now apply (committed_save_bids (committed c)).
Qed.

Lemma references_save_item now item given : preserves P (save_item now item given).
Proof.
  unfold save_item. apply preserves_try.
  - apply preserves_bind; [apply preserves_subscript|intros seller].
    apply (preserves_bind_result P Q); [apply references_get_seller_id|intros sid].
    apply preserves_bind; [apply references_save_auction|intros aid].
    apply preserves_bind; [apply references_save_item_specifics|intros _].
    apply preserves_bind; [apply references_save_bids|intros _].
    apply preserves_bind; [|intros _; apply preserves_ret].
    destruct (negb given); [|apply preserves_ret].
    intros c [[_ Hw] Hq]. split; [now split|exact Hq].
  - intros e. apply preserves_bind; [|intros _; apply preserves_raise].
    destruct (negb given); [apply references_rollback|apply preserves_ret].
Qed.

Lemma references_save_items now items : preserves P (save_items now items).
Proof.
  unfold save_items. destruct items as [|item items]; [apply preserves_ret|].
  apply preserves_try.
  - apply preserves_bind; [|intros; apply references_commit].
    apply preserves_for_each. intros x.
    apply preserves_bind; [apply references_save_item | intros; apply preserves_ret].
  - intros e. apply preserves_bind; [apply references_rollback|].
    intros; apply preserves_raise.
Qed.

Lemma references_update_completed_item now item :
  preserves P (update_completed_item now item).
Proof.
  intros c [Hc Hw]. unfold P.
  rewrite (committed_update_completed_item (committed c) now item c eq_refl).
  split; [exact Hc|].
  destruct (i_item_id item) as [iid|] eqn:Hid;
    [|unfold update_completed_item; rewrite Hid; exact Hw].
  unfold references_ok.
  rewrite (update_completed_item_auctions now item iid c Hid).
  assert (Hs : sellers (working (snd (update_completed_item now item c))) =
               sellers (working c)).
  { unfold update_completed_item. rewrite Hid. cbn [subscript]. rewrite bind_ret.
    erewrite bind_ok by (unfold update_auction_completed; reflexivity).
    match goal with
    | |- sellers (working (snd (?m ?c1))) = ?rows =>
        apply (fun H : preserves (fun c => sellers (working c) = rows) m => H c1)
    end; [|reflexivity].
    preserve; intros c0 H0; exact H0. }
  rewrite Hs. unfold references_ok in Hw. rewrite Forall_forall in *.
  intros a Ha. apply in_map_iff in Ha. destruct Ha as (x & <- & Hx).
  destruct (String.eqb (a_item_id x) iid); simpl; now apply Hw.
Qed.

Lemma references_update_completed_items now items :
  preserves P (update_completed_items now items).
Proof.
  unfold update_completed_items.
  destruct items as [|item items]; [apply preserves_ret|].
  apply preserves_try.
  - apply preserves_bind; [|intros; apply references_commit].
    apply preserves_for_each. intros x. apply references_update_completed_item.
  - intros e. apply preserves_bind; [apply references_rollback|].
    intros; apply preserves_raise.
Qed.

Lemma references_run_calls ks c : P c -> P (run_calls ks c).
Proof.
  revert c. induction ks as [|k ks IH]; intros c H; simpl; [exact H|].
  apply IH. destruct k; simpl; unfold run.
  - now apply references_get_seller_id_alone.
  - now apply references_save_item.
  - now apply references_save_items.
  - now apply references_update_completed_items.
Qed.
End References.

(** X5.  Through any calls every auction, committed or in the open transaction,
    has a [seller_id] that is the primary key of a seller of the table. *)
Theorem auctions_keep_their_seller :
  forall ks c,
    references_ok (committed c) -> references_ok (working c) ->
    references_ok (committed (run_calls ks c)) /\
    references_ok (working (run_calls ks c)).
Proof.
  intros ks c Hc Hw. apply (references_run_calls ks c). now split.
Qed.

Lemma auctions_keep_their_seller_witness :
  references_ok (committed (run_calls [SaveItems 50 batch_of_two;
                                       UpdateCompletedItems 60
                                         [completion "123" 15000 5]] fresh)) /\
  references_ok (working (run_calls [SaveItems 50 batch_of_two;
                                     UpdateCompletedItems 60
                                       [completion "123" 15000 5]] fresh)).
Proof.
  apply auctions_keep_their_seller; constructor.
Defined.

(** ** [save_item] on its own *)

Lemma save_item_alone now item c :
  save_item now item false c =
  match save_item now item true c with
  | (Ok aid, c1) => (Ok aid, mkConnection (working c1) (working c1) (sequences c1))
  | (Raise e, c1) =>
      (Raise e, mkConnection (committed c1) (committed c1) (sequences c1))
  end.
Proof.
  unfold save_item, try_except. simpl negb. cbv iota.
  destruct (i_seller item) as [sd|]; [|reflexivity].
  cbn [subscript]. rewrite !bind_ret. unfold bind.
  destruct (get_seller_id now sd c) as [[sid|e] c1]; [|reflexivity].
  destruct (save_auction now item sid c1) as [[aid|e] c2]; [|reflexivity].
  destruct (save_item_specifics now aid (i_item_specifics item) c2)
    as [[[]|e] c3]; [|reflexivity].
  destruct (save_bids now aid (i_bids item) c3) as [[[]|e] c4]; reflexivity.
Qed.

(** X6.  [save_item(item)] without a connection is a transaction of its own,
    the same as [save_items([item])]: when it returns, what it wrote is
    committed; when it raises, the committed tables are untouched and the
    open transaction is back on them; and [save_items] on the one item
    ends with the same connection and the same exception. *)
Theorem save_item_alone_is_a_batch_of_one :
  forall now item c,
    match save_item now item false c with
    | (Ok _, c') =>
        committed c' = working c' /\ save_items now [item] c = (Ok tt, c')
    | (Raise e, c') =>
        committed c' = committed c /\ working c' = committed c /\
        save_items now [item] c = (Raise e, c')
    end.
Proof.
  intros now item c.
  rewrite save_item_alone, (save_items_cons now item [] c), save_each_cons.
  pose proof (committed_save_item (committed c) now item c eq_refl) as Hcom.
  destruct (save_item now item true c) as [[aid|e] c1]; simpl in *.
  - split; reflexivity.
  - rewrite Hcom. repeat split; reflexivity.
Qed.

(** ** The bids of an item *)

Lemma save_bids_loop now aid l :
  save_bids now aid (Some l) =
  for_each l (fun bid =>
    amount <- subscript "amount" (bd_amount bid) ;;
    time <- subscript "time" (bd_time bid) ;;
    insert_bid now aid amount time (bd_bidder_id bid)
      (get (bd_winning_bid bid) false)).
Proof. destruct l; reflexivity. Qed.

Lemma save_bids_rows now aid l :
  forall c,
    Forall (fun id => id < bids_id_seq (sequences c)) (map b_id (bids (working c))) ->
    forallb bid_complete l = true ->
    exists c',
      save_bids now aid (Some l) c = (Ok tt, c') /\
      bids (working c') =
        bids (working c) ++ bid_rows now aid (bids_id_seq (sequences c)) l.
Proof.
  rewrite save_bids_loop.
  induction l as [|bid l IH]; intros c Hbelow Hall.
  - exists c. split; [reflexivity|]. simpl. now rewrite app_nil_r.
  - simpl in Hall. apply andb_true_iff in Hall. destruct Hall as [Hbid Hall].
    unfold bid_complete in Hbid.
    destruct (bd_amount bid) as [amount|] eqn:Ha; [|discriminate].
    destruct (bd_time bid) as [time|] eqn:Ht; [|discriminate].
    simpl for_each. rewrite Ha, Ht. cbn [subscript].
    unfold bind at 1. rewrite !bind_ret.
    assert (Hfresh : ~ In (bids_id_seq (sequences c)) (map b_id (bids (working c)))).
    { intros Hin. rewrite Forall_forall in Hbelow. specialize (Hbelow _ Hin). lia. }
    pose proof (insert_bid_appends now aid amount time (bd_bidder_id bid)
                  (get (bd_winning_bid bid) false) c Hfresh) as Hrows.
    destruct (insert_bid now aid amount time (bd_bidder_id bid)
                (get (bd_winning_bid bid) false) c) as [[[]|e] c1] eqn:E;
      [|unfold insert_bid in E; discriminate E].
    simpl in Hrows.
    assert (Hseq : bids_id_seq (sequences c1) = bids_id_seq (sequences c) + 1).
    { unfold insert_bid in E. now inversion E. }
    destruct (IH c1) as (c' & Hrun & Hbids).
    + rewrite Hrows, Hseq, map_app. simpl.
      apply Forall_snoc; [|lia].
      eapply Forall_impl; [|exact Hbelow]. simpl. intros; lia.
    + exact Hall.
    + exists c'. split; [exact Hrun|].
      rewrite Hbids, Hrows, Hseq, <- app_assoc. simpl.
      unfold bid_row. now rewrite Ha, Ht.
Qed.

Lemma save_bids_incomplete now aid l :
  forall c, forallb bid_complete l = false ->
  exists key c', save_bids now aid (Some l) c = (Raise (KeyError key), c') /\
                 (key = "amount" \/ key = "time").
Proof.
  rewrite save_bids_loop.
  induction l as [|bid l IH]; intros c Hall; [discriminate|].
  simpl in Hall. simpl for_each.
  destruct (bd_amount bid) as [amount|] eqn:Ha;
    [|exists "amount", c; split; [reflexivity|now left]].
  destruct (bd_time bid) as [time|] eqn:Ht;
    [|exists "time", c; split; [reflexivity|now right]].
  unfold bid_complete in Hall at 1. rewrite Ha, Ht in Hall. simpl in Hall.
  cbn [subscript]. unfold bind at 1. rewrite !bind_ret.
  destruct (insert_bid now aid amount time (bd_bidder_id bid)
              (get (bd_winning_bid bid) false) c) as [[[]|e] c1] eqn:E;
    [|unfold insert_bid in E; discriminate E].
  exact (IH c1 Hall).
Qed.

(** X7.  The bids of an observed item are stored one row each, in the order of
    the history, under consecutive primary keys, with the winning flag the
    bid carries or [False]; this when every bid has its amount and its time
    and the sequence is ahead of the table.  A bid without amount or time
    makes the block raise a [KeyError] on that key. *)
Theorem save_bids_stores_every_bid :
  forall now aid history c,
    Forall (fun id => id < bids_id_seq (sequences c)) (map b_id (bids (working c))) ->
    (forallb bid_complete history = true ->
     result (save_bids now aid (Some history)) c = Ok tt /\
     bids (working (run (save_bids now aid (Some history)) c)) =
       bids (working c) ++ bid_rows now aid (bids_id_seq (sequences c)) history) /\
    (forallb bid_complete history = false ->
     exists key,
       result (save_bids now aid (Some history)) c = Raise (KeyError key) /\
       (key = "amount" \/ key = "time")).
Proof.
  intros now aid history c Hbelow. unfold result, run. split.
  - intros Hall.
    destruct (save_bids_rows now aid history c Hbelow Hall) as (c' & -> & Hrows).
    now split.
  - intros Hall.
    destruct (save_bids_incomplete now aid history c Hall) as (key & c' & -> & Hkey).
    now exists key.
Qed.

Lemma save_bids_stores_every_bid_witness :
  result (save_bids 50 1 (Some [bid_120; bid_130])) fresh = Ok tt /\
  bids (working (run (save_bids 50 1 (Some [bid_120; bid_130])) fresh)) =
    bids (working fresh) ++ bid_rows 50 1 (bids_id_seq (sequences fresh))
                              [bid_120; bid_130].
Proof.
  apply (proj1 (save_bids_stores_every_bid 50 1 [bid_120; bid_130] fresh
                  ltac:(simpl; constructor))).
  reflexivity.
Defined.

(** ** The winning bid of a completion *)

(** [update_completed_item] on an item whose auction is stored: the
    statement has run, what is left is the bid. *)
Lemma update_completed_item_found now item iid r c :
  i_item_id item = Some iid ->
  find_auction iid (auctions (working c)) = Some r ->
  update_completed_item now item c =
  (match i_bids item with
   | Some ((_ :: _) as history) =>
       let winning_bid := last history empty_bid in
       if bid_truthy winning_bid then
         amount <- subscript "amount" (bd_amount winning_bid) ;;
         time <- subscript "time" (bd_time winning_bid) ;;
         insert_bid now (a_id r) amount time (bd_bidder_id winning_bid) true
       else ret tt
   | _ => ret tt
   end)
    (set_working
       (set_auctions
          (map (fun x => if String.eqb (a_item_id x) iid
                         then complete_auction now (i_final_price item)
                                (get (i_num_bids item) 0) x
                         else x) (auctions (working c))) (working c)) c).
Proof.
  intros Hid Hf. unfold update_completed_item. rewrite Hid.
  cbn [subscript]. rewrite bind_ret.
  erewrite bind_ok by (unfold update_auction_completed; reflexivity).
  rewrite Hf. reflexivity.
Qed.

(** X8.  Of the bid history of a completion only the last bid is stored: for an
    item whose auction is stored and whose last bid has its amount and its
    time, the completion adds one row to [bids], that bid with the winning
    flag set, however long the history is. *)
Theorem completion_records_the_last_bid_only :
  forall now item iid r history amount time c,
    i_item_id item = Some iid ->
    find_auction iid (auctions (working c)) = Some r ->
    i_bids item = Some history ->
    bd_amount (last history empty_bid) = Some amount ->
    bd_time (last history empty_bid) = Some time ->
    ~ In (bids_id_seq (sequences c)) (map b_id (bids (working c))) ->
    result (update_completed_item now item) c = Ok tt /\
    bids (working (run (update_completed_item now item) c)) =
      bids (working c) ++
      [mkBid (bids_id_seq (sequences c)) (a_id r) amount time
         (bd_bidder_id (last history empty_bid)) true now].
Proof.
  intros now item iid r history amount time c Hid Hf Hb Ha Ht Hfresh.
  unfold result, run.
  rewrite (update_completed_item_found now item iid r c Hid Hf), Hb.
  destruct history as [|b0 history]; [discriminate Ha|].
  cbv zeta. unfold bid_truthy. rewrite Ha, Ht. cbn [subscript].
  rewrite !bind_ret.
  split; [reflexivity|].
  now rewrite insert_bid_appends.
Qed.

Lemma completion_records_the_last_bid_only_witness :
  result (update_completed_item 60
            (completion_with_bids "123" 15000 2
               [mkBidData (Some 12000) (Some 1699990000) None None;
                mkBidData (Some 15000) (Some 1699999000) None None]))
    (run (save_items 50 [listing "123" 10000]) fresh) = Ok tt /\
  bids (working
          (run (update_completed_item 60
                  (completion_with_bids "123" 15000 2
                     [mkBidData (Some 12000) (Some 1699990000) None None;
                      mkBidData (Some 15000) (Some 1699999000) None None]))
             (run (save_items 50 [listing "123" 10000]) fresh))) =
  bids (working (run (save_items 50 [listing "123" 10000]) fresh)) ++
  [mkBid 1 1 15000 1699999000 None true 60].
Proof.
  apply (completion_records_the_last_bid_only 60 _ "123"
           (new_auction 50 1 "123" "rtx 3090" 1700000000 None
              (facts_of (listing "123" 10000) 1))
           [mkBidData (Some 12000) (Some 1699990000) None None;
            mkBidData (Some 15000) (Some 1699999000) None None]);
    try reflexivity.
  simpl. intros [].
Defined.

(** X9.  What a completion does with a history it cannot use, for an item whose
    auction is stored.  Without a history, or with an empty one, no bid is
    stored.  A last bid that is an empty dictionary is passed over in
    silence.  A last bid without its amount raises [KeyError] on [amount],
    one with its amount and without its time on [time]; the auction is by
    then completed in the open transaction. *)
Theorem completion_without_a_usable_bid :
  forall now item iid r c,
    i_item_id item = Some iid ->
    find_auction iid (auctions (working c)) = Some r ->
    let c' := run (update_completed_item now item) c in
    status_of iid (working c') = Some "completed" /\
    match i_bids item with
    | None | Some [] =>
        result (update_completed_item now item) c = Ok tt /\
        bids (working c') = bids (working c)
    | Some history =>
        (last history empty_bid = empty_bid ->
         result (update_completed_item now item) c = Ok tt /\
         bids (working c') = bids (working c)) /\
        (bid_truthy (last history empty_bid) = true ->
         bd_amount (last history empty_bid) = None ->
         result (update_completed_item now item) c = Raise (KeyError "amount") /\
         bids (working c') = bids (working c)) /\
        (forall amount,
           bd_amount (last history empty_bid) = Some amount ->
           bd_time (last history empty_bid) = None ->
           result (update_completed_item now item) c = Raise (KeyError "time") /\
           bids (working c') = bids (working c))
    end.
Proof.
  intros now item iid r c Hid Hf c'. subst c'. split.
  - unfold status_of, run.
    rewrite (update_completed_item_auctions now item iid c Hid).
    unfold find_auction in *.
    rewrite (find_map_same _ _ (complete_auction now (i_final_price item)
                                  (get (i_num_bids item) 0)) _ r);
      [reflexivity|reflexivity|exact Hf|].
    apply find_some in Hf. tauto.
  - unfold result, run.
    rewrite (update_completed_item_found now item iid r c Hid Hf).
    destruct (i_bids item) as [[|b0 history]|]; [now split| |now split].
    cbv zeta. split; [|split].
    + intros ->. now split.
    + intros Htrue Hnone. rewrite Htrue, Hnone. now split.
    + intros amount Ha Ht. unfold bid_truthy. rewrite Ha, Ht. now split.
Qed.

Lemma completion_without_a_usable_bid_witness :
  status_of "123"
    (working (run (update_completed_item 60
                     (completion_with_bids "123" 15000 2
                        [mkBidData None (Some 1699999000) None None]))
                (run (save_items 50 [listing "123" 10000]) fresh)))
    = Some "completed" /\
  result (update_completed_item 60
            (completion_with_bids "123" 15000 2
               [mkBidData None (Some 1699999000) None None]))
    (run (save_items 50 [listing "123" 10000]) fresh)
    = Raise (KeyError "amount").
Proof.
  pose proof (completion_without_a_usable_bid 60
                (completion_with_bids "123" 15000 2
                   [mkBidData None (Some 1699999000) None None]) "123"
                (new_auction 50 1 "123" "rtx 3090" 1700000000 None
                   (facts_of (listing "123" 10000) 1))
                (run (save_items 50 [listing "123" 10000]) fresh)
                eq_refl eq_refl) as [Hstatus Hbids].
  split; [exact Hstatus|].
  exact (proj1 (proj1 (proj2 Hbids) eq_refl eq_refl)).
Defined.

(** ** Saving, completing and listing *)

(** The seller row behind the id [get_seller_id] returns. *)
Lemma get_seller_id_row now sd c sid c1 :
  get_seller_id now sd c = (Ok sid, c1) ->
  exists uid s,
    sd_ebay_user_id sd = Some uid /\ In s (sellers (working c1)) /\
    s_id s = sid /\ s_ebay_user_id s = uid /\
    auctions (working c1) = auctions (working c).
Proof.
  intros H. destruct (get_seller_id_ok now sd c sid c1 H) as [uid Hu].
  exists uid.
  destruct (find_seller uid (sellers (working c))) as [r|] eqn:Hf.
  - rewrite (get_seller_id_found now sd uid r c Hu Hf) in H.
    injection H as Hs Hc. destruct Hs, Hc.
    exists (refresh_seller now (sd_rating sd) (sd_feedback_score sd) r).
    split; [exact Hu|]. split; [|split; [reflexivity|split; [|reflexivity]]].
    + simpl. apply in_map_iff. exists r. rewrite Z.eqb_refl.
      split; [reflexivity|]. apply find_some in Hf. tauto.
    + simpl. exact (find_seller_key _ _ _ Hf).
  - rewrite (get_seller_id_new now sd uid c Hu Hf) in H.
    injection H as Hs Hc. destruct Hs, Hc.
    exists (mkSeller (sellers_id_seq (sequences c)) uid (sd_rating sd)
              (sd_feedback_score sd) now now).
    split; [exact Hu|]. split; [|split; [|split]].
    + simpl. apply in_or_app. right. left. reflexivity.
    + reflexivity.
    + reflexivity.
    + reflexivity.
Qed.

(** The auction row behind the id [save_auction] returns. *)
Lemma save_auction_row now item sid c aid c1 :
  save_auction now item sid c = (Ok aid, c1) ->
  exists iid a,
    i_item_id item = Some iid /\ In a (auctions (working c1)) /\
    a_id a = aid /\ a_item_id a = iid /\ a_seller_id a = sid /\
    i_auction_status item = Some (a_auction_status a) /\
    a_current_price a = i_current_price item /\
    a_num_bids a = get (i_num_bids item) 0 /\
    a_updated_at a = now /\
    sellers (working c1) = sellers (working c).
Proof.
  intros H.
  destruct (save_auction_ok now item sid c aid c1 H) as (iid & Hid & Hk & Hins).
  assert (Hst : i_auction_status item = Some (get (i_auction_status item) "")).
  { unfold has_update_keys in Hk.
    destruct (i_title item), (i_url item), (i_auction_status item);
      try discriminate. reflexivity. }
  exists iid.
  destruct (find_auction iid (auctions (working c))) as [r|] eqn:Hf.
  - rewrite (save_auction_found now item sid iid r c Hid Hf Hk) in H.
    injection H as Hs Hc. destruct Hs, Hc.
    exists (overwrite_auction now (facts_of item sid) r).
    split; [exact Hid|]. split; [|repeat split; try reflexivity].
    + simpl. apply in_map_iff. exists r. rewrite Z.eqb_refl.
      split; [reflexivity|]. apply find_some in Hf. tauto.
    + simpl. exact (find_auction_key _ _ _ Hf).
    + exact Hst.
  - rewrite (save_auction_new now item sid iid c Hid Hf (Hins eq_refl)) in H.
    injection H as Hs Hc. destruct Hs, Hc.
    exists (new_auction now (auctions_id_seq (sequences c)) iid
              (get (i_search_pattern item) "") (get (i_auction_end_time item) 0)
              (i_auction_start_time item) (facts_of item sid)).
    split; [exact Hid|]. split; [|repeat split; try reflexivity].
    + simpl. apply in_or_app. right. left. reflexivity.
    + exact Hst.
Qed.

(** X10.  Saving an item and listing the active auctions.  When [save_item]
    returns for an item observed as active, the listing that follows has a
    row for it: under the id [save_item] returned, with the item's id, its
    price and its number of bids, and with the user id of the item's seller
    as [seller_username]. *)
Theorem saved_active_item_is_listed :
  forall now item aid c c',
    save_item now item false c = (Ok aid, c') ->
    i_auction_status item = Some "active" ->
    exists rows row sd,
      get_active_auctions c' = (Ok rows, c') /\ In row rows /\
      a_id (aa_auction row) = aid /\
      i_item_id item = Some (a_item_id (aa_auction row)) /\
      a_current_price (aa_auction row) = i_current_price item /\
      a_num_bids (aa_auction row) = get (i_num_bids item) 0 /\
      a_updated_at (aa_auction row) = now /\
      i_seller item = Some sd /\
      sd_ebay_user_id sd = Some (aa_seller_username row).
Proof.
  intros now item aid c c' H Hactive.
  rewrite save_item_alone in H.
  destruct (save_item now item true c) as [[aid0|e] c0] eqn:E; [|discriminate H].
  injection H as Ha Hc. destruct Ha, Hc.
  apply save_item_ok in E.
  destruct E as (sd & sid & c1 & c2 & c3 & Hsd & H1 & H2 & H3 & H4).
  destruct (get_seller_id_row _ _ _ _ _ H1) as (uid & s & Hu & Hs & Hsid & Huid & _).
  destruct (save_auction_row _ _ _ _ _ _ H2)
    as (iid & a & Hid & Ha & Haid & Hiid & Hasid & Hst & Hprice & Hnum & Hupd & Hsel).
  destruct (save_item_specifics_path now aid0 (i_item_specifics item) c2)
    as (c3' & H3' & _ & Hs3 & Ha3).
  rewrite H3 in H3'. injection H3' as H3'. destruct H3'.
  destruct (save_bids_frame now aid0 (i_bids item) c3) as (Hs4 & Ha4 & _).
  rewrite H4 in Hs4, Ha4. simpl in Hs4, Ha4.
  exists (select_active_auctions (working c0)), (mkActiveAuction a uid), sd.
  split; [reflexivity|]. split.
  - apply in_select_active_auctions. simpl. split; [|split].
    + rewrite Ha4, Ha3. exact Ha.
    + rewrite Hactive in Hst. now injection Hst as <-.
    + exists s. rewrite Hs4, Hs3, Hsel. repeat split; congruence.
  - simpl. repeat split; try assumption. now rewrite Hiid.
Qed.

Lemma saved_active_item_is_listed_witness :
  exists rows row sd,
    get_active_auctions (run (save_item 50 (listing "123" 10000) false) fresh)
      = (Ok rows, run (save_item 50 (listing "123" 10000) false) fresh) /\
    In row rows /\
    a_id (aa_auction row) = 1 /\
    i_item_id (listing "123" 10000) = Some (a_item_id (aa_auction row)) /\
    a_current_price (aa_auction row) = i_current_price (listing "123" 10000) /\
    a_num_bids (aa_auction row) = get (i_num_bids (listing "123" 10000)) 0 /\
    a_updated_at (aa_auction row) = 50 /\
    i_seller (listing "123" 10000) = Some sd /\
    sd_ebay_user_id sd = Some (aa_seller_username row).
Proof.
  apply (saved_active_item_is_listed 50 (listing "123" 10000) 1 fresh); reflexivity.
Defined.

(** [update_completed_item] completes every auction stored under the id of
    its item, and keeps completed what is. *)
Lemma all_completed_update_completed_item now item iid :
  preserves (fun c => all_completed iid (working c)) (update_completed_item now item).
Proof.
  assert (Hstatement : forall p n i,
            preserves (fun c => all_completed iid (working c))
              (update_auction_completed now p n i)).
  { intros p n i c H. unfold update_auction_completed, all_completed in *.
    cbn [snd set_working set_auctions working auctions].
    rewrite Forall_map. eapply Forall_impl; [|exact H]. intros x Hx.
    destruct (String.eqb (a_item_id x) i); [reflexivity|exact Hx]. }
  unfold update_completed_item.
  preserve; try apply Hstatement; intros c H; exact H.
Qed.

Lemma update_completed_item_completes now item iid c :
  i_item_id item = Some iid ->
  all_completed iid (working (snd (update_completed_item now item c))).
Proof.
  intros Hid.
  assert (H : all_completed iid
            (working (snd (update_auction_completed now (i_final_price item)
                             (get (i_num_bids item) 0) iid c)))).
  { unfold update_auction_completed, all_completed.
    cbn [snd set_working set_auctions working auctions].
    rewrite Forall_map. apply Forall_forall.
    intros x _.
    destruct (String.eqb_spec (a_item_id x) iid) as [He|Hne];
      [reflexivity|intros Hx; contradiction]. }
  unfold update_completed_item. rewrite Hid. cbn [subscript]. rewrite bind_ret.
  unfold bind at 1.
  destruct (update_auction_completed now (i_final_price item)
              (get (i_num_bids item) 0) iid c) as [[res|e] c1] eqn:E;
    [|exact H].
  simpl in H.
  destruct res as [auction_id|]; [|exact H].
  destruct (i_bids item) as [[|b0 history]|]; [exact H| |exact H].
  cbv zeta. destruct (bid_truthy (last (b0 :: history) empty_bid)); [|exact H].
  destruct (bd_amount (last (b0 :: history) empty_bid)) as [amount|]; [|exact H].
  cbn [subscript]. rewrite bind_ret.
  destruct (bd_time (last (b0 :: history) empty_bid)) as [time|]; [|exact H].
  cbn [subscript]. rewrite bind_ret. exact H.
Qed.

Lemma for_each_completes now items item iid c :
  In item items -> i_item_id item = Some iid ->
  fst (for_each items (update_completed_item now) c) = Ok tt ->
  all_completed iid (working (snd (for_each items (update_completed_item now) c))).
Proof.
  revert c. induction items as [|x items IH]; intros c Hin Hid Hok; [destruct Hin|].
  simpl in *. unfold bind in *.
  pose proof (update_completed_item_completes now x iid c) as Hx.
  destruct (update_completed_item now x c) as [[[]|e] c1] eqn:E; [|discriminate Hok].
  destruct Hin as [->|Hin].
  - apply (preserves_for_each (fun c => all_completed iid (working c))).
    + intros y. apply all_completed_update_completed_item.
    + exact (Hx Hid).
  - now apply IH.
Qed.

Lemma update_completed_items_cons_in now items item c :
  In item items ->
  update_completed_items now items c =
  match for_each items (update_completed_item now) c with
  | (Ok _, c1) => (Ok tt, mkConnection (working c1) (working c1) (sequences c1))
  | (Raise e, c1) =>
      (Raise e, mkConnection (committed c1) (committed c1) (sequences c1))
  end.
Proof.
  destruct items as [|x items]; [intros []|intros _].
  apply update_completed_items_cons.
Qed.

(** X11.  Completing and listing.  When [update_completed_items] returns, no item
    of its batch is in the listing of the active auctions any more,
    whatever the store held before. *)
Theorem completed_items_leave_the_listing :
  forall now items item iid c,
    result (update_completed_items now items) c = Ok tt ->
    In item items -> i_item_id item = Some iid ->
    exists rows,
      result get_active_auctions (run (update_completed_items now items) c) = Ok rows /\
      forall row, In row rows -> a_item_id (aa_auction row) <> iid.
Proof.
  intros now items item iid c Hok Hin Hid.
  eexists. split; [reflexivity|].
  intros row Hrow Hiid.
  apply in_select_active_auctions in Hrow. destruct Hrow as (Ha & Hst & _).
  destruct items as [|x items]; [destruct Hin|].
  unfold result, run in *.
  rewrite (update_completed_items_cons now x items c) in *.
  pose proof (for_each_completes now (x :: items) item iid c Hin Hid) as Hall.
  destruct (for_each (x :: items) (update_completed_item now) c) as [[[]|e] c1];
    [|discriminate Hok].
  simpl in Ha. specialize (Hall eq_refl). simpl in Hall.
  unfold all_completed in Hall. rewrite Forall_forall in Hall.
  specialize (Hall _ Ha Hiid). rewrite Hall in Hst. discriminate Hst.
Qed.

Lemma completed_items_leave_the_listing_witness :
  exists rows,
    result get_active_auctions
      (run (update_completed_items 60 [completion "123" 15000 2])
         (run (save_items 50 [listing "123" 10000]) fresh)) = Ok rows /\
    forall row, In row rows -> a_item_id (aa_auction row) <> "123".
Proof.
  apply (completed_items_leave_the_listing 60 [completion "123" 15000 2]
           (completion "123" 15000 2) "123"
           (run (save_items 50 [listing "123" 10000]) fresh));
    [reflexivity|left; reflexivity|reflexivity].
Defined.

(** ** One cycle *)

Lemma clean_save_items now items c :
  clean c -> clean (snd (save_items now items c)).
Proof.
  intros H. destruct items as [|item items]; [exact H|].
  rewrite save_items_cons.
  destruct (save_each now (item :: items) c) as [[[]|e] c1]; reflexivity.
Qed.

Lemma clean_update_completed_items now items c :
  clean c -> clean (snd (update_completed_items now items c)).
Proof.
  intros H. destruct items as [|item items]; [exact H|].
  rewrite update_completed_items_cons.
  destruct (for_each (item :: items) (update_completed_item now) c)
    as [[[]|e] c1]; reflexivity.
Qed.

Lemma clean_cycle o c : clean c -> clean (snd (cycle o c)).
Proof.
  intros H. unfold cycle.
  destruct (ob_active o) as [active|]; [|exact H].
  pose proof (clean_save_items (ob_now_active o) active c H) as H1.
  destruct (save_items (ob_now_active o) active c) as [[[]|e] c1]; [|exact H1].
  simpl in H1.
  destruct (ob_completed o) as [completed|]; [|exact H1].
  pose proof (clean_update_completed_items (ob_now_completed o) completed c1 H1) as H2.
  destruct (update_completed_items (ob_now_completed o) completed c1)
    as [[[]|e] c2]; exact H2.
Qed.

Lemma save_items_raise_committed now items c e c' :
  save_items now items c = (Raise e, c') -> committed c' = committed c.
Proof.
  destruct items as [|item items]; [discriminate|].
  rewrite save_items_cons.
  pose proof (save_each_committed now (item :: items) c) as Hcom.
  destruct (save_each now (item :: items) c) as [[[]|e0] c1]; [discriminate|].
  intros H. injection H as _ Hc. destruct Hc. exact Hcom.
Qed.

Lemma update_completed_items_raise_committed now items c e c' :
  update_completed_items now items c = (Raise e, c') -> committed c' = committed c.
Proof.
  destruct items as [|item items]; [discriminate|].
  rewrite update_completed_items_cons.
  pose proof (update_completed_each_committed now (item :: items) c) as Hcom.
  destruct (for_each (item :: items) (update_completed_item now) c)
    as [[[]|e0] c1]; [discriminate|].
  intros H. injection H as _ Hc. destruct Hc. exact Hcom.
Qed.

(** X12.  What a cycle that fails leaves behind.  Started without an open
    transaction, [run_once] ends without one; and when an exception leaves
    it, the committed tables are those from before the cycle, or those with
    the batch of active items saved and nothing of the completions: the
    source failed on the completed items, or the batch of completions was
    rolled back. *)
Theorem failed_cycle_keeps_whole_batches :
  forall o c fl,
    clean c ->
    fst (run_once o c) = Some fl ->
    clean (snd (run_once o c)) /\
    (committed (snd (run_once o c)) = committed c \/
     exists active_items,
       ob_active o = Fetched active_items /\
       result (save_items (ob_now_active o) active_items) c = Ok tt /\
       committed (snd (run_once o c)) =
         committed (run (save_items (ob_now_active o) active_items) c)).
Proof.
  intros o c fl Hclean Hfail.
  split; [now apply clean_cycle|].
  unfold run_once, cycle, result, run in *.
  destruct (ob_active o) as [active|]; [|now left].
  destruct (save_items (ob_now_active o) active c) as [[[]|e] c1] eqn:E1.
  - right. exists active. rewrite E1. split; [reflexivity|]. split; [reflexivity|].
    cbn [snd].
    destruct (ob_completed o) as [completed|]; [|reflexivity].
    destruct (update_completed_items (ob_now_completed o) completed c1)
      as [[[]|e] c2] eqn:E2; [discriminate Hfail|].
    exact (update_completed_items_raise_committed _ _ _ _ _ E2).
  - left. exact (save_items_raise_committed _ _ _ _ _ E1).
Qed.

Lemma failed_cycle_keeps_whole_batches_witness :
  clean (snd (run_once
                (mkObservation (Fetched [listing "123" 10000]) 50
                   (Fetched [listing_without_id 10000]) 60) fresh)) /\
  (committed (snd (run_once
                     (mkObservation (Fetched [listing "123" 10000]) 50
                        (Fetched [listing_without_id 10000]) 60) fresh))
     = committed fresh \/
   exists active_items,
     Fetched [listing "123" 10000] = Fetched active_items /\
     result (save_items 50 active_items) fresh = Ok tt /\
     committed (snd (run_once
                       (mkObservation (Fetched [listing "123" 10000]) 50
                          (Fetched [listing_without_id 10000]) 60) fresh))
       = committed (run (save_items 50 active_items) fresh)).
Proof.
  apply (failed_cycle_keeps_whole_batches
           (mkObservation (Fetched [listing "123" 10000]) 50
              (Fetched [listing_without_id 10000]) 60) fresh
           (StoreFailure (KeyError "item_id")));
    reflexivity.
Defined.

(** X13.  The completions are applied after the active items.  When [run_once]
    reaches its end, no item among the completed ones is in the listing of
    the active auctions, also when the same cycle saw it among the active
    items. *)
Theorem cycle_ends_with_the_completions :
  forall o c completed_items item iid,
    fst (run_once o c) = None ->
    ob_completed o = Fetched completed_items ->
    In item completed_items -> i_item_id item = Some iid ->
    exists rows,
      result get_active_auctions (snd (run_once o c)) = Ok rows /\
      forall row, In row rows -> a_item_id (aa_auction row) <> iid.
Proof.
  intros o c completed item iid Hend Hcompleted Hin Hid.
  eexists. split; [reflexivity|].
  intros row Hrow Hiid.
  apply in_select_active_auctions in Hrow. destruct Hrow as (Ha & Hst & _).
  unfold run_once, cycle in *. rewrite Hcompleted in *.
  destruct (ob_active o) as [active|]; [|discriminate Hend].
  destruct (save_items (ob_now_active o) active c) as [[[]|e] c1];
    [|discriminate Hend].
  rewrite (update_completed_items_cons_in _ _ _ _ Hin) in *.
  pose proof (for_each_completes (ob_now_completed o) completed item iid c1 Hin Hid)
    as Hall.
  destruct (for_each completed (update_completed_item (ob_now_completed o)) c1)
    as [[[]|e] c2]; [|discriminate Hend].
  simpl in Ha. specialize (Hall eq_refl). simpl in Hall.
  unfold all_completed in Hall. rewrite Forall_forall in Hall.
  specialize (Hall _ Ha Hiid). rewrite Hall in Hst. discriminate Hst.
Qed.

Lemma cycle_ends_with_the_completions_witness :
  exists rows,
    result get_active_auctions
      (snd (run_once
              (mkObservation (Fetched [listing "123" 10000; listing "456" 20000]) 50
                 (Fetched [completion "123" 15000 2]) 60) fresh)) = Ok rows /\
    forall row, In row rows -> a_item_id (aa_auction row) <> "123".
Proof.
  apply (cycle_ends_with_the_completions
           (mkObservation (Fetched [listing "123" 10000; listing "456" 20000]) 50
              (Fetched [completion "123" 15000 2]) 60) fresh
           [completion "123" 15000 2] (completion "123" 15000 2) "123");
    [reflexivity|reflexivity|left; reflexivity|reflexivity].
Defined.

(** ** The daemon *)



(** A turn during which no signal arrives. *)
Lemma run_daemon_quiet_turn minutes tn rest c :
  turn_signalled tn = false ->
  run_daemon minutes (tn :: rest) c =
  let d := run_daemon minutes rest (snd (cycle (tn_observation tn) c)) in
  mkDaemon (dm_connection d)
    (match fst (cycle (tn_observation tn) c) with
     | None => sleep_time (polling_interval minutes) (tn_start_time tn) (tn_end_time tn)
     | Some _ => 60%Q
     end :: dm_sleeps d)
    (dm_running d).
Proof.
  unfold turn_signalled. intros Hq. simpl.
  destruct (cycle (tn_observation tn) c) as [r c1]. rewrite Hq. simpl.
  apply orb_false_elim in Hq. destruct Hq as [Hq _].
  unfold turn_sleep. rewrite Hq. destruct r; reflexivity.
Qed.

(** The turn during which the signal arrives is the last. *)
Lemma run_daemon_last_turn minutes tn rest c :
  turn_signalled tn = true ->
  run_daemon minutes (tn :: rest) c =
  mkDaemon (snd (cycle (tn_observation tn) c))
    (turn_sleep minutes tn (fst (cycle (tn_observation tn) c))) false.
Proof.
  unfold turn_signalled. intros Hs. simpl.
  destruct (cycle (tn_observation tn) c) as [r c1]. now rewrite Hs.
Qed.

Lemma run_daemon_app minutes before rest c :
  forallb (fun tn => negb (turn_signalled tn)) before = true ->
  run_daemon minutes (before ++ rest) c =
  let d0 := run_daemon minutes before c in
  let d := run_daemon minutes rest (dm_connection d0) in
  mkDaemon (dm_connection d) (dm_sleeps d0 ++ dm_sleeps d) (dm_running d).
Proof.
  revert c. induction before as [|tn before IH]; intros c Hq.
  - simpl. now destruct (run_daemon minutes rest c).
  - simpl in Hq. apply andb_prop in Hq. destruct Hq as [Hq Hrest].
    apply negb_true_iff in Hq.
    rewrite <- app_comm_cons, !run_daemon_quiet_turn by exact Hq.
    cbv zeta. rewrite IH by exact Hrest. reflexivity.
Qed.



(** X15.  Shutdown.  The turn in which the signal arrives is the last: its cycle
    is run to its end, on the connection the turns before left, and no
    later turn begins.  After it the daemon sleeps 60 seconds when the
    cycle failed; it does not sleep when the cycle succeeded and the signal
    came within it; and when the signal came only afterwards, it was during
    the usual sleep. *)
Theorem daemon_stops_after_the_signalled_cycle :
  forall minutes before tn after c,
    forallb (fun t => negb (turn_signalled t)) before = true ->
    turn_signalled tn = true ->
    let d0 := run_daemon minutes before c in
    let d := run_daemon minutes (before ++ tn :: after) c in
    let r := fst (cycle (tn_observation tn) (dm_connection d0)) in
    dm_running d = false /\
    dm_connection d = snd (cycle (tn_observation tn) (dm_connection d0)) /\
    (r <> None -> dm_sleeps d = dm_sleeps d0 ++ [60%Q]) /\
    (r = None -> tn_signal_in_cycle tn = true -> dm_sleeps d = dm_sleeps d0) /\
    (r = None -> tn_signal_in_cycle tn = false ->
     dm_sleeps d =
       dm_sleeps d0 ++
       [sleep_time (polling_interval minutes) (tn_start_time tn) (tn_end_time tn)]).
Proof.
  intros minutes before tn after c Hq Hs. cbv zeta.
  rewrite (run_daemon_app minutes before (tn :: after) c Hq). cbv zeta.
  rewrite (run_daemon_last_turn minutes tn after _ Hs).
  cbn [dm_running dm_connection dm_sleeps].
  split; [reflexivity|]. split; [reflexivity|].
  unfold turn_sleep.
  destruct (fst (cycle (tn_observation tn) (dm_connection (run_daemon minutes before c))))
    as [fl|].
  - split; [reflexivity|]. split; discriminate.
  - split; [intros H; now destruct H|].
    split; intros _ ->; [now rewrite app_nil_r|reflexivity].
Qed.

Lemma daemon_stops_after_the_signalled_cycle_witness :
  dm_running
    (run_daemon 30
       ([mkTurn (mkObservation (Fetched [listing "123" 10000]) 50 (Fetched []) 51)
           1000 1010 false false] ++
        mkTurn (mkObservation (Fetched [listing "456" 20000]) 60 (Fetched []) 61)
          2800 2815 true false ::
        [mkTurn (mkObservation (Fetched [listing "789" 30000]) 70 (Fetched []) 71)
           4600 4610 false false]) fresh) = false /\
  known_items
    (dm_connection
       (run_daemon 30
          ([mkTurn (mkObservation (Fetched [listing "123" 10000]) 50 (Fetched []) 51)
              1000 1010 false false] ++
           mkTurn (mkObservation (Fetched [listing "456" 20000]) 60 (Fetched []) 61)
             2800 2815 true false ::
           [mkTurn (mkObservation (Fetched [listing "789" 30000]) 70 (Fetched []) 71)
              4600 4610 false false]) fresh)) = ["123"; "456"].
Proof.
  pose proof (daemon_stops_after_the_signalled_cycle 30
                [mkTurn (mkObservation (Fetched [listing "123" 10000]) 50 (Fetched []) 51)
                   1000 1010 false false]
                (mkTurn (mkObservation (Fetched [listing "456" 20000]) 60 (Fetched []) 61)
                   2800 2815 true false)
                [mkTurn (mkObservation (Fetched [listing "789" 30000]) 70 (Fetched []) 71)
                   4600 4610 false false] fresh eq_refl eq_refl)
    as (Hrun & Hconn & _).
  split; [exact Hrun|]. now rewrite Hconn.
Defined.

(** An invariant of the two batch methods is one of the daemon. *)
Section DaemonInvariant.
Variable P : Connection -> Prop.
Hypothesis P_save_items : forall now items, preserves P (save_items now items).
Hypothesis P_update_completed_items :
  forall now items, preserves P (update_completed_items now items).

Lemma cycle_keeps o c : P c -> P (snd (cycle o c)).
Proof.
  intros H. unfold cycle.
  destruct (ob_active o) as [active|]; [|exact H].
  pose proof (P_save_items (ob_now_active o) active c H) as H1.
  destruct (save_items (ob_now_active o) active c) as [[[]|e] c1]; [|exact H1].
  simpl in H1.
  destruct (ob_completed o) as [completed|]; [|exact H1].
  pose proof (P_update_completed_items (ob_now_completed o) completed c1 H1) as H2.
  destruct (update_completed_items (ob_now_completed o) completed c1)
    as [[[]|e] c2]; exact H2.
Qed.

Lemma run_daemon_keeps minutes turns c :
  P c -> P (dm_connection (run_daemon minutes turns c)).
Proof.
  revert c. induction turns as [|tn turns IH]; intros c H; simpl; [exact H|].
  pose proof (cycle_keeps (tn_observation tn) c H) as H1.
  destruct (cycle (tn_observation tn) c) as [r c1]. simpl in H1.
  destruct (tn_signal_in_cycle tn || tn_signal_in_sleep tn); simpl; [exact H1|].
  now apply IH.
Qed.
End DaemonInvariant.

(** X16.  However long the daemon runs and whatever fails on the way, a store
    that was sound stays so: primary and business keys unique and the
    sequences ahead of them, every auction with a seller of the table, one
    item specific per auction and key, no transaction left open; and the
    committed tables have lost no row. *)
Theorem daemon_keeps_the_store_sound :
  forall minutes turns c,
    wf c -> clean c ->
    references_ok (working c) -> unique_specifics (working c) ->
    let c' := dm_connection (run_daemon minutes turns c) in
    wf c' /\ clean c' /\
    references_ok (committed c') /\ unique_specifics (committed c') /\
    kept (committed c) (committed c').
Proof.
  intros minutes turns c Hwf Hclean Href Hspec. cbv zeta.
  split; [|split; [|split; [|split]]].
  - revert Hwf. apply any_run_daemon;
      auto using wf_commit, wf_rollback, wf_select_seller_id, wf_select_auction_id,
        wf_update_seller, wf_insert_seller, wf_update_auction, wf_insert_auction,
        wf_upsert_item_specific, wf_insert_bid, wf_update_auction_completed.
  - revert Hclean. apply run_daemon_keeps.
    + intros now items c0. apply clean_save_items.
    + intros now items c0. apply clean_update_completed_items.
  - apply (run_daemon_keeps
             (fun c => references_ok (committed c) /\ references_ok (working c))).
    + intros now items. apply references_save_items.
    + intros now items. apply references_update_completed_items.
    + split; [now rewrite <- Hclean|exact Href].
  - apply (any_run_daemon
             (fun c => unique_specifics (committed c) /\ unique_specifics (working c)));
      auto using specifics_commit, specifics_rollback, specifics_insert_seller,
        specifics_insert_auction, specifics_upsert_item_specific;
      try (intros; intros c0 H0; exact H0).
    split; [now rewrite <- Hclean|exact Hspec].
  - apply (kept_run_daemon (committed c) minutes turns c).
    split; [apply kept_refl|]. rewrite Hclean. apply kept_refl.
Qed.

Lemma daemon_keeps_the_store_sound_witness :
  wf (dm_connection
        (run_daemon 30
           [mkTurn (mkObservation (Fetched batch_of_two) 50
                      (Fetched [completion "123" 15000 5]) 51) 1000 1010 false false;
            mkTurn (mkObservation (Fetched [listing_without_id 10000]) 60
                      FetchRaised 61) 2800 2815 false false] fresh)) /\
  clean (dm_connection
           (run_daemon 30
              [mkTurn (mkObservation (Fetched batch_of_two) 50
                         (Fetched [completion "123" 15000 5]) 51) 1000 1010 false false;
               mkTurn (mkObservation (Fetched [listing_without_id 10000]) 60
                         FetchRaised 61) 2800 2815 false false] fresh)).
Proof.
  pose proof (daemon_keeps_the_store_sound 30
                [mkTurn (mkObservation (Fetched batch_of_two) 50
                           (Fetched [completion "123" 15000 5]) 51) 1000 1010 false false;
                 mkTurn (mkObservation (Fetched [listing_without_id 10000]) 60
                           FetchRaised 61) 2800 2815 false false] fresh
                wf_fresh eq_refl (Forall_nil _) (NoDup_nil _))
    as (Hwf & Hclean & _).
  split; [exact Hwf|exact Hclean].
Defined.

(** ** Configuration *)

Lemma dict_get_none key d : ~ In key (map fst d) -> dict_get key d = None.
Proof.
  induction d as [|[k v] d IH]; simpl; [reflexivity|]. intros H.
  destruct (String.eqb_spec k key) as [He|_]; [tauto|]. apply IH. tauto.
Qed.

Lemma dict_get_in key d v : dict_get key d = Some v -> In (key, v) d.
Proof.
  induction d as [|[k x] d IH]; simpl; [discriminate|].
  destruct (String.eqb_spec k key) as [->|_].
  - intros H. injection H as ->. now left.
  - intros H. right. now apply IH.
Qed.

Lemma in_dict_get key d v :
  NoDup (map fst d) -> In (key, v) d -> dict_get key d = Some v.
Proof.
  induction d as [|[k x] d IH]; simpl; [intros _ []|].
  intros Hnd [He|Hin].
  - injection He as -> ->. now rewrite String.eqb_refl.
  - inversion Hnd as [|? ? Hk Hnd']. subst.
    destruct (String.eqb_spec k key) as [->|_]; [|now apply IH].
    exfalso. apply Hk. apply in_map_iff. now exists (key, v).
Qed.

Lemma dict_get_set k key v d :
  dict_get key (dict_set k v d) = if String.eqb k key then Some v else dict_get key d.
Proof.
  induction d as [|[k0 v0] d IH]; simpl; [reflexivity|].
  destruct (String.eqb_spec k0 k) as [->|Hne]; simpl.
  - now destruct (String.eqb k key).
  - rewrite IH. destruct (String.eqb_spec k0 key) as [->|_]; [|reflexivity].
    destruct (String.eqb_spec k key) as [->|_]; [contradiction|reflexivity].
Qed.

Lemma dict_set_same k v d : dict_get k d = Some v -> dict_set k v d = d.
Proof.
  induction d as [|[k0 v0] d IH]; simpl; [discriminate|].
  destruct (String.eqb_spec k0 k) as [->|_].
  - intros H. now injection H as ->.
  - intros H. now rewrite IH.
Qed.

Lemma dict_set_new k v d : dict_get k d = None -> dict_set k v d = d ++ [(k, v)].
Proof.
  induction d as [|[k0 v0] d IH]; simpl; [reflexivity|].
  destruct (String.eqb_spec k0 k) as [->|_]; [discriminate|].
  intros H. now rewrite IH.
Qed.

Lemma keys_dict_set k v d :
  map fst (dict_set k v d) =
  match dict_get k d with
  | Some _ => map fst d
  | None => map fst d ++ [k]
  end.
Proof.
  induction d as [|[k0 v0] d IH]; simpl; [reflexivity|].
  destruct (String.eqb_spec k0 k) as [->|_]; simpl; [reflexivity|].
  rewrite IH. now destruct (dict_get k d).
Qed.

(** One turn of the loop of [merge_configs]. *)
Lemma merge_configs_cons base key value rest :
  merge_configs base ((key, value) :: rest) =
  merge_configs (dict_set key (merge_value (dict_get key base) value) base) rest.
Proof.
  unfold merge_configs, merge_value. simpl.
  destruct (dict_get key base) as [[a|b]|], value as [a'|o]; reflexivity.
Qed.

Lemma dict_get_merge_configs base override key :
  NoDup (map fst override) ->
  dict_get key (merge_configs base override) =
  match dict_get key override with
  | Some v => Some (merge_value (dict_get key base) v)
  | None => dict_get key base
  end.
Proof.
  revert base. induction override as [|[k v] rest IH]; intros base Hnd;
    [reflexivity|].
  inversion Hnd as [|? ? Hk Hnd']. subst.
  rewrite merge_configs_cons, (IH _ Hnd'), dict_get_set. simpl.
  destruct (String.eqb_spec k key) as [->|Hne].
  - now rewrite (dict_get_none key rest Hk).
  - reflexivity.
Qed.

Lemma keys_merge_configs base override :
  NoDup (map fst override) ->
  map fst (merge_configs base override) =
  map fst base ++
  filter (fun key => match dict_get key base with Some _ => false | None => true end)
    (map fst override).
Proof.
  revert base. induction override as [|[k v] rest IH]; intros base Hnd.
  - simpl. now rewrite app_nil_r.
  - inversion Hnd as [|? ? Hk Hnd']. subst.
    rewrite merge_configs_cons, (IH _ Hnd'), keys_dict_set. simpl.
    assert (Hrest : filter
              (fun key =>
                 match dict_get key
                         (dict_set k (merge_value (dict_get k base) v) base) with
                 | Some _ => false
                 | None => true
                 end) (map fst rest) =
            filter (fun key => match dict_get key base with
                               | Some _ => false
                               | None => true
                               end) (map fst rest)).
    { apply filter_ext_in. intros key Hin. rewrite dict_get_set.
      destruct (String.eqb_spec k key) as [->|_]; [contradiction|reflexivity]. }
    rewrite Hrest.
    destruct (dict_get k base); [reflexivity|]. now rewrite <- app_assoc.
Qed.

(** X17.  What [merge_configs] returns, key by key.  For an override that is a
    dictionary (each key once), a key of the override holds the override's
    value, or the merge of the two values when both are dictionaries; any
    other key holds what the base holds.  The keys of the base keep their
    order and the new ones follow in the order of the override. *)
Theorem merge_configs_overrides_key_by_key :
  forall base override,
    NoDup (map fst override) ->
    (forall key,
       dict_get key (merge_configs base override) =
       match dict_get key override, dict_get key base with
       | Some (Dict o), Some (Dict b) => Some (Dict (merge_configs b o))
       | Some v, _ => Some v
       | None, old => old
       end) /\
    map fst (merge_configs base override) =
      map fst base ++
      filter (fun key => match dict_get key base with Some _ => false | None => true end)
        (map fst override).
Proof.
  intros base override Hnd. split; [|now apply keys_merge_configs].
  intros key. rewrite (dict_get_merge_configs base override key Hnd).
  unfold merge_value.
  destruct (dict_get key override) as [[a|o]|], (dict_get key base) as [[a'|b]|];
    reflexivity.
Qed.

Lemma merge_configs_overrides_key_by_key_witness :
  (forall key,
     dict_get key
       (merge_configs DEFAULT_CONFIG
          [("database", Dict [("host", Leaf (AStr "db1"))]);
           ("proxy", Leaf (AStr "http://proxy:3128"))]) =
     match dict_get key
             [("database", Dict [("host", Leaf (AStr "db1"))]);
              ("proxy", Leaf (AStr "http://proxy:3128"))],
           dict_get key DEFAULT_CONFIG with
     | Some (Dict o), Some (Dict b) => Some (Dict (merge_configs b o))
     | Some v, _ => Some v
     | None, old => old
     end) /\
  map fst
    (merge_configs DEFAULT_CONFIG
       [("database", Dict [("host", Leaf (AStr "db1"))]);
        ("proxy", Leaf (AStr "http://proxy:3128"))]) =
  ["database"; "ebay"; "search"; "daemon"; "logging"; "proxy"].
Proof.
  apply (merge_configs_overrides_key_by_key DEFAULT_CONFIG
           [("database", Dict [("host", Leaf (AStr "db1"))]);
            ("proxy", Leaf (AStr "http://proxy:3128"))]).
  repeat constructor; simpl; intuition discriminate.
Defined.

(** *** Merging the same thing again *)

Lemma merge_configs_stays base rest :
  (forall key v, In (key, v) rest ->
     dict_get key base = Some (merge_value (dict_get key base) v)) ->
  merge_configs base rest = base.
Proof.
  induction rest as [|[k v] rest IH]; intros H; [reflexivity|].
  rewrite merge_configs_cons.
  rewrite dict_set_same by (symmetry; rewrite <- (H k v (or_introl eq_refl)); reflexivity).
  apply IH. intros key x Hin. apply H. now right.
Qed.

Lemma merge_configs_self d : proper (Dict d) -> merge_configs d d = d.
Proof.
  assert (H : forall v, match v with
                        | Leaf _ => True
                        | Dict d => proper v -> merge_configs d d = d
                        end).
  { apply value_nested_ind; [exact (fun _ => I)|].
    clear d. intros d IH Hproper.
    inversion Hproper as [|? Hnd Hall]. subst.
    apply merge_configs_stays. intros key v Hin.
    rewrite (in_dict_get key d v Hnd Hin). f_equal.
    rewrite Forall_forall in IH, Hall.
    specialize (IH _ Hin). specialize (Hall _ Hin). simpl in IH, Hall.
    destruct v as [a|x]; [reflexivity|].
    simpl. now rewrite (IH Hall). }
  exact (H (Dict d)).
Qed.

Lemma merge_configs_again base override :
  proper (Dict override) ->
  merge_configs (merge_configs base override) override = merge_configs base override.
Proof.
  assert (H : forall v, match v with
                        | Leaf _ => True
                        | Dict o =>
                            forall base, proper v ->
                              merge_configs (merge_configs base o) o =
                              merge_configs base o
                        end).
  { apply value_nested_ind; [exact (fun _ => I)|].
    clear base override. intros o IH base Hproper.
    inversion Hproper as [|? Hnd Hall]. subst.
    apply merge_configs_stays. intros key v Hin.
    rewrite (dict_get_merge_configs base o key Hnd), (in_dict_get key o v Hnd Hin).
    f_equal.
    rewrite Forall_forall in IH, Hall.
    specialize (IH _ Hin). specialize (Hall _ Hin). simpl in IH, Hall.
    destruct v as [a|x];
      [destruct (dict_get key base) as [[a'|b]|]; reflexivity|].
    destruct (dict_get key base) as [[a|b]|]; simpl.
    - now rewrite (merge_configs_self x Hall).
    - now rewrite (IH b Hall).
    - now rewrite (merge_configs_self x Hall). }
  exact (H (Dict override) base).
Qed.

Lemma merge_configs_disjoint base override :
  NoDup (map fst override) ->
  (forall key, In key (map fst override) -> dict_get key base = None) ->
  merge_configs base override = base ++ override.
Proof.
  revert base. induction override as [|[k v] rest IH]; intros base Hnd Hnew.
  - simpl. now rewrite app_nil_r.
  - inversion Hnd as [|? ? Hk Hnd']. subst.
    rewrite merge_configs_cons, (Hnew k (or_introl eq_refl)). simpl.
    rewrite dict_set_new by exact (Hnew k (or_introl eq_refl)).
    rewrite IH; [now rewrite <- app_assoc|exact Hnd'|].
    intros key Hin.
    rewrite <- (dict_set_new k v base (Hnew k (or_introl eq_refl))), dict_get_set.
    destruct (String.eqb_spec k key) as [->|_]; [contradiction|].
    apply Hnew. now right.
Qed.

(** X18.  Merging is safe to repeat.  An empty override leaves the base as it
    is, and an empty base gives the override; a configuration merged into
    itself is unchanged; and merging an override a second time changes
    nothing any more.  The override is a dictionary all the way down: each
    key once at every level. *)
Theorem merge_configs_is_idempotent :
  forall base override,
    proper (Dict override) ->
    merge_configs base [] = base /\
    merge_configs [] override = override /\
    merge_configs override override = override /\
    merge_configs (merge_configs base override) override = merge_configs base override.
Proof.
  intros base override Hproper.
  split; [reflexivity|]. split; [|split].
  - inversion Hproper as [|? Hnd _]. subst.
    now rewrite (merge_configs_disjoint [] override Hnd).
  - now apply merge_configs_self.
  - now apply merge_configs_again.
Qed.

Lemma merge_configs_is_idempotent_witness :
  merge_configs [("search", Dict [("pattern", Leaf (AStr "rtx 4090"))])] [] =
    [("search", Dict [("pattern", Leaf (AStr "rtx 4090"))])] /\
  merge_configs [] DEFAULT_CONFIG = DEFAULT_CONFIG /\
  merge_configs DEFAULT_CONFIG DEFAULT_CONFIG = DEFAULT_CONFIG /\
  merge_configs
    (merge_configs [("search", Dict [("pattern", Leaf (AStr "rtx 4090"))])]
       DEFAULT_CONFIG) DEFAULT_CONFIG =
  merge_configs [("search", Dict [("pattern", Leaf (AStr "rtx 4090"))])] DEFAULT_CONFIG.
Proof.
  apply (merge_configs_is_idempotent
           [("search", Dict [("pattern", Leaf (AStr "rtx 4090"))])] DEFAULT_CONFIG).
  repeat (constructor; simpl; try (intuition discriminate)).
Defined.

(** *** Sections of plain values *)

Lemma dict_get_some_in key d v : dict_get key d = Some v -> In key (map fst d).
Proof.
  intros H. apply dict_get_in in H. apply in_map_iff. now exists (key, v).
Qed.

Lemma NoDup_dict_set k v d : NoDup (map fst d) -> NoDup (map fst (dict_set k v d)).
Proof.
  intros Hnd. rewrite keys_dict_set.
  destruct (dict_get k d) as [x|] eqn:Hk; [exact Hnd|].
  apply NoDup_app; [exact Hnd|repeat constructor; intros []|].
  intros key Hin [He|[]]. subst key.
  apply in_map_iff in Hin. destruct Hin as ([k0 x] & Hfst & Hin). simpl in Hfst. subst k0.
  now rewrite (in_dict_get k d x Hnd Hin) in Hk.
Qed.

Lemma flat_nil : flat [].
Proof. split; [constructor|discriminate]. Qed.

Lemma flat_set_if b k a d : flat d -> flat (set_if b k (Leaf a) d).
Proof.
  intros [Hnd Hleaf]. destruct b; [|now split]. simpl. split.
  - now apply NoDup_dict_set.
  - intros key v. rewrite dict_get_set.
    destruct (String.eqb k key); [|apply Hleaf].
    intros H. injection H as <-. now exists a.
Qed.

Lemma flat_single k a : flat [(k, Leaf a)].
Proof. exact (flat_set_if true k a [] flat_nil). Qed.

Lemma sectioned_nil : sectioned [].
Proof. split; [constructor|discriminate]. Qed.

Lemma sectioned_set_if b k x d :
  flat x -> sectioned d -> sectioned (set_if b k (Dict x) d).
Proof.
  intros Hx [Hnd Hsec]. destruct b; [|now split]. simpl. split.
  - now apply NoDup_dict_set.
  - intros key v. rewrite dict_get_set.
    destruct (String.eqb k key); [|apply Hsec].
    intros H. injection H as <-. now exists x.
Qed.

Lemma dict_get_set_if b k key v d :
  dict_get key (set_if b k v d) =
  if b && String.eqb k key then Some v else dict_get key d.
Proof. destruct b; [apply dict_get_set|reflexivity]. Qed.

(** [args_to_config] as the assignments it makes. *)
Lemma args_to_config_assignments args :
  args_to_config args =
  set_if (str_true (ns_log_level args)) "logging"
    (Dict [("level", Leaf (AStr (ns_log_level args)))])
    (set_if (int_true (ns_polling_interval args)) "daemon"
       (Dict [("polling_interval", Leaf (AInt (ns_polling_interval args)))])
       (set_if (opt_str_true (ns_search_pattern args) ||
                int_true (ns_auction_period args) ||
                int_true (ns_completed_period args)) "search"
          (Dict
             (set_if (int_true (ns_completed_period args)) "completed_period"
                (Leaf (AInt (ns_completed_period args)))
                (set_if (int_true (ns_auction_period args)) "auction_period"
                   (Leaf (AInt (ns_auction_period args)))
                   (set_if (opt_str_true (ns_search_pattern args)) "pattern"
                      (Leaf (AStr (get (ns_search_pattern args) ""))) []))))
          (set_if (opt_str_true (ns_db_host args) || opt_int_true (ns_db_port args) ||
                   opt_str_true (ns_db_name args) || opt_str_true (ns_db_user args) ||
                   opt_str_true (ns_db_password args)) "database"
             (Dict
                (set_if (opt_str_true (ns_db_password args)) "password"
                   (Leaf (AStr (get (ns_db_password args) "")))
                   (set_if (opt_str_true (ns_db_user args)) "user"
                      (Leaf (AStr (get (ns_db_user args) "")))
                      (set_if (opt_str_true (ns_db_name args)) "name"
                         (Leaf (AStr (get (ns_db_name args) "")))
                         (set_if (opt_int_true (ns_db_port args)) "port"
                            (Leaf (AInt (get (ns_db_port args) 0)))
                            (set_if (opt_str_true (ns_db_host args)) "host"
                               (Leaf (AStr (get (ns_db_host args) ""))) []))))))
             []))).
Proof. reflexivity. Qed.

Lemma sectioned_args_to_config args : sectioned (args_to_config args).
Proof.
  rewrite args_to_config_assignments.
  repeat first [ apply sectioned_set_if | apply flat_set_if
               | apply sectioned_nil | apply flat_nil
               | apply flat_single ].
Qed.

Lemma flat_of_leaves d :
  NoDup (map fst d) -> Forall (fun kv => exists a, snd kv = Leaf a) d -> flat d.
Proof.
  intros Hnd Hall. split; [exact Hnd|]. intros key v H.
  rewrite Forall_forall in Hall. exact (Hall _ (dict_get_in _ _ _ H)).
Qed.

Lemma sectioned_of_flat config :
  NoDup (map fst config) ->
  Forall (fun kv => exists d, snd kv = Dict d /\ flat d) config -> sectioned config.
Proof.
  intros Hnd Hall. split; [exact Hnd|]. intros key v H.
  rewrite Forall_forall in Hall. exact (Hall _ (dict_get_in _ _ _ H)).
Qed.

Lemma sectioned_DEFAULT_CONFIG : sectioned DEFAULT_CONFIG.
Proof.
  apply sectioned_of_flat; [repeat constructor; simpl; intuition discriminate|].
  repeat (apply Forall_cons;
          [eexists; split;
           [reflexivity
           |apply flat_of_leaves;
            [repeat constructor; simpl; intuition discriminate
            |repeat (apply Forall_cons; [eexists; reflexivity|]); apply Forall_nil]]|]).
  apply Forall_nil.
Qed.

Lemma config_get_flat section key config v :
  sectioned config -> config_get section key config = Some v -> exists a, v = Leaf a.
Proof.
  intros [_ Hsec]. unfold config_get.
  destruct (dict_get section config) as [x|] eqn:Hx; [|discriminate].
  destruct (Hsec _ _ Hx) as (d & -> & _ & Hleaf). apply Hleaf.
Qed.

(** Lookup in a merge whose override has sections of plain values. *)
Lemma config_get_merge_sectioned base override section key :
  sectioned override ->
  config_get section key (merge_configs base override) =
  match config_get section key override with
  | Some v => Some v
  | None => config_get section key base
  end.
Proof.
  intros [Hnd Hsec]. unfold config_get.
  rewrite (dict_get_merge_configs base override section Hnd).
  destruct (dict_get section override) as [x|] eqn:Hx; [|reflexivity].
  destruct (Hsec _ _ Hx) as (o & -> & Hnd' & Hleaf).
  destruct (dict_get section base) as [[a|b]|]; simpl;
    try (now destruct (dict_get key o)).
  rewrite (dict_get_merge_configs b o key Hnd').
  destruct (dict_get key o) as [v|] eqn:Hv; [|reflexivity].
  destruct (Hleaf _ _ Hv) as [a ->].
  now destruct (dict_get key b) as [[a'|b']|].
Qed.

(** Lookup in a merge whose base has sections of plain values. *)
Lemma config_get_merge_onto_sectioned base override section key :
  sectioned base ->
  NoDup (map fst override) ->
  (forall d, dict_get section override = Some (Dict d) -> NoDup (map fst d)) ->
  config_get section key (merge_configs base override) =
  match dict_get section override with
  | Some (Leaf _) => None
  | _ =>
      match config_get section key override with
      | Some v => Some v
      | None => config_get section key base
      end
  end.
Proof.
  intros [_ Hsec] Hnd Hnd'. unfold config_get.
  rewrite (dict_get_merge_configs base override section Hnd).
  destruct (dict_get section override) as [[a|o]|] eqn:Hx.
  - now destruct (dict_get section base) as [[a'|b]|].
  - specialize (Hnd' o eq_refl).
    destruct (dict_get section base) as [x|] eqn:Hb.
    + destruct (Hsec _ _ Hb) as (b & -> & _ & Hleaf). simpl.
      rewrite (dict_get_merge_configs b o key Hnd').
      destruct (dict_get key o) as [v|]; [|reflexivity].
      destruct (dict_get key b) as [y|] eqn:Hy; [|now destruct v].
      destruct (Hleaf _ _ Hy) as [a ->]. now destruct v.
    + simpl. now destruct (dict_get key o).
  - reflexivity.
Qed.

Lemma load_config_merges load_config_file args file_config :
  (if opt_str_true (ns_config args)
   then load_config_file (get (ns_config args) "") = Dict file_config
   else file_config = []) ->
  load_config load_config_file args =
  Some (merge_configs (merge_configs DEFAULT_CONFIG file_config) (args_to_config args)).
Proof.
  unfold load_config. destruct (opt_str_true (ns_config args)).
  - intros ->. reflexivity.
  - intros ->. reflexivity.
Qed.

(** X19.  The precedence of [load_config].  [file_config] is what the file
    brings: the dictionary [load_config_file] returns when [--config] is
    given, nothing otherwise.  A setting of the command line wins; where the
    command line is silent the file wins; where both are silent the default
    stays.  A section that the file fills with something that is no
    dictionary loses its defaults: only the command line's settings are
    left in it. *)
Theorem load_config_precedence :
  forall load_config_file args file_config section key,
    (if opt_str_true (ns_config args)
     then load_config_file (get (ns_config args) "") = Dict file_config
     else file_config = []) ->
    NoDup (map fst file_config) ->
    (forall d, dict_get section file_config = Some (Dict d) -> NoDup (map fst d)) ->
    exists config,
      load_config load_config_file args = Some config /\
      config_get section key config =
      match dict_get section file_config with
      | Some (Leaf _) => config_get section key (args_to_config args)
      | _ =>
          match config_get section key (args_to_config args) with
          | Some v => Some v
          | None =>
              match config_get section key file_config with
              | Some v => Some v
              | None => config_get section key DEFAULT_CONFIG
              end
          end
      end.
Proof.
  intros f args file_config section key Hfile Hnd Hnd'.
  eexists. split; [exact (load_config_merges f args file_config Hfile)|].
  rewrite (config_get_merge_sectioned _ _ section key (sectioned_args_to_config args)).
  rewrite (config_get_merge_onto_sectioned _ _ section key
             sectioned_DEFAULT_CONFIG Hnd Hnd').
  destruct (dict_get section file_config) as [[a|d]|]; try reflexivity.
  now destruct (config_get section key (args_to_config args)).
Qed.

Lemma load_config_precedence_witness :
  exists config,
    load_config
      (fun _ => Dict [("database", Dict [("host", Leaf (AStr "db1"));
                                         ("port", Leaf (AInt 6432))])])
      (mkNamespace false (Some "tracker.yaml") false None 24 48 30 "INFO"
         (Some "db2") None None None None) = Some config /\
    config_get "database" "port" config = Some (Leaf (AInt 6432)).
Proof.
  apply (load_config_precedence
           (fun _ => Dict [("database", Dict [("host", Leaf (AStr "db1"));
                                              ("port", Leaf (AInt 6432))])])
           (mkNamespace false (Some "tracker.yaml") false None 24 48 30 "INFO"
              (Some "db2") None None None None)
           [("database", Dict [("host", Leaf (AStr "db1"));
                               ("port", Leaf (AInt 6432))])]
           "database" "port").
  - reflexivity.
  - repeat constructor; intros [].
  - intros d H. injection H as <-. repeat constructor; simpl; intuition discriminate.
Defined.

(** X20.  The defaults of [parse_arguments] reach the configuration as settings
    of the command line.  Whatever the file says, [load_config] returns the
    polling interval, the two periods and the log level of the arguments,
    unless they are [0] or empty; with the defaults of [parse_arguments]
    these are 30, 24, 48 and [INFO], and the file cannot change them. *)
Theorem argument_defaults_shadow_the_file :
  forall load_config_file args config,
    load_config load_config_file args = Some config ->
    (ns_polling_interval args <> 0 ->
     config_get "daemon" "polling_interval" config =
       Some (Leaf (AInt (ns_polling_interval args)))) /\
    (ns_auction_period args <> 0 ->
     config_get "search" "auction_period" config =
       Some (Leaf (AInt (ns_auction_period args)))) /\
    (ns_completed_period args <> 0 ->
     config_get "search" "completed_period" config =
       Some (Leaf (AInt (ns_completed_period args)))) /\
    (ns_log_level args <> "" ->
     config_get "logging" "level" config = Some (Leaf (AStr (ns_log_level args)))).
Proof.
  intros f args config Hload.
  assert (Hconfig : exists base, config = merge_configs base (args_to_config args)).
  { unfold load_config in Hload.
    destruct (opt_str_true (ns_config args)).
    - destruct (f (get (ns_config args) "")) as [a|file_config]; [discriminate|].
      injection Hload as <-. now eexists.
    - injection Hload as <-. now eexists. }
  destruct Hconfig as [base ->].
  assert (Hint : forall i, i <> 0 -> int_true i = true).
  { intros i Hi. unfold int_true. now apply negb_true_iff, Z.eqb_neq. }
  assert (Hstr : forall s, s <> "" -> str_true s = true).
  { intros s Hs. unfold str_true. now apply negb_true_iff, String.eqb_neq. }
  repeat split; intros H;
    rewrite (config_get_merge_sectioned base _ _ _ (sectioned_args_to_config args));
    unfold config_get; rewrite args_to_config_assignments, !dict_get_set_if;
    cbn [String.eqb Ascii.eqb Bool.eqb andb];
    rewrite ?andb_false_r, ?andb_true_r;
    try rewrite (Hint _ H); try rewrite (Hstr _ H);
    rewrite ?orb_true_r; cbn [orb];
    rewrite ?dict_get_set_if;
    cbn [String.eqb Ascii.eqb Bool.eqb andb];
    rewrite ?andb_false_r, ?andb_true_r;
    try rewrite (Hint _ H);
    reflexivity.
Qed.

Lemma argument_defaults_shadow_the_file_witness :
  config_get "daemon" "polling_interval"
    (merge_configs
       (merge_configs DEFAULT_CONFIG
          [("daemon", Dict [("polling_interval", Leaf (AInt 5))])])
       (args_to_config
          (mkNamespace true (Some "tracker.yaml") false None 24 48 30 "INFO"
             None None None None None)))
  = Some (Leaf (AInt 30)).
Proof.
  apply (argument_defaults_shadow_the_file
           (fun _ => Dict [("daemon", Dict [("polling_interval", Leaf (AInt 5))])])
           (mkNamespace true (Some "tracker.yaml") false None 24 48 30 "INFO"
              None None None None None)
           _ eq_refl).
  discriminate.
Defined.

(** ** Auction ids *)

(** The auction row behind the id [save_item] returns. *)
Lemma save_item_row now item c aid c' :
  save_item now item true c = (Ok aid, c') ->
  exists iid a,
    i_item_id item = Some iid /\ In a (auctions (working c')) /\
    a_id a = aid /\ a_item_id a = iid.
Proof.
  intros E. apply save_item_ok in E.
  destruct E as (sd & sid & c1 & c2 & c3 & _ & _ & H2 & H3 & H4).
  destruct (save_auction_row _ _ _ _ _ _ H2) as (iid & a & Hid & Ha & Haid & Hiid & _).
  destruct (save_item_specifics_path now aid (i_item_specifics item) c2)
    as (c3' & H3' & _ & _ & Ha3).
  rewrite H3 in H3'. injection H3' as H3'. destruct H3'.
  destruct (save_bids_frame now aid (i_bids item) c3) as (_ & Ha4 & _).
  rewrite H4 in Ha4. simpl in Ha4.
  exists iid, a. rewrite Ha4, Ha3. now repeat split.
Qed.

(** X21.  The id of an auction never changes.  Once [save_item] has returned an
    id for an item and committed it, every later [save_item] that returns
    for an item with the same [item_id] returns that id, whatever calls
    were made in between and whichever of them failed. *)
Theorem auction_ids_never_change :
  forall now item aid ks now' item' aid' c,
    wf c ->
    result (save_item now item false) c = Ok aid ->
    i_item_id item' = i_item_id item ->
    result (save_item now' item' false)
      (run_calls ks (run (save_item now item false) c)) = Ok aid' ->
    aid' = aid.
Proof.
  intros now item aid ks now' item' aid' c Hwf H1 Hsame H2.
  pose proof (wf_save_item now item false c Hwf) as Hwf1.
  unfold result, run in *.
  rewrite (save_item_alone now item c) in *.
  destruct (save_item now item true c) as [[aid0|e] c0] eqn:E1; [|discriminate H1].
  injection H1 as ->.
  destruct (save_item_row _ _ _ _ _ E1) as (iid & a & Hid & Ha & Haid & Hiid).
  cbn [snd] in *.
  set (c1 := mkConnection (working c0) (working c0) (sequences c0)) in *.
  assert (Hwf2 : wf (run_calls ks c1)).
  { apply any_run_calls;
      auto using wf_commit, wf_rollback, wf_select_seller_id, wf_select_auction_id,
        wf_update_seller, wf_insert_seller, wf_update_auction, wf_insert_auction,
        wf_upsert_item_specific, wf_insert_bid, wf_update_auction_completed. }
  assert (Hkept : kept (committed c1) (working (run_calls ks c1))).
  { destruct (kept_run_calls (committed c1) ks c1) as [Hc Hw].
    - split; apply kept_refl.
    - exact (kept_trans _ _ _ Hc Hw). }
  destruct Hkept as (_ & [added Hgrown] & _).
  assert (Hrow : exists a2, In a2 (auctions (working (run_calls ks c1))) /\
                            a_id a2 = aid /\ a_item_id a2 = iid).
  { assert (Hin : In (auction_imm a)
                    (map auction_imm (auctions (working (run_calls ks c1))))).
    { rewrite Hgrown. apply in_or_app. left. now apply in_map. }
    apply in_map_iff in Hin. destruct Hin as (a2 & Himm & Hin).
    exists a2. split; [exact Hin|].
    unfold auction_imm in Himm. injection Himm as Hi Hk _ _ _ _.
    split; congruence. }
  destruct Hrow as (a2 & Hin2 & Haid2 & Hiid2).
  set (c2 := run_calls ks c1) in *.
  rewrite (save_item_alone now' item' c2) in H2.
  destruct (save_item now' item' true c2) as [[aid1|e] c3] eqn:E2; [|discriminate H2].
  injection H2 as ->.
  apply save_item_ok in E2.
  destruct E2 as (sd & sid & d1 & d2 & d3 & _ & Hg & Hs & _ & _).
  destruct (get_seller_id_row _ _ _ _ _ Hg) as (_ & _ & _ & _ & _ & _ & Hauctions).
  destruct (save_auction_ok _ _ _ _ _ _ Hs) as (iid' & Hid' & Hkeys & _).
  assert (iid' = iid) by congruence. subst iid'.
  destruct (find_auction iid (auctions (working d1))) as [r|] eqn:Hf.
  - rewrite (save_auction_found now' item' sid iid r d1 Hid' Hf Hkeys) in Hs.
    injection Hs as <- _.
    pose proof (find_auction_key _ _ _ Hf) as Hk.
    apply find_some in Hf. destruct Hf as [Hr _].
    rewrite Hauctions in Hr.
    destruct Hwf2 as [_ ((_ & Hkey) & _)].
    rewrite <- Haid2. f_equal.
    apply (NoDup_map_inj a_item_id _ r a2 Hkey Hr Hin2). congruence.
  - exfalso. apply find_auction_none in Hf. apply Hf.
    rewrite Hauctions, <- Hiid2. now apply in_map.
Qed.

Lemma auction_ids_never_change_witness :
  result (save_item 50 (listing "123" 10000) false) fresh = Ok 1 /\
  result (save_item 80 (listing "123" 12000) false)
    (run_calls [SaveItems 60 batch_of_two;
                SaveItems 65 [listing_without_id 10000];
                UpdateCompletedItems 70 [completion "123" 15000 5]]
       (run (save_item 50 (listing "123" 10000) false) fresh)) = Ok 1 /\
  1 = 1.
Proof.
  split; [reflexivity|]. split; [reflexivity|].
  apply (auction_ids_never_change 50 (listing "123" 10000) 1
           [SaveItems 60 batch_of_two;
            SaveItems 65 [listing_without_id 10000];
            UpdateCompletedItems 70 [completion "123" 15000 5]]
           80 (listing "123" 12000) 1 fresh wf_fresh);
    reflexivity.
Defined.

(** ** The auctions a batch does not name *)

Lemma preserves_for_each_in {X} (P : Connection -> Prop) (xs : list X)
    (body : X -> M unit) :
  (forall x, In x xs -> preserves P (body x)) -> preserves P (for_each xs body).
Proof.
  induction xs as [|x xs IH]; intros Hb; simpl.
  - apply preserves_ret.
  - apply preserves_bind; [apply Hb; now left|intros _].
    apply IH. intros y Hy. apply Hb. now right.
Qed.

Section OtherAuctions.
Variable iid : string.
Variable found : option Auction.
Let P := fun c => wf c /\ find_auction iid (auctions (working c)) = found.

Lemma others_by_frame {A} (m : M A) :
  preserves wf m ->
  (forall rows, preserves (fun c => auctions (working c) = rows) m) ->
  preserves P m.
Proof.
  intros Hwf Hrows c [H Hw]. split; [now apply Hwf|].
  now rewrite (Hrows (auctions (working c)) c eq_refl).
Qed.

Lemma others_save_auction now item sid :
  i_item_id item <> Some iid -> preserves P (save_auction now item sid).
Proof.
  intros Hother c [Hwf Hw].
  split; [now apply wf_save_auction|].
  destruct (i_item_id item) as [iid'|] eqn:Hid;
    [|now rewrite save_auction_no_key].
  assert (Hne : iid' <> iid) by congruence.
  destruct (find_auction iid' (auctions (working c))) as [r|] eqn:Hf.
  - destruct (has_update_keys item) eqn:Hk.
    + rewrite (save_auction_found now item sid iid' r c Hid Hf Hk). simpl.
      unfold find_auction in *. rewrite find_map_other; [exact Hw|reflexivity|].
      intros x Hx Hkx. apply String.eqb_eq in Hkx.
      apply (other_key_other_id (auctions (working c)) iid' r x);
        [apply Hwf|exact Hf|exact Hx|congruence].
    + destruct (save_auction_found_raise now item sid iid' r c Hid Hf Hk) as [e ->].
      exact Hw.
  - destruct (has_insert_keys item) eqn:Hk.
    + rewrite (save_auction_new now item sid iid' c Hid Hf Hk). simpl.
      unfold find_auction in *. rewrite find_app, Hw. simpl.
      destruct (String.eqb_spec iid' iid) as [He|_]; [contradiction|].
      now destruct found.
    + destruct (save_auction_new_raise now item sid iid' c Hid Hf Hk) as [e ->].
      exact Hw.
Qed.

Lemma others_save_item now item :
  i_item_id item <> Some iid -> preserves P (save_item now item true).
Proof.
  intros Hother. unfold save_item. simpl negb. cbv iota.
  apply preserves_try.
  - apply preserves_bind; [apply preserves_subscript|intros seller].
    apply preserves_bind;
      [apply others_by_frame; [apply wf_get_seller_id|intros rows; apply auctions_get_seller_id]
      |intros sid].
    apply preserves_bind; [now apply others_save_auction|intros aid].
    apply preserves_bind;
      [apply others_by_frame;
       [apply wf_save_item_specifics|intros rows; apply auctions_save_item_specifics]
      |intros _].
    apply preserves_bind;
      [apply others_by_frame; [apply wf_save_bids|intros rows; apply auctions_save_bids]
      |intros _].
    apply preserves_bind; [apply preserves_ret|intros _; apply preserves_ret].
  - intros e. apply preserves_bind; [apply preserves_ret|intros _; apply preserves_raise].
Qed.

Lemma others_update_completed_item now item :
  i_item_id item <> Some iid -> preserves P (update_completed_item now item).
Proof.
  intros Hother c [Hwf Hw].
  split; [now apply wf_update_completed_item|].
  destruct (i_item_id item) as [iid'|] eqn:Hid.
  - rewrite (update_completed_item_auctions now item iid' c Hid).
    unfold find_auction in *. rewrite find_map_other; [exact Hw|reflexivity|].
    intros x _ Hx. apply String.eqb_eq in Hx. apply String.eqb_neq. congruence.
  - unfold update_completed_item. rewrite Hid. exact Hw.
Qed.
End OtherAuctions.

Lemma wf_save_items now items : preserves wf (save_items now items).
Proof.
  apply any_save_items;
    auto using wf_commit, wf_rollback, wf_select_seller_id, wf_select_auction_id,
      wf_update_seller, wf_insert_seller, wf_update_auction, wf_insert_auction,
      wf_upsert_item_specific, wf_insert_bid, wf_update_auction_completed.
Qed.

(** X22.  A batch touches only the auctions it names.  In a consistent store
    without an open transaction, the auction stored under an item id that
    no item of the batch carries is after [save_items], and after
    [update_completed_items], the row it was, whether the batch returned or
    raised; and one that was not stored is still not stored. *)
Theorem batch_leaves_other_auctions_alone :
  forall now items iid c,
    wf c -> clean c ->
    (forall item, In item items -> i_item_id item <> Some iid) ->
    find_auction iid (auctions (committed (run (save_items now items) c))) =
      find_auction iid (auctions (committed c)) /\
    find_auction iid (auctions (working (run (save_items now items) c))) =
      find_auction iid (auctions (committed c)) /\
    find_auction iid (auctions (committed (run (update_completed_items now items) c))) =
      find_auction iid (auctions (committed c)) /\
    find_auction iid (auctions (working (run (update_completed_items now items) c))) =
      find_auction iid (auctions (committed c)).
Proof.
  intros now items iid c Hwf Hclean Hother. unfold run.
  destruct items as [|item items]; [simpl; now rewrite Hclean|].
  rewrite save_items_cons, update_completed_items_cons.
  assert (Hsave : wf (snd (save_each now (item :: items) c)) /\
                  find_auction iid
                    (auctions (working (snd (save_each now (item :: items) c)))) =
                  find_auction iid (auctions (committed c))).
  { apply (preserves_for_each_in
             (fun c' => wf c' /\ find_auction iid (auctions (working c')) =
                                 find_auction iid (auctions (committed c)))).
    - intros x Hx. apply preserves_bind; [|intros _; apply preserves_ret].
      apply others_save_item. now apply Hother.
    - split; [exact Hwf|now rewrite Hclean]. }
  assert (Hupdate : wf (snd (for_each (item :: items) (update_completed_item now) c)) /\
                    find_auction iid
                      (auctions (working (snd (for_each (item :: items)
                                                 (update_completed_item now) c)))) =
                    find_auction iid (auctions (committed c))).
  { apply (preserves_for_each_in
             (fun c' => wf c' /\ find_auction iid (auctions (working c')) =
                                 find_auction iid (auctions (committed c)))).
    - intros x Hx. apply others_update_completed_item. now apply Hother.
    - split; [exact Hwf|now rewrite Hclean]. }
  pose proof (save_each_committed now (item :: items) c) as Hcom1.
  pose proof (update_completed_each_committed now (item :: items) c) as Hcom2.
  destruct (save_each now (item :: items) c) as [[[]|e1] c1];
    destruct (for_each (item :: items) (update_completed_item now) c) as [[[]|e2] c2];
    simpl in *; destruct Hsave as [_ Hsave]; destruct Hupdate as [_ Hupdate];
    rewrite ?Hcom1, ?Hcom2; auto.
Qed.

Lemma batch_leaves_other_auctions_alone_witness :
  find_auction "456"
    (auctions (committed
                 (run (save_items 70 [listing "123" 12000; listing "789" 30000])
                    (run (save_items 50 batch_of_two) fresh)))) =
  find_auction "456" (auctions (committed (run (save_items 50 batch_of_two) fresh))).
Proof.
  apply (batch_leaves_other_auctions_alone 70
           [listing "123" 12000; listing "789" 30000] "456"
           (run (save_items 50 batch_of_two) fresh)).
  - apply wf_save_items. exact wf_fresh.
  - reflexivity.
  - intros item [<-|[<-|[]]]; discriminate.
Defined.

(** ** The seller of an item *)

(** X23.  What [get_seller_id] does to the table.  The seller stored under the
    user id keeps its key and its creation time and takes the rating and
    the feedback score of the call, also when the call has none: the stored
    value is then erased.  A seller not yet stored is inserted under the
    next key of the sequence.  No other seller changes, and nothing is
    committed: the write stays in the open transaction of the caller. *)
Theorem get_seller_id_refreshes_one_seller :
  forall now sd uid c,
    wf c -> sd_ebay_user_id sd = Some uid ->
    let c' := run (get_seller_id now sd) c in
    (exists r,
       result (get_seller_id now sd) c = Ok (s_id r) /\
       find_seller uid (sellers (working c')) = Some r /\
       s_rating r = sd_rating sd /\
       s_feedback_score r = sd_feedback_score sd /\
       s_updated_at r = now /\
       match find_seller uid (sellers (working c)) with
       | Some r0 => s_id r = s_id r0 /\ s_created_at r = s_created_at r0
       | None => s_id r = sellers_id_seq (sequences c) /\ s_created_at r = now
       end) /\
    (forall uid', uid' <> uid ->
       find_seller uid' (sellers (working c')) = find_seller uid' (sellers (working c))) /\
    committed c' = committed c.
Proof.
  intros now sd uid c Hwf Hu. cbv zeta. unfold result, run.
  destruct (find_seller uid (sellers (working c))) as [r0|] eqn:Hf.
  - rewrite (get_seller_id_found now sd uid r0 c Hu Hf). simpl.
    split; [|split; [|reflexivity]].
    + exists (refresh_seller now (sd_rating sd) (sd_feedback_score sd) r0).
      repeat split.
      unfold find_seller in *.
      apply (find_map_same _ (fun x => Z.eqb (s_id x) (s_id r0))
               (refresh_seller now (sd_rating sd) (sd_feedback_score sd)));
        [reflexivity|exact Hf|apply Z.eqb_refl].
    + intros uid' Hne. unfold find_seller in *.
      apply find_map_other; [reflexivity|].
      intros x Hx Hkx. apply String.eqb_eq in Hkx.
      destruct Hwf as [_ ((Hkey & _) & (Hid & _) & _)].
      rewrite (seller_by_id_by_key _ uid r0 Hid Hkey Hf x Hx).
      apply String.eqb_neq. congruence.
  - rewrite (get_seller_id_new now sd uid c Hu Hf). simpl.
    split; [|split; [|reflexivity]].
    + exists (mkSeller (sellers_id_seq (sequences c)) uid (sd_rating sd)
                (sd_feedback_score sd) now now).
      repeat split.
      unfold find_seller in *. rewrite find_app, Hf. simpl.
      now rewrite String.eqb_refl.
    + intros uid' Hne. unfold find_seller. rewrite find_app.
      destruct (find _ (sellers (working c))); [reflexivity|]. simpl.
      destruct (String.eqb_spec uid uid') as [He|_]; [now symmetry in He|reflexivity].
Qed.

Lemma get_seller_id_refreshes_one_seller_witness :
  option_map s_rating
    (find_seller "s1"
       (sellers (working
                   (run (get_seller_id 70 (mkSellerData (Some "s1") None None))
                      (run (save_items 50 [listing "123" 10000]) fresh))))) = Some None /\
  committed (run (get_seller_id 70 (mkSellerData (Some "s1") None None))
               (run (save_items 50 [listing "123" 10000]) fresh)) =
  committed (run (save_items 50 [listing "123" 10000]) fresh).
Proof.
  destruct (get_seller_id_refreshes_one_seller 70
              (mkSellerData (Some "s1") None None) "s1"
              (run (save_items 50 [listing "123" 10000]) fresh)
              (wf_save_items 50 [listing "123" 10000] fresh wf_fresh) eq_refl)
    as ((r & _ & Hfind & Hrating & _) & _ & Hcommitted).
  split; [|exact Hcommitted].
  rewrite Hfind. simpl. now rewrite Hrating.
Defined.
